(** * klawhook: the webhook relay, its event store and its credential cache

    A shallow embedding of [api/src/routes/webhook.ts], [api/src/db.ts],
    [api/src/auth.ts] and [api/src/routes/hooks.ts], followed by the
    properties of the ingestion pipeline, the hook registry, the event
    store and the credential cache.

    Conventions of the embedding:
    - a JavaScript string is the list of its UTF-16 code units ([jsstring]);
      [.length] is the length of that list;
    - a table with a PRIMARY KEY is a finite map from the key to the rest of
      the row;
    - a [datetime('now')] text is the number of whole seconds it denotes
      (the text format sorts in that order), also where a response shows it;
    - [ORDER BY] is a sort of the rows of the table; SQL leaves the order of
      rows with equal keys open, and no property below depends on it;
    - a handler is a function of the world (store, cache, clock, pending
      engine faults, console) returning its response and the new world;
      a JavaScript exception is the [Throw] outcome; a handler runs from
      start to end without another one in between. *)

From Stdlib Require Import ZArith NArith Lia List Ascii String.
From Stdlib.Strings Require Import Byte.
From stdpp Require Import base option list gmap sorting.

Local Open Scope Z_scope.

(** ** JavaScript strings *)

Module JS.

Abbreviation jsstring := (list N).

(** Code units of an ASCII literal. *)
Definition js (s : string) : jsstring :=
  map (fun c => N_of_ascii c) (list_ascii_of_string s).

(** [s.length] *)
Definition str_length (s : jsstring) : Z := Z.of_nat (length s).

(** [s.substring(0, n)] for [0 <= n]. *)
Definition substring0 (n : Z) (s : jsstring) : jsstring :=
  firstn (Z.to_nat n) s.

(** Truthiness of a [string | null | undefined] value: [null], [undefined]
    and the empty string are falsy. *)
Definition truthy (o : option jsstring) : bool :=
  match o with
  | Some (_ :: _) => true
  | _ => false
  end.

(** [a || b] on [string | undefined] operands. *)
Definition or_else (a b : option jsstring) : option jsstring :=
  if truthy a then a else b.

Definition eqb (a b : jsstring) : bool := bool_decide (a = b).

(** [toLowerCase] on the ASCII range, which is where header names live. *)
Definition lower_unit (c : N) : N :=
  if ((65 <=? c) && (c <=? 90))%N then (c + 32)%N else c.

Definition toLowerCase (s : jsstring) : jsstring := map lower_unit s.

(** WhiteSpace and LineTerminator code units, as [trim] and [parseInt]
    skip them. *)
Definition is_space (c : N) : bool :=
  ((9 <=? c) && (c <=? 13) || (c =? 32) || (c =? 160) || (c =? 5760)
   || (8192 <=? c) && (c <=? 8202) || (c =? 8232) || (c =? 8233)
   || (c =? 8239) || (c =? 8287) || (c =? 12288) || (c =? 65279))%N.

Fixpoint trimStart (s : jsstring) : jsstring :=
  match s with
  | c :: r => if is_space c then trimStart r else s
  | [] => []
  end.

Definition trim (s : jsstring) : jsstring :=
  rev (trimStart (rev (trimStart s))).

(** [s.split(',')[0]]: the text before the first comma. *)
Fixpoint before_comma (s : jsstring) : jsstring :=
  match s with
  | [] => []
  | c :: r => if (c =? 44)%N then [] else c :: before_comma r
  end.

(** [s.startsWith(p)] *)
Fixpoint startsWith (p s : jsstring) : bool :=
  match p, s with
  | [], _ => true
  | a :: p', b :: s' => (a =? b)%N && startsWith p' s'
  | _ :: _, [] => false
  end.

(** *** parseInt *)

(** Value of a digit in the given radix, if it is one. *)
Definition digit_val (radix c : N) : option N :=
  let v :=
    if ((48 <=? c) && (c <=? 57))%N then Some (c - 48)%N
    else if ((97 <=? c) && (c <=? 122))%N then Some (c - 87)%N
    else if ((65 <=? c) && (c <=? 90))%N then Some (c - 55)%N
    else None in
  match v with
  | Some d => if (d <? radix)%N then Some d else None
  | None => None
  end.

(** Longest prefix of digits, accumulated most significant first. *)
Fixpoint parse_digits (radix : N) (s : jsstring) (acc : option N) : option N :=
  match s with
  | [] => acc
  | c :: r =>
      match digit_val radix c with
      | Some d => parse_digits radix r (Some (default 0%N acc * radix + d)%N)
      | None => acc
      end
  end.

(** [parseInt(s)] with no radix argument: leading white space is skipped,
    a sign is read, a [0x] or [0X] prefix selects radix 16, then the longest
    run of digits is read; no digit at all gives [NaN], here [None].  The
    value is exact (JavaScript rounds it to a double above 2^53). *)
Definition parseInt (s : jsstring) : option Z :=
  let s1 := trimStart s in
  let '(sign, s2) :=
    match s1 with
    | 45%N :: r => (-1, r)
    | 43%N :: r => (1, r)
    | _ => (1, s1)
    end in
  let '(radix, s3) :=
    match s2 with
    | 48%N :: 120%N :: r => (16%N, r)
    | 48%N :: 88%N :: r => (16%N, r)
    | _ => (10%N, s2)
    end in
  match parse_digits radix s3 None with
  | Some n => Some (sign * Z.of_N n)
  | None => None
  end.

(** [Math.min(x, 100)] where [x] may be [NaN]. *)
Definition Math_min (x : option Z) (y : Z) : option Z :=
  match x with
  | Some v => Some (Z.min v y)
  | None => None
  end.

(** *** Number to decimal text *)

Fixpoint digits_go (fuel : nat) (n : N) (acc : jsstring) : jsstring :=
  let acc' := (48 + n mod 10)%N :: acc in
  match fuel with
  | O => acc'
  | S f => if (n <? 10)%N then acc' else digits_go f (n / 10)%N acc'
  end.

(** Decimal digits of a natural number; the fuel, the binary logarithm of
    the number, is never exhausted. *)
Definition digits (n : N) : jsstring := digits_go (N.to_nat (N.log2 n)) n [].

(** [String(z)] for an integer. *)
Definition of_Z (z : Z) : jsstring :=
  if z <? 0 then 45%N :: digits (Z.to_N (- z)) else digits (Z.to_N z).

End JS.

Import JS.

(** ** Exceptions *)

(** The result of running JavaScript code that may throw. *)
Inductive outcome (A : Type) : Type :=
  | Ok (a : A)
  | Throw.
Arguments Ok {A} a.
Arguments Throw {A}.

(** ** JSON values and [JSON.stringify] *)

Module Json.

#[local] Set Warnings "-register-all".

Inductive json : Type :=
  | JNull
  | JBool (b : bool)
  | JNum (z : Z)
  | JStr (s : jsstring)
  | JArr (vs : list json)
  | JObj (fields : list (jsstring * json)).

(** [o[k]] on an object value. *)
Definition field (k : jsstring) (v : json) : option json :=
  match v with
  | JObj fs => snd <$> find (fun kv => eqb (fst kv) k) fs
  | _ => None
  end.

Definition hex_digit (d : N) : N :=
  if (d <? 10)%N then (48 + d)%N else (87 + d)%N.

(** The four lower-case hexadecimal digits of a code unit. *)
Definition hex4 (c : N) : jsstring :=
  [hex_digit (c / 4096 mod 16)%N; hex_digit (c / 256 mod 16)%N;
   hex_digit (c / 16 mod 16)%N; hex_digit (c mod 16)%N].

Definition is_high_surrogate (c : N) : bool := ((55296 <=? c) && (c <=? 56319))%N.
Definition is_low_surrogate (c : N) : bool := ((56320 <=? c) && (c <=? 57343))%N.

(** Escape of one code unit that is not part of a surrogate pair. *)
Definition quote_unit (c : N) : jsstring :=
  if (c =? 34)%N then [92%N; 34%N]
  else if (c =? 92)%N then js "\\"
  else if (c =? 8)%N then js "\b"
  else if (c =? 12)%N then js "\f"
  else if (c =? 10)%N then js "\n"
  else if (c =? 13)%N then js "\r"
  else if (c =? 9)%N then js "\t"
  else if (c <? 32)%N || is_high_surrogate c || is_low_surrogate c
       then js "\u" ++ hex4 c
  else [c].

(** Body of QuoteJSONString: a well-formed surrogate pair is copied, a lone
    surrogate is written as an escape. *)
Fixpoint quote_units (s : jsstring) : jsstring :=
  match s with
  | [] => []
  | c :: r =>
      match r with
      | d :: r' =>
          if is_high_surrogate c && is_low_surrogate d
          then c :: d :: quote_units r'
          else quote_unit c ++ quote_units r
      | [] => quote_unit c
      end
  end.

Definition quote (s : jsstring) : jsstring := 34%N :: quote_units s ++ [34%N].

(** [JSON.stringify(v)] with no indentation. *)
Fixpoint JSON_stringify (v : json) : jsstring :=
  match v with
  | JNull => js "null"
  | JBool true => js "true"
  | JBool false => js "false"
  | JNum z => of_Z z
  | JStr s => quote s
  | JArr vs =>
      js "[" ++
      (fix items (l : list json) : jsstring :=
         match l with
         | [] => []
         | [x] => JSON_stringify x
         | x :: r => JSON_stringify x ++ js "," ++ items r
         end) vs ++ js "]"
  | JObj fs =>
      js "{" ++
      (fix members (l : list (jsstring * json)) : jsstring :=
         match l with
         | [] => []
         | [(k, x)] => quote k ++ js ":" ++ JSON_stringify x
         | (k, x) :: r => quote k ++ js ":" ++ JSON_stringify x ++ js "," ++ members r
         end) fs ++ js "}"
  end.

(** A plain object used as a dictionary ([Record<string, string>]) is the
    list of its own properties in the order JavaScript lists them
    ([Object.keys], [JSON.stringify]): the keys that are array indices
    first, by ascending value, then the other keys in the order they were
    created. *)

(** The value of a key that is an array index: the canonical decimal text
    of an integer below 2^32 - 1. *)
Definition array_index (k : jsstring) : option N :=
  match parse_digits 10 k None with
  | Some n => if (n <? 4294967295)%N && eqb (digits n) k then Some n else None
  | None => None
  end.

(** Is a new key [k] listed before the existing key [k']? *)
Definition listed_before (k k' : jsstring) : bool :=
  match array_index k, array_index k' with
  | Some n, Some n' => (n <? n')%N
  | Some _, None => true
  | None, _ => false
  end.

Definition has_own (k : jsstring) (o : list (jsstring * jsstring)) : bool :=
  existsb (fun kv => eqb (fst kv) k) o.

(** Writing an own property that exists: it keeps its place. *)
Fixpoint update (k v : jsstring) (o : list (jsstring * jsstring)) :
    list (jsstring * jsstring) :=
  match o with
  | [] => []
  | (k', v') :: r => if eqb k' k then (k', v) :: r else (k', v') :: update k v r
  end.

(** Creating an own property. *)
Fixpoint define (k v : jsstring) (o : list (jsstring * jsstring)) :
    list (jsstring * jsstring) :=
  match o with
  | [] => [(k, v)]
  | (k', v') :: r =>
      if listed_before k k' then (k, v) :: o else (k', v') :: define k v r
  end.

(** [obj[k] = v] for a string [v] on an object made by [{}].  The key
    [__proto__] is the accessor inherited from [Object.prototype], whose
    setter ignores a value that is not an object: nothing is stored. *)
Definition assign (k v : jsstring) (o : list (jsstring * jsstring)) :
    list (jsstring * jsstring) :=
  if eqb k (js "__proto__") then o
  else if has_own k o then update k v o
  else define k v o.

(** A [Record<string, string>] as a JSON object. *)
Definition of_record (o : list (jsstring * jsstring)) : json :=
  JObj (map (fun kv => (fst kv, JStr (snd kv))) o).

End Json.

Import Json.

(** ** Reading a request body as text *)

Module Utf8.

(** A multi-byte sequence in progress: the bits read so far, the number of
    continuation bytes still missing and the range allowed for the next
    byte. *)
Record pending := mkPending { cp : N; need : nat; lo : N; hi : N }.

(** UTF-16 code units of a code point. *)
Definition units (c : N) : jsstring :=
  if (c <? 65536)%N then [c]
  else [(55296 + (c - 65536) / 1024)%N; (56320 + (c - 65536) mod 1024)%N].

(** A byte read when no sequence is in progress. *)
Definition lead (b : N) : jsstring * option pending :=
  if (b <=? 127)%N then ([b], None)
  else if ((194 <=? b) && (b <=? 223))%N
       then ([], Some (mkPending (N.land b 31) 1 128 191))
  else if ((224 <=? b) && (b <=? 239))%N
       then ([], Some (mkPending (N.land b 15) 2
                         (if (b =? 224)%N then 160%N else 128%N)
                         (if (b =? 237)%N then 159%N else 191%N)))
  else if ((240 <=? b) && (b <=? 244))%N
       then ([], Some (mkPending (N.land b 7) 3
                         (if (b =? 240)%N then 144%N else 128%N)
                         (if (b =? 244)%N then 143%N else 191%N)))
  else ([65533%N], None).

(** The UTF-8 decoder of the Encoding standard, with replacement of
    malformed input by U+FFFD. *)
Fixpoint decode (st : option pending) (bs : list N) : jsstring :=
  match bs with
  | [] => match st with None => [] | Some _ => [65533%N] end
  | b :: r =>
      match st with
      | None => let '(out, st') := lead b in out ++ decode st' r
      | Some p =>
          if ((lo p <=? b) && (b <=? hi p))%N then
            let c := N.lor (N.shiftl (cp p) 6) (N.land b 63) in
            match need p with
            | S (S n) => decode (Some (mkPending c (S n) 128 191)) r
            | _ => units c ++ decode None r
            end
          else
            let '(out, st') := lead b in 65533%N :: out ++ decode st' r
      end
  end.

Definition skip_bom (bs : list N) : list N :=
  match bs with
  | 239%N :: 187%N :: 191%N :: r => r
  | _ => bs
  end.

(** [await request.text()] on the bytes of the body. *)
Definition text (bs : list byte) : jsstring :=
  decode None (skip_bom (map Byte.to_N bs)).

End Utf8.

(** ** The store ([db.ts]) *)

Module Db.

(** A row of [hooks]; the key of the map is the [id] column. *)
Record Hook := mkHook {
  api_key : jsstring;
  name : option jsstring;
  description : option jsstring;
  delivery_method : jsstring;
  delivery_config : option jsstring;
  created_at : Z;
  last_triggered_at : option Z;
  event_count : Z
}.

(** A row of [events]; the key of the map is the [id] column. *)
Record Event := mkEvent {
  hook_id : jsstring;
  method : jsstring;
  headers : jsstring;
  body : option jsstring;
  query_params : option jsstring;
  source_ip : option jsstring;
  received_at : Z;
  delivered_at : option Z
}.

Record db := mkDb {
  hooks : gmap jsstring Hook;
  events : gmap jsstring Event
}.

Definition set_delivered_at (t : option Z) (e : Event) : Event :=
  mkEvent (hook_id e) (method e) (headers e) (body e) (query_params e)
          (source_ip e) (received_at e) t.

Definition trigger (t : Z) (h : Hook) : Hook :=
  mkHook (api_key h) (name h) (description h) (delivery_method h)
         (delivery_config h) (created_at h) (Some t) (event_count h + 1).

(** [ORDER BY received_at ASC] and [DESC] on rows paired with their id. *)
Definition older (a b : jsstring * Event) : Prop :=
  received_at (snd a) <= received_at (snd b).
Definition newer (a b : jsstring * Event) : Prop :=
  received_at (snd b) <= received_at (snd a).

#[export] Instance older_dec a b : Decision (older a b).
Proof. unfold older. apply _. Defined.
#[export] Instance newer_dec a b : Decision (newer a b).
Proof. unfold newer. apply _. Defined.

Definition hook_newer (a b : jsstring * Hook) : Prop :=
  created_at (snd b) <= created_at (snd a).
#[export] Instance hook_newer_dec a b : Decision (hook_newer a b).
Proof. unfold hook_newer. apply _. Defined.

(** [LIMIT ?] with a bound JavaScript number.  [NaN] is bound as NULL and a
    number outside the 64-bit integers stays a REAL: both are refused with a
    datatype mismatch.  A negative limit means no limit. *)
Definition sql_limit {A} (limit : option Z) (rows : list A) : outcome (list A) :=
  match limit with
  | None => Throw
  | Some n =>
      if n <? - 2 ^ 63 then Throw
      else if n <? 0 then Ok rows
      else Ok (firstn (Z.to_nat n) rows)
  end.

(** The prepared statements.  Each takes the value of [datetime('now')] and
    the store, and gives its result and the store it leaves. *)

(** [INSERT INTO hooks (id, api_key, name, description, delivery_method,
    delivery_config) VALUES (?, ?, ?, ?, ?, ?)] *)
Definition createHook (id key : jsstring) (nm descr : option jsstring)
    (dm : jsstring) (dc : option jsstring) (t : Z) (d : db) : outcome unit * db :=
  match hooks d !! id with
  | Some _ => (Throw, d)
  | None =>
      (Ok tt, mkDb (<[id := mkHook key nm descr dm dc t None 0]> (hooks d)) (events d))
  end.

(** [SELECT * FROM hooks WHERE id = ?] *)
Definition getHook (id : jsstring) (t : Z) (d : db) : outcome (option Hook) * db :=
  (Ok (hooks d !! id), d).

(** [SELECT ... FROM hooks WHERE api_key = ? ORDER BY created_at DESC] *)
Definition getHooksByApiKey (key : jsstring) (t : Z) (d : db)
    : outcome (list (jsstring * Hook)) * db :=
  (Ok (merge_sort hook_newer
         (filter (fun r => api_key (snd r) = key) (map_to_list (hooks d)))), d).

(** [DELETE FROM hooks WHERE id = ? AND api_key = ?]; the events of a
    deleted hook go with it (ON DELETE CASCADE).  The result is
    [changes]. *)
Definition deleteHook (id key : jsstring) (t : Z) (d : db) : outcome Z * db :=
  match hooks d !! id with
  | Some h =>
      if bool_decide (api_key h = key)
      then (Ok 1, mkDb (delete id (hooks d))
                       (filter (fun r => hook_id (snd r) ≠ id) (events d)))
      else (Ok 0, d)
  | None => (Ok 0, d)
  end.

(** [UPDATE hooks SET last_triggered_at = datetime('now'),
    event_count = event_count + 1 WHERE id = ?] *)
Definition updateHookTrigger (id : jsstring) (t : Z) (d : db) : outcome unit * db :=
  (Ok tt, mkDb (alter (trigger t) id (hooks d)) (events d)).

(** [INSERT INTO events (id, hook_id, method, headers, body, query_params,
    source_ip) VALUES (?, ?, ?, ?, ?, ?, ?)]: refused when the id is taken
    or the hook does not exist. *)
Definition createEvent (id hid m hs : jsstring) (b qp ip : option jsstring)
    (t : Z) (d : db) : outcome unit * db :=
  match events d !! id, hooks d !! hid with
  | None, Some _ =>
      (Ok tt, mkDb (hooks d) (<[id := mkEvent hid m hs b qp ip t None]> (events d)))
  | _, _ => (Throw, d)
  end.

(** [SELECT * FROM events WHERE hook_id = ? ORDER BY received_at DESC
    LIMIT ?] *)
Definition getEvents (hid : jsstring) (limit : option Z) (t : Z) (d : db)
    : outcome (list (jsstring * Event)) * db :=
  (sql_limit limit
     (merge_sort newer
        (filter (fun r => hook_id (snd r) = hid) (map_to_list (events d)))), d).

(** [SELECT * FROM events WHERE hook_id = ? AND delivered_at IS NULL
    ORDER BY received_at ASC LIMIT ?] *)
Definition getUndeliveredEvents (hid : jsstring) (limit : option Z) (t : Z) (d : db)
    : outcome (list (jsstring * Event)) * db :=
  (sql_limit limit
     (merge_sort older
        (filter (fun r => hook_id (snd r) = hid ∧ delivered_at (snd r) = None)
                (map_to_list (events d)))), d).

(** [UPDATE events SET delivered_at = datetime('now') WHERE id = ?] *)
Definition markEventsDelivered (id : jsstring) (t : Z) (d : db) : outcome unit * db :=
  (Ok tt, mkDb (hooks d) (alter (set_delivered_at (Some t)) id (events d))).

(** [DELETE FROM events WHERE received_at < datetime('now', '-7 days')];
    the result is [changes]. *)
Definition deleteOldEvents (t : Z) (d : db) : outcome Z * db :=
  let keep := filter (fun r => ¬ received_at (snd r) < t - 7 * 86400) (events d) in
  (Ok (Z.of_nat (size (events d)) - Z.of_nat (size keep)), mkDb (hooks d) keep).

End Db.

(** ** The world a handler runs in *)

(** [TokenValidation] of [auth.ts]. *)
Record TokenValidation := mkValidation {
  valid : bool;
  user_id : option jsstring;
  email : option jsstring;
  credits : option Z;
  error : option jsstring
}.

(** [AuthContext] of [auth.ts]. *)
Record AuthContext := mkAuth {
  token : jsstring;
  userId : option jsstring;
  auth_email : option jsstring;
  auth_credits : Z
}.

(** What the program writes with [console.log] and [console.error]. *)
Inductive log_entry : Type :=
  | NostrDelivery (eventId : jsstring) (pubkey : option json)
  | EmailDelivery (eventId : jsstring) (address : option json)
  | WebhookProcessingError
  | FailedToDeliverEvent (eventId : jsstring)
  | KeyKeeperVerificationError
  | FailedToGetHook
  | FailedToDeleteHook
  | FailedToGetEvents.

(** The parts of the platform the program calls and does not define:
    [JSON.parse] ([None] when it throws), the HTTP call to the credential
    authority, which gives the parsed answer or fails, together with the
    clock reading once it has returned, and the [PUBLIC_URL] variable. *)
Class Platform := {
  JSON_parse : jsstring -> option json;
  fetch_verify : jsstring -> jsstring -> Z -> outcome TokenValidation * Z;
  PUBLIC_URL : option jsstring
}.

(** [tokenCache] maps a token to its result and expiry; [now] is the clock in
    milliseconds; [faults] says, for each coming statement of the store in
    turn, whether the engine fails it ([true]); [fetches] records the calls
    made to the authority. *)
Record world := mkWorld {
  store : Db.db;
  tokenCache : gmap jsstring (TokenValidation * Z);
  now : Z;
  faults : list bool;
  console : list log_entry;
  fetches : list (jsstring * jsstring)
}.

Definition set_store (d : Db.db) (w : world) : world :=
  mkWorld d (tokenCache w) (now w) (faults w) (console w) (fetches w).
Definition set_faults (f : list bool) (w : world) : world :=
  mkWorld (store w) (tokenCache w) (now w) f (console w) (fetches w).
Definition set_now (t : Z) (w : world) : world :=
  mkWorld (store w) (tokenCache w) t (faults w) (console w) (fetches w).
Definition set_tokenCache (c : gmap jsstring (TokenValidation * Z)) (w : world) : world :=
  mkWorld (store w) c (now w) (faults w) (console w) (fetches w).

(** [Date.now()] *)
Definition Date_now (w : world) : Z := now w.

(** [datetime('now')]: whole seconds. *)
Definition datetime_now (w : world) : Z := now w / 1000.

(** Computations that read and change the world and may throw. *)
Definition M (A : Type) : Type := world -> outcome A * world.

Definition ret {A} (a : A) : M A := fun w => (Ok a, w).

Definition bind {A B} (m : M A) (k : A -> M B) : M B :=
  fun w =>
    match m w with
    | (Ok a, w') => k a w'
    | (Throw, w') => (Throw, w')
    end.

Definition throw {A} : M A := fun w => (Throw, w).

(** [try { m } catch { h }] *)
Definition try_catch {A} (m h : M A) : M A :=
  fun w =>
    match m w with
    | (Ok a, w') => (Ok a, w')
    | (Throw, w') => h w'
    end.

Notation "'let*' x ':=' m 'in' k" := (bind m (fun x => k))
  (at level 10, x name, m at level 100, k at level 200).
Notation "m ;; k" := (bind m (fun _ => k))
  (at level 100, k at level 200, right associativity).

(** [console.log] and [console.error] *)
Definition log (e : log_entry) : M unit :=
  fun w => (Ok tt, mkWorld (store w) (tokenCache w) (now w) (faults w)
                           (console w ++ [e]) (fetches w)).

(** Running a prepared statement: the engine may fail it; otherwise it acts
    on the store as [Db] says. *)
Definition run {A} (sem : Z -> Db.db -> outcome A * Db.db) : M A :=
  fun w =>
    match faults w with
    | true :: fs => (Throw, set_faults fs w)
    | _ =>
        let '(r, d) := sem (datetime_now w) (store w) in
        (r, set_faults (tail (faults w)) (set_store d w))
    end.

(** [for (const x of l) { f(x) }] *)
Fixpoint for_of {A} (l : list A) (f : A -> M unit) : M unit :=
  match l with
  | [] => ret tt
  | x :: r => f x ;; for_of r f
  end.

(** [l.map(f)] where [f] may throw. *)
Fixpoint map_throw {A B} (f : A -> outcome B) (l : list A) : outcome (list B) :=
  match l with
  | [] => Ok []
  | x :: r =>
      match f x with
      | Ok y => match map_throw f r with Ok ys => Ok (y :: ys) | Throw => Throw end
      | Throw => Throw
      end
  end.

Definition lift {A} (o : outcome A) : M A := fun w => (o, w).

(** ** The [Headers] object of a request *)

Module Headers.

(** The object holds the header list of the request: the names as they
    were sent, which are HTTP tokens and so ASCII, and the values without
    leading or trailing white space.  Names compare without regard to ASCII
    case. *)

(** The values of the headers of a name, in the order of the list. *)
Fixpoint values (nm : jsstring) (l : list (jsstring * jsstring)) : list jsstring :=
  match l with
  | [] => []
  | (k, v) :: r =>
      if eqb (toLowerCase k) (toLowerCase nm) then v :: values nm r
      else values nm r
  end.

(** [l.join(sep)] *)
Fixpoint join (sep : jsstring) (l : list jsstring) : jsstring :=
  match l with
  | [] => []
  | [x] => x
  | x :: r => x ++ sep ++ join sep r
  end.

(** [headers.get(name)]: the values of the name joined by a comma and a
    space, [null] when the list has no header of that name. *)
Definition get (nm : jsstring) (l : list (jsstring * jsstring)) : option jsstring :=
  match values nm l with
  | [] => None
  | vs => Some (join (js ", ") vs)
  end.

(** [a] is code-unit less than [b]. *)
Fixpoint code_unit_less (a b : jsstring) : bool :=
  match a, b with
  | _, [] => false
  | [], _ :: _ => true
  | x :: a', y :: b' => (x <? y)%N || ((x =? y)%N && code_unit_less a' b')
  end.

(** Adding a name to a sorted list of names without repeats. *)
Fixpoint add_name (nm : jsstring) (names : list jsstring) : list jsstring :=
  match names with
  | [] => [nm]
  | x :: r =>
      if eqb x nm then names
      else if code_unit_less nm x then nm :: names
      else x :: add_name nm r
  end.

(** The lower-cased names of the list, sorted, each once. *)
Definition names (l : list (jsstring * jsstring)) : list jsstring :=
  fold_right (fun kv acc => add_name (toLowerCase (fst kv)) acc) [] l.

(** What iterating the object visits ([forEach], [entries]), the "sort and
    combine" of the Fetch standard: the lower-cased names in sorted order,
    each with its values combined as [get] does, except [set-cookie], whose
    values are visited one by one. *)
Definition entries (l : list (jsstring * jsstring)) : list (jsstring * jsstring) :=
  flat_map
    (fun nm =>
       if eqb nm (js "set-cookie") then map (fun v => (nm, v)) (values nm l)
       else match get nm l with
            | Some v => [(nm, v)]
            | None => []
            end)
    (names l).

End Headers.

(** A response made by [c.json(body, status)]. *)
Record response := mkResponse { status : Z; payload : json }.

Definition c_json (fields : list (jsstring * json)) (st : Z) : response :=
  mkResponse st (JObj fields).

(** An inbound request: method, the header list of its [Headers] object,
    the name-value pairs of its query string as [URLSearchParams] holds them
    (decoded, in the order of the URL) and the bytes of the body, or [Throw]
    when reading the body fails. *)
Record request := mkRequest {
  req_method : jsstring;
  req_headers : list (jsstring * jsstring);
  req_query : list (jsstring * jsstring);
  req_body : outcome (list byte)
}.

(** [c.req.header(name)], which is [c.req.raw.headers.get(name)]. *)
Definition req_header (nm : jsstring) (r : request) : option jsstring :=
  Headers.get nm (req_headers r).

(** [c.req.query(key)]: the first value of the key. *)
Definition req_query_get (k : jsstring) (r : request) : option jsstring :=
  snd <$> find (fun kv => eqb (fst kv) k) (req_query r).

Definition opt_json (o : option jsstring) : json :=
  match o with Some s => JStr s | None => JNull end.

Definition opt_time (o : option Z) : json :=
  match o with Some t => JNum t | None => JNull end.

(** ** The public receiver ([routes/webhook.ts]) *)

Module Webhook.

(** Headers to exclude from storage. *)
Definition EXCLUDED_HEADERS : list jsstring :=
  [js "cookie"; js "authorization"; js "x-forwarded-for"; js "x-real-ip";
   js "cf-connecting-ip"].

(** Maximum body size to store. *)
Definition MAX_BODY_SIZE : Z := 100 * 1024.

(** The object stored in place of a body that is too long. *)
Definition truncation_marker (rawBody : jsstring) : json :=
  JObj [(js "_truncated", JBool true);
        (js "_original_size", JNum (str_length rawBody));
        (js "_preview", JStr (substring0 1000 rawBody))].

(** The [headers] object: what iterating the request's headers visits,
    but for the excluded names. *)
Definition collect_headers (r : request) : list (jsstring * jsstring) :=
  fold_left
    (fun acc kv =>
       if bool_decide (toLowerCase (fst kv) ∈ EXCLUDED_HEADERS) then acc
       else assign (fst kv) (snd kv) acc)
    (Headers.entries (req_headers r)) [].

(** The [queryParams] object. *)
Definition collect_query (r : request) : list (jsstring * jsstring) :=
  fold_left (fun acc kv => assign (fst kv) (snd kv) acc) (req_query r) [].

(** The [body] that is stored: the text of the request body for POST, PUT
    and PATCH, the truncation marker when that text is longer than
    [MAX_BODY_SIZE], [null] when there is no body to read or reading
    fails. *)
Definition stored_body (r : request) : option jsstring :=
  if bool_decide (req_method r ∈ [js "POST"; js "PUT"; js "PATCH"]) then
    match req_body r with
    | Ok bytes =>
        let rawBody := Utf8.text bytes in
        if str_length rawBody <=? MAX_BODY_SIZE then Some rawBody
        else Some (JSON_stringify (truncation_marker rawBody))
    | Throw => None
    end
  else None.

(** The source IP: the first entry of [x-forwarded-for], else [x-real-ip],
    else [cf-connecting-ip], else [null]. *)
Definition source_ip_of (r : request) : option jsstring :=
  let first := (fun v => trim (before_comma v)) <$> req_header (js "x-forwarded-for") r in
  match or_else (or_else first (req_header (js "x-real-ip") r))
                (req_header (js "cf-connecting-ip") r) with
  | Some (c :: s) => Some (c :: s)
  | _ => None
  end.

Section WithPlatform.
Context `{Platform}.

(** The [switch (hook.delivery_method)] of [deliverEvent]: both channels
    only log; reading a property of a [null] configuration throws. *)
Definition dispatch (hook : Db.Hook) (eventId : jsstring) (config : json) : M unit :=
  if eqb (Db.delivery_method hook) (js "nostr") then
    match config with
    | JNull => throw
    | _ => log (NostrDelivery eventId (field (js "nostr_pubkey") config))
    end
  else if eqb (Db.delivery_method hook) (js "email") then
    match config with
    | JNull => throw
    | _ => log (EmailDelivery eventId (field (js "email") config))
    end
  else ret tt.

(** [deliverEvent]: the placeholder for Nostr and email delivery. *)
Definition deliverEvent (hook : Db.Hook) (eventId : jsstring) : M unit :=
  match Db.delivery_config hook with
  | Some (c :: cs) =>
      try_catch
        (let* config :=
           lift (match JSON_parse (c :: cs) with Some v => Ok v | None => Throw end) in
         dispatch hook eventId config ;;
         run (Db.markEventsDelivered eventId))
        (log (FailedToDeliverEvent eventId))
  | _ => ret tt
  end.

(** [webhook.all('/:id')]; [eventId] is what [nanoid(16)] draws. *)
Definition webhook_all (eventId hookId : jsstring) (r : request) : M response :=
  try_catch
    (let* hook := run (Db.getHook hookId) in
     match hook with
     | None => ret (c_json [(js "received", JBool true)] 200)
     | Some hook =>
         let headers := collect_headers r in
         let queryParams := collect_query r in
         let body := stored_body r in
         let sourceIp := source_ip_of r in
         run (Db.createEvent eventId hookId (req_method r)
                (JSON_stringify (of_record headers)) body
                (match queryParams with
                 | [] => None
                 | _ => Some (JSON_stringify (of_record queryParams))
                 end)
                sourceIp) ;;
         run (Db.updateHookTrigger hookId) ;;
         (if negb (eqb (Db.delivery_method hook) (js "poll"))
             && truthy (Db.delivery_config hook)
          then deliverEvent hook eventId
          else ret tt) ;;
         ret (c_json [(js "received", JBool true); (js "event_id", JStr eventId)] 200)
     end)
    (log WebhookProcessingError ;;
     ret (c_json [(js "received", JBool true)] 200)).

End WithPlatform.

End Webhook.

(** ** Token verification ([auth.ts]) *)

Module Auth.

(** Token cache time to live, in milliseconds. *)
Definition TOKEN_CACHE_TTL : Z := 60000.

Definition no_token : TokenValidation :=
  mkValidation false None None None (Some (js "No token provided")).

Definition service_unavailable : TokenValidation :=
  mkValidation false None None None (Some (js "Authentication service unavailable")).

Section WithPlatform.
Context `{Platform}.

(** The HTTP call to the authority and the parsing of its answer: the call
    is recorded, the clock moves to the time the answer is there. *)
Definition fetch (tok operation : jsstring) : M TokenValidation :=
  fun w =>
    let '(r, t) := fetch_verify tok operation (now w) in
    (r, mkWorld (store w) (tokenCache w) t (faults w) (console w)
                (fetches w ++ [(tok, operation)])).

(** The [try] block of [verifyToken]: ask the authority, cache a
    successful verification, and answer [service_unavailable] when the call
    or the parsing of its answer throws. *)
Definition verify_uncached (tok operation : jsstring) : M TokenValidation :=
  try_catch
    (let* data := fetch tok operation in
     (if valid data
      then fun w => (Ok tt, set_tokenCache
                       (<[tok := (data, Date_now w + TOKEN_CACHE_TTL)]> (tokenCache w)) w)
      else ret tt) ;;
     ret data)
    (log KeyKeeperVerificationError ;; ret service_unavailable).

(** [verifyToken(token, operation)] *)
Definition verifyToken (tok operation : jsstring) : M TokenValidation :=
  match tok with
  | [] => ret no_token
  | _ :: _ =>
      fun w =>
        match tokenCache w !! tok with
        | Some (result, expires) =>
            if Date_now w <? expires then (Ok result, w)
            else verify_uncached tok operation w
        | None => verify_uncached tok operation w
        end
  end.

(** [authMiddleware]; [next] is the route handler, given the auth context
    that the middleware stores for it. *)
Definition authMiddleware (r : request) (next : AuthContext -> M response) : M response :=
  match req_header (js "Authorization") r with
  | Some authHeader =>
      if truthy (Some authHeader) && startsWith (js "Bearer ") authHeader then
        let tok := skipn 7 authHeader in
        if negb (truthy (Some tok)) then
          ret (c_json [(js "error", JStr (js "API token required"))] 401)
        else
          let* validation := verifyToken tok (js "webhook_access") in
          if negb (valid validation) then
            ret (c_json [(js "error",
                          JStr (default (js "Invalid token")
                                  (or_else (error validation) (Some (js "Invalid token")))))]
                        401)
          else
            next (mkAuth tok (user_id validation) (email validation)
                         (default 0 (credits validation)))
      else ret (c_json [(js "error", JStr (js "Missing or invalid Authorization header"))] 401)
  | None => ret (c_json [(js "error", JStr (js "Missing or invalid Authorization header"))] 401)
  end.

End WithPlatform.

End Auth.

(** ** The authenticated routes ([routes/hooks.ts]) *)

Module Hooks.

Section WithPlatform.
Context `{Platform}.

Definition publicUrl : jsstring :=
  default (js "https://api.klawhook.xyz")
          (or_else PUBLIC_URL (Some (js "https://api.klawhook.xyz"))).

(** [JSON.parse(s)], throwing as [JSON.parse] does. *)
Definition parse_or_throw (s : jsstring) : outcome json :=
  match JSON_parse s with Some v => Ok v | None => Throw end.

(** [tryParseJson] *)
Definition tryParseJson (str : jsstring) : json :=
  match JSON_parse str with Some v => v | None => JStr str end.

(** [hooks.get('/:id')] *)
Definition get_hook (auth : AuthContext) (hookId : jsstring) : M response :=
  try_catch
    (let* hook := run (Db.getHook hookId) in
     match hook with
     | None => ret (c_json [(js "error", JStr (js "Webhook not found"))] 404)
     | Some hook =>
         if negb (eqb (Db.api_key hook) (token auth)) then
           ret (c_json [(js "error", JStr (js "Unauthorized"))] 403)
         else
           let* config :=
             lift (match Db.delivery_config hook with
                   | Some (c :: cs) => parse_or_throw (c :: cs)
                   | _ => Ok JNull
                   end) in
           ret (c_json
                  [(js "id", JStr hookId);
                   (js "webhook_url", JStr (publicUrl ++ js "/webhook/" ++ hookId));
                   (js "name", opt_json (Db.name hook));
                   (js "description", opt_json (Db.description hook));
                   (js "delivery_method", JStr (Db.delivery_method hook));
                   (js "delivery_config", config);
                   (js "created_at", JNum (Db.created_at hook));
                   (js "last_triggered_at", opt_time (Db.last_triggered_at hook));
                   (js "event_count", JNum (Db.event_count hook))]
                  200)
     end)
    (log FailedToGetHook ;;
     ret (c_json [(js "error", JStr (js "Failed to get webhook"))] 500)).

(** [hooks.delete('/:id')] *)
Definition delete_hook (auth : AuthContext) (hookId : jsstring) : M response :=
  try_catch
    (let* changes := run (Db.deleteHook hookId (token auth)) in
     if changes =? 0 then
       ret (c_json [(js "error", JStr (js "Webhook not found or unauthorized"))] 404)
     else
       ret (c_json [(js "success", JBool true);
                    (js "message", JStr (js "Webhook deleted"))] 200))
    (log FailedToDeleteHook ;;
     ret (c_json [(js "error", JStr (js "Failed to delete webhook"))] 500)).

(** One element of the [events] array of the poll response. *)
Definition event_json (ev : jsstring * Db.Event) : outcome json :=
  let '(id, event) := ev in
  match parse_or_throw (Db.headers event) with
  | Ok hs =>
      match (match Db.query_params event with
             | Some (c :: cs) => parse_or_throw (c :: cs)
             | _ => Ok JNull
             end) with
      | Ok qp =>
          Ok (JObj [(js "id", JStr id);
                    (js "method", JStr (Db.method event));
                    (js "headers", hs);
                    (js "body", match Db.body event with
                                | Some (c :: cs) => tryParseJson (c :: cs)
                                | _ => JNull
                                end);
                    (js "query_params", qp);
                    (js "source_ip", opt_json (Db.source_ip event));
                    (js "received_at", JNum (Db.received_at event));
                    (js "delivered_at", opt_time (Db.delivered_at event))])
      | Throw => Throw
      end
  | Throw => Throw
  end.

(** The three query parameters of the poll route. *)
Definition limit_of (r : request) : option Z :=
  Math_min (parseInt (default (js "50")
                        (or_else (req_query_get (js "limit") r) (Some (js "50"))))) 100.
Definition undeliveredOnly_of (r : request) : bool :=
  bool_decide (req_query_get (js "undelivered") r = Some (js "true")).
Definition markDelivered_of (r : request) : bool :=
  negb (bool_decide (req_query_get (js "mark_delivered") r = Some (js "false"))).

(** [events.length === limit] *)
Definition length_is (n : nat) (limit : option Z) : bool :=
  match limit with
  | Some l => Z.of_nat n =? l
  | None => false
  end.

(** The loop that marks the returned events as delivered: only events that
    were read with no delivery time are marked. *)
Definition mark_loop_of (events : list (jsstring * Db.Event)) : M unit :=
  for_of events
    (fun event =>
       match Db.delivered_at (snd event) with
       | None => run (Db.markEventsDelivered (fst event))
       | Some _ => ret tt
       end).

(** [hooks.get('/:id/events')] *)
Definition get_events (auth : AuthContext) (hookId : jsstring) (r : request) : M response :=
  let limit := limit_of r in
  let undeliveredOnly := undeliveredOnly_of r in
  let markDelivered := markDelivered_of r in
  try_catch
    (let* hook := run (Db.getHook hookId) in
     match hook with
     | None => ret (c_json [(js "error", JStr (js "Webhook not found"))] 404)
     | Some hook =>
         if negb (eqb (Db.api_key hook) (token auth)) then
           ret (c_json [(js "error", JStr (js "Unauthorized"))] 403)
         else
           let* events :=
             (if undeliveredOnly
              then run (Db.getUndeliveredEvents hookId limit)
              else run (Db.getEvents hookId limit)) in
           (if markDelivered && negb (bool_decide (events = []))
            then mark_loop_of events
            else ret tt) ;;
           let* items := lift (map_throw event_json events) in
           ret (c_json [(js "events", JArr items);
                        (js "count", JNum (Z.of_nat (length events)));
                        (js "has_more", JBool (length_is (length events) limit))]
                       200)
     end)
    (log FailedToGetEvents ;;
     ret (c_json [(js "error", JStr (js "Failed to get events"))] 500)).

(** A route behind [hooks.use('*', authMiddleware)]. *)
Definition GET_hook (hookId : jsstring) (r : request) : M response :=
  Auth.authMiddleware r (fun auth => get_hook auth hookId).
Definition DELETE_hook (hookId : jsstring) (r : request) : M response :=
  Auth.authMiddleware r (fun auth => delete_hook auth hookId).
Definition GET_events (hookId : jsstring) (r : request) : M response :=
  Auth.authMiddleware r (fun auth => get_events auth hookId r).

End WithPlatform.

End Hooks.

(** ** Creating and listing hooks ([routes/hooks.ts]) *)

Module Registry.

(** What these two handlers write with [console.error]. *)
Inductive registry_log : Type :=
  | FailedToCreateHook
  | FailedToListHooks.

(** The body of [POST /hooks] after the cast to its declared type: every
    field is optional, and [delivery_config] is an object. *)
Record CreateBody := mkCreateBody {
  body_name : option jsstring;
  body_description : option jsstring;
  body_delivery_method : option jsstring;
  body_delivery_config : option (list (jsstring * json))
}.

(** The empty object that stands for a body [c.req.json()] cannot read. *)
Definition empty_body : CreateBody := mkCreateBody None None None None.

(** [x || null] *)
Definition or_null (o : option jsstring) : option jsstring :=
  if truthy o then o else None.

Section WithPlatform.
Context `{Platform}.

(** [hooks.post('/')]; [hookId] is what [nanoid(12)] draws, [parsed] is the
    result of [c.req.json()].  The answer comes with what is written to the
    console.  The ISO text of [created_at] in the answer is the clock reading
    in milliseconds it denotes. *)
Definition create_hook (auth : AuthContext) (hookId : jsstring)
    (parsed : outcome CreateBody) : M (response * list registry_log) :=
  let body := match parsed with Ok b => b | Throw => empty_body end in
  let deliveryMethod :=
    default (js "poll") (or_else (body_delivery_method body) (Some (js "poll"))) in
  let deliveryConfig :=
    match body_delivery_config body with
    | Some fields => Some (JSON_stringify (JObj fields))
    | None => None
    end in
  try_catch
    (run (Db.createHook hookId (token auth) (or_null (body_name body))
            (or_null (body_description body)) deliveryMethod deliveryConfig) ;;
     fun w =>
       (Ok (c_json
              [(js "id", JStr hookId);
               (js "webhook_url", JStr (Hooks.publicUrl ++ js "/webhook/" ++ hookId));
               (js "name", opt_json (or_null (body_name body)));
               (js "description", opt_json (or_null (body_description body)));
               (js "delivery_method", JStr deliveryMethod);
               (js "created_at", JNum (Date_now w))]
              201, []), w))
    (ret (c_json [(js "error", JStr (js "Failed to create webhook endpoint"))] 500,
          [FailedToCreateHook])).

(** One element of the [hooks] array of the list. *)
Definition hook_json (row : jsstring * Db.Hook) : json :=
  let '(id, hook) := row in
  JObj [(js "id", JStr id);
        (js "webhook_url", JStr (Hooks.publicUrl ++ js "/webhook/" ++ id));
        (js "name", opt_json (Db.name hook));
        (js "description", opt_json (Db.description hook));
        (js "delivery_method", JStr (Db.delivery_method hook));
        (js "created_at", JNum (Db.created_at hook));
        (js "last_triggered_at", opt_time (Db.last_triggered_at hook));
        (js "event_count", JNum (Db.event_count hook))].

(** [hooks.get('/')] *)
Definition list_hooks (auth : AuthContext) : M (response * list registry_log) :=
  try_catch
    (let* hooksList := run (Db.getHooksByApiKey (token auth)) in
     ret (c_json [(js "hooks", JArr (map hook_json hooksList))] 200, []))
    (ret (c_json [(js "error", JStr (js "Failed to list webhooks"))] 500,
          [FailedToListHooks])).

End WithPlatform.

End Registry.

(** ** The retention sweep ([db.ts], [index.ts]) *)

Module Reaper.

(** What the sweep writes with [console.log]. *)
Inductive reaper_log : Type :=
  | CleanedUp (deleted : Z).

(** [cleanupOldEvents]: the number of events deleted. *)
Definition cleanupOldEvents : M Z := run Db.deleteOldEvents.

(** The function that [setInterval] calls every hour; it gives what it
    writes to the console. *)
Definition sweep : M (list reaper_log) :=
  let* deleted := cleanupOldEvents in
  ret (if deleted >? 0 then [CleanedUp deleted] else []).

End Reaper.


(** * Properties *)

(** ** Reasoning about handlers *)

(** [wp m Q w]: run from [w], [m] ends with an outcome and a world that
    satisfy [Q]. *)
Definition wp {A} (m : M A) (Q : outcome A -> world -> Prop) (w : world) : Prop :=
  Q (m w).1 (m w).2.

(** The engine fails none of the next [n] statements. *)
Definition store_ok (n : nat) (w : world) : Prop :=
  forall i, (i < n)%nat -> faults w !! i ≠ Some true.

Lemma wp_ret {A} (a : A) Q w : Q (Ok a) w -> wp (ret a) Q w.
Proof. done. Qed.

Lemma wp_throw {A} (Q : outcome A -> world -> Prop) w : Q Throw w -> wp throw Q w.
Proof. done. Qed.

Lemma wp_lift {A} (o : outcome A) Q w : Q o w -> wp (lift o) Q w.
Proof. done. Qed.

Lemma wp_bind {A B} (m : M A) (k : A -> M B) Q w :
  wp m (fun o w' => match o with Ok a => wp (k a) Q w' | Throw => Q Throw w' end) w ->
  wp (bind m k) Q w.
Proof. unfold wp, bind. by destruct (m w) as [[a|] w']. Qed.

Lemma wp_try_catch {A} (m h : M A) Q w :
  wp m (fun o w' => match o with Ok a => Q (Ok a) w' | Throw => wp h Q w' end) w ->
  wp (try_catch m h) Q w.
Proof. unfold wp, try_catch. by destruct (m w) as [[a|] w']. Qed.

Lemma wp_log e Q w :
  Q (Ok tt) (mkWorld (store w) (tokenCache w) (now w) (faults w)
                     (console w ++ [e]) (fetches w)) ->
  wp (log e) Q w.
Proof. done. Qed.

Lemma wp_mono {A} (m : M A) (Q Q' : outcome A -> world -> Prop) w :
  (forall o w', Q o w' -> Q' o w') -> wp m Q w -> wp m Q' w.
Proof. unfold wp. auto. Qed.

(** A statement under any behaviour of the engine. *)
Lemma wp_run {A} (sem : Z -> Db.db -> outcome A * Db.db) Q w :
  (forall fs, Q Throw (set_faults fs w)) ->
  (forall fs, Q (sem (datetime_now w) (store w)).1
                (set_faults fs (set_store (sem (datetime_now w) (store w)).2 w))) ->
  wp (run sem) Q w.
Proof.
  intros Hf Hs. unfold wp, run.
  destruct (faults w) as [|[] fs]; simpl;
    try apply Hf; destruct (sem _ _); apply Hs.
Qed.

(** A statement the engine does not fail. *)
Lemma run_ok {A} (sem : Z -> Db.db -> outcome A * Db.db) n w :
  store_ok (S n) w ->
  run sem w = ((sem (datetime_now w) (store w)).1,
               set_faults (tail (faults w))
                          (set_store (sem (datetime_now w) (store w)).2 w)).
Proof.
  intros Hok. unfold run.
  destruct (faults w) as [|[] fs] eqn:Hfs; simpl; try by destruct (sem _ _).
  exfalso. apply (Hok 0%nat); [lia|]. by rewrite Hfs.
Qed.

Lemma store_ok_tail n w d :
  store_ok (S n) w -> store_ok n (set_faults (tail (faults w)) (set_store d w)).
Proof.
  intros Hok i Hi. simpl. specialize (Hok (S i) ltac:(lia)).
  destruct (faults w); simpl in *; [by rewrite lookup_nil|done].
Qed.

Lemma store_ok_nil n w : faults w = [] -> store_ok n w.
Proof. intros Hf i _. by rewrite Hf, lookup_nil. Qed.

(** What a handler leaves alone outside the store and the console. *)
Definition frame (w w' : world) : Prop :=
  now w' = now w /\ tokenCache w' = tokenCache w /\ fetches w' = fetches w /\
  (faults w = [] -> faults w' = []).

Lemma frame_refl w : frame w w.
Proof. by repeat split. Qed.

Lemma frame_trans w1 w2 w3 : frame w1 w2 -> frame w2 w3 -> frame w1 w3.
Proof.
  intros (?&?&?&?) (?&?&?&?). repeat split; try congruence. auto.
Qed.

Lemma frame_set_faults_tail w d :
  frame w (set_faults (tail (faults w)) (set_store d w)).
Proof. repeat split. simpl. by intros ->. Qed.

Lemma frame_log w e :
  frame w (mkWorld (store w) (tokenCache w) (now w) (faults w)
                   (console w ++ [e]) (fetches w)).
Proof. by repeat split. Qed.

Lemma datetime_now_frame w w' : frame w w' -> datetime_now w' = datetime_now w.
Proof. intros (Hn & _). unfold datetime_now. by rewrite Hn. Qed.

Lemma wp_run_ok {A} (sem : Z -> Db.db -> outcome A * Db.db) n Q w :
  store_ok (S n) w ->
  (forall w', store w' = (sem (datetime_now w) (store w)).2 ->
              frame w w' -> console w' = console w -> store_ok n w' ->
              Q (sem (datetime_now w) (store w)).1 w') ->
  wp (run sem) Q w.
Proof.
  intros Hok HQ. unfold wp. rewrite (run_ok _ n) by done. simpl.
  apply HQ; try done; [apply frame_set_faults_tail|by apply store_ok_tail].
Qed.

Lemma wp_pair {A} (m : M A) Q w :
  wp m Q w -> exists o w', m w = (o, w') /\ Q o w'.
Proof. unfold wp. destruct (m w) as [o w']. eauto. Qed.


Section Properties.
Context `{Platform}.

Import Webhook.

(** ** The event store *)

Definition delivered_of (id : jsstring) (w : world) : option (option Z) :=
  Db.delivered_at <$> Db.events (store w) !! id.

(** A statement run in any world: either the engine fails it and only the
    fault plan moves, or it acts as [Db] says. *)
Lemma run_cases {A} (sem : Z -> Db.db -> outcome A * Db.db) w :
  (exists fs, faults w = true :: fs /\ run sem w = (Throw, set_faults fs w)) \/
  (faults w !! 0%nat ≠ Some true /\
   run sem w = ((sem (datetime_now w) (store w)).1,
                set_faults (tail (faults w))
                           (set_store (sem (datetime_now w) (store w)).2 w))).
Proof.
  unfold run. destruct (faults w) as [|[] fs]; simpl.
  - right. split; [done|]. by destruct (sem _ _).
  - left. by exists fs.
  - right. split; [done|]. by destruct (sem _ _).
Qed.

Lemma deliverEvent_spec hook eventId w :
  exists w', deliverEvent hook eventId w = (Ok tt, w') /\ frame w w' /\
    Db.hooks (store w') = Db.hooks (store w) /\
    (Db.events (store w') = Db.events (store w) \/
     Db.events (store w') =
       alter (Db.set_delivered_at (Some (datetime_now w))) eventId (Db.events (store w))).
Proof.
  unfold deliverEvent, dispatch.
  destruct (Db.delivery_config hook) as [[|c cs]|];
    try (eexists; split; [reflexivity|]; split; [apply frame_refl|]; by auto).
  unfold try_catch, bind, lift, throw, log, ret, run, Db.markEventsDelivered.
  destruct w as [d tc t fs cs' fe]. simpl.
  repeat case_match; simplify_eq; simpl;
    (eexists; split; [reflexivity|]; split;
       [repeat split; simpl; try done; intros; simplify_eq; done|]; simpl; auto).
Qed.

(** The receiver always acknowledges; for an unknown hook it stores nothing
    and names no event. *)
Lemma webhook_all_acknowledges eventId hookId r w :
  exists resp w',
    webhook_all eventId hookId r w = (Ok resp, w') /\
    status resp = 200 /\
    field (js "received") (payload resp) = Some (JBool true) /\
    (Db.hooks (store w) !! hookId = None ->
       field (js "event_id") (payload resp) = None /\
       Db.events (store w') = Db.events (store w)).
Proof.
  set (Q := fun (o : outcome response) (w' : world) =>
    exists resp, o = Ok resp /\ status resp = 200 /\
      field (js "received") (payload resp) = Some (JBool true) /\
      (Db.hooks (store w) !! hookId = None ->
         field (js "event_id") (payload resp) = None /\
         Db.events (store w') = Db.events (store w))).
  assert (Hcatch : forall w1, (Db.hooks (store w) !! hookId = None -> store w1 = store w) ->
     wp (log WebhookProcessingError ;;
         ret (c_json [(js "received", JBool true)] 200)) Q w1).
  { intros w1 Hst. apply wp_bind, wp_log, wp_ret. eexists.
    split; [done|]. split; [done|]. split; [done|].
    intros Hn. split; [done|]. simpl. by rewrite (Hst Hn). }
  assert (Hok : forall w1 : world, Db.hooks (store w) !! hookId ≠ None ->
     Q (Ok (c_json [(js "received", JBool true); (js "event_id", JStr eventId)] 200)) w1).
  { intros w1 Hsome. eexists. do 3 (split; [done|]). done. }
  cut (wp (webhook_all eventId hookId r) Q w).
  { intros Hwp. unfold wp, Q in Hwp.
    destruct (webhook_all eventId hookId r w) as [o w'].
    destruct Hwp as (resp & Ho & ?). simpl in Ho. subst o. by exists resp, w'. }
  unfold webhook_all. apply wp_try_catch, wp_bind, wp_run; intros fs.
  { by apply Hcatch. }
  simpl. destruct (Db.hooks (store w) !! hookId) as [hook|] eqn:Hhook.
  2:{ apply wp_ret. eexists. do 3 (split; [done|]). done. }
  apply wp_bind, wp_run; intros fs1; [by apply Hcatch|].
  match goal with |- context [Db.createEvent ?a ?b ?c ?d ?e ?f ?g ?t ?st] =>
    destruct (Db.createEvent a b c d e f g t st) as [[[]|] d1] end;
    simpl; [|by apply Hcatch].
  apply wp_bind, wp_run; intros fs2; [by apply Hcatch|]. simpl.
  apply wp_bind.
  match goal with |- wp ?m _ ?w1 =>
    assert (Hm : exists w2, m w1 = (Ok tt, w2)) end.
  { case_match; [|by eexists].
    match goal with |- context [deliverEvent _ _ ?w1] =>
      destruct (deliverEvent_spec hook eventId w1) as (w2 & Hd & _) end.
    by exists w2. }
  destruct Hm as (w2 & Hm). unfold wp at 1. rewrite Hm. simpl.
  apply wp_ret, Hok. done.
Qed.

(** The row that the receiver writes for a request received at [t]. *)
Definition new_event (hookId : jsstring) (r : request) (t : Z) : Db.Event :=
  Db.mkEvent hookId (req_method r)
    (JSON_stringify (of_record (collect_headers r)))
    (stored_body r)
    (match collect_query r with
     | [] => None
     | _ => Some (JSON_stringify (of_record (collect_query r)))
     end)
    (source_ip_of r) t None.

(** The hook is handed to [deliverEvent]. *)
Definition dispatched (hook : Db.Hook) : bool :=
  negb (eqb (Db.delivery_method hook) (js "poll")) && truthy (Db.delivery_config hook).

(** A known hook, a fresh event id and an engine that does not fail the
    three statements of the store phase: the event is stored and named in
    the answer, whatever happens in the delivery that may follow. *)
Lemma webhook_all_stored eventId hookId r w hook :
  Db.hooks (store w) !! hookId = Some hook ->
  Db.events (store w) !! eventId = None ->
  store_ok 3 w ->
  exists w',
    webhook_all eventId hookId r w =
      (Ok (c_json [(js "received", JBool true); (js "event_id", JStr eventId)] 200), w') /\
    frame w w' /\
    Db.hooks (store w') = alter (Db.trigger (datetime_now w)) hookId (Db.hooks (store w)) /\
    (Db.events (store w') =
       <[eventId := new_event hookId r (datetime_now w)]> (Db.events (store w)) \/
     dispatched hook = true /\
     Db.events (store w') =
       <[eventId := Db.set_delivered_at (Some (datetime_now w))
                      (new_event hookId r (datetime_now w))]> (Db.events (store w))).
Proof.
  intros Hhook Hfresh Hok.
  set (Q := fun (o : outcome response) (w' : world) =>
    o = Ok (c_json [(js "received", JBool true); (js "event_id", JStr eventId)] 200) /\
    frame w w' /\
    Db.hooks (store w') = alter (Db.trigger (datetime_now w)) hookId (Db.hooks (store w)) /\
    (Db.events (store w') =
       <[eventId := new_event hookId r (datetime_now w)]> (Db.events (store w)) \/
     dispatched hook = true /\
     Db.events (store w') =
       <[eventId := Db.set_delivered_at (Some (datetime_now w))
                      (new_event hookId r (datetime_now w))]> (Db.events (store w)))).
  cut (wp (webhook_all eventId hookId r) Q w).
  { intros Hwp. apply wp_pair in Hwp as (o & w' & Heq & Ho & HQ).
    exists w'. by rewrite Heq, Ho. }
  unfold webhook_all. apply wp_try_catch, wp_bind.
  apply (wp_run_ok _ 2); [done|]. intros w1 Hs1 Hf1 _ Hok1. simpl in *.
  rewrite Hhook. apply wp_bind.
  apply (wp_run_ok _ 1); [done|]. intros w2 Hs2 Hf2 _ Hok2.
  unfold Db.createEvent in *. rewrite Hs1, Hfresh, Hhook in *. simpl in *.
  apply wp_bind.
  apply (wp_run_ok _ 0); [done|]. intros w3 Hs3 Hf3 _ _. simpl in *.
  rewrite Hs2 in Hs3. simpl in Hs3.
  rewrite (datetime_now_frame _ _ Hf1) in *.
  rewrite (datetime_now_frame _ _ (frame_trans _ _ _ Hf1 Hf2)) in *.
  assert (Hf03 : frame w w3) by eauto using frame_trans.
  apply wp_bind. fold (dispatched hook).
  destruct (dispatched hook) eqn:Hd.
  - destruct (deliverEvent_spec hook eventId w3) as (w4 & Hrun & Hf4 & Hh4 & He4).
    unfold wp at 1. rewrite Hrun. simpl. apply wp_ret.
    split; [done|]. split; [by eauto using frame_trans|].
    rewrite Hh4, Hs3. simpl. split; [done|].
    rewrite (datetime_now_frame _ _ Hf03) in He4.
    destruct He4 as [-> | ->]; rewrite Hs3; simpl; [by left|right].
    split; [done|]. by rewrite alter_insert_eq.
  - apply wp_ret, wp_ret. split; [done|]. split; [done|].
    rewrite Hs3. simpl. auto.
Qed.


(** C2. Every inbound request to [/webhook/{id}] is answered 200 with
    [received = true], whatever the hook id, the request and the behaviour of
    the engine; when the hook id does not exist no event row is created and
    the answer carries no [event_id]; when the store phase succeeds (known
    hook, fresh event id, the engine fails none of its three statements) the
    answer carries the id of the event and the event is in the store,
    whatever happens in the delivery that may follow. *)
Theorem ingest_always_acknowledges eventId hookId r w :
  exists resp w',
    webhook_all eventId hookId r w = (Ok resp, w') /\
    status resp = 200 /\
    field (js "received") (payload resp) = Some (JBool true) /\
    (Db.hooks (store w) !! hookId = None ->
       field (js "event_id") (payload resp) = None /\
       Db.events (store w') = Db.events (store w)) /\
    (is_Some (Db.hooks (store w) !! hookId) ->
     Db.events (store w) !! eventId = None ->
     store_ok 3 w ->
       field (js "event_id") (payload resp) = Some (JStr eventId) /\
       exists e, Db.events (store w') !! eventId = Some e /\
                 Db.hook_id e = hookId /\ Db.body e = stored_body r).
Proof.
  destruct (webhook_all_acknowledges eventId hookId r w)
    as (resp & w' & Heq & Hst & Hrec & Hunknown).
  exists resp, w'. do 4 (split; [done|]).
  intros [hook Hhook] Hfresh Hok.
  destruct (webhook_all_stored eventId hookId r w hook Hhook Hfresh Hok)
    as (w'' & Heq' & _ & _ & Hev).
  rewrite Heq in Heq'. injection Heq' as -> ->.
  split; [done|].
  destruct Hev as [-> | [_ ->]]; rewrite lookup_insert_eq; eauto.
Qed.

(** C1, as the code has it. [markEventsDelivered] sets [delivered_at] to the
    current time at every call and is repeatable without error: run twice on
    an event, the second run at clock [t2], it leaves [delivered_at] at the
    second of the second call, which is the value set by the first call
    exactly when both calls fall in the same second. *)
Theorem markDelivered_sets_current_time id e w t2 :
  let w1 := (run (Db.markEventsDelivered id) w).2 in
  let w2 := (run (Db.markEventsDelivered id) (set_now t2 w1)).2 in
  faults w = [] ->
  Db.events (store w) !! id = Some e ->
  (run (Db.markEventsDelivered id) w).1 = Ok tt /\
  (run (Db.markEventsDelivered id) (set_now t2 w1)).1 = Ok tt /\
  delivered_of id w1 = Some (Some (now w / 1000)) /\
  delivered_of id w2 = Some (Some (t2 / 1000)) /\
  (delivered_of id w2 = delivered_of id w1 <-> t2 / 1000 = now w / 1000).
Proof.
  intros w1 w2 Hf He. subst w1 w2. unfold run, delivered_of, datetime_now.
  rewrite Hf. simpl.
  do 2 (split; [done|]). rewrite !lookup_alter_eq, He. simpl.
  do 2 (split; [done|]). split; [by intros [= ->]|by intros ->].
Qed.


(** ** Status codes *)

(** The HTTP status a handler answers with. *)
Definition status_of (m : M response) (w : world) : outcome Z :=
  match (m w).1 with
  | Ok resp => Ok (status resp)
  | Throw => Throw
  end.

Lemma eqb_false (a b : jsstring) : a ≠ b -> eqb a b = false.
Proof. intros Hne. unfold eqb. by rewrite bool_decide_eq_false. Qed.

Lemma eqb_refl (a : jsstring) : eqb a a = true.
Proof. unfold eqb. by rewrite bool_decide_eq_true. Qed.

(** ** The credential cache *)

Import Auth.

(** The cached result for a token that is still fresh at the clock of the
    world, if there is one. *)
Definition fresh_entry (tok : jsstring) (w : world) : option TokenValidation :=
  match tokenCache w !! tok with
  | Some (result, expires) => if now w <? expires then Some result else None
  | None => None
  end.

(** The world after a call to the authority that came back at [t]. *)
Definition after_fetch (tok operation : jsstring) (t : Z) (w : world) : world :=
  mkWorld (store w) (tokenCache w) t (faults w) (console w)
          (fetches w ++ [(tok, operation)]).

Lemma verify_uncached_spec tok operation w :
  verify_uncached tok operation w =
    match fetch_verify tok operation (now w) with
    | (Ok data, t) =>
        (Ok data,
         if valid data
         then set_tokenCache (<[tok := (data, t + TOKEN_CACHE_TTL)]> (tokenCache w))
                (after_fetch tok operation t w)
         else after_fetch tok operation t w)
    | (Throw, t) =>
        (Ok service_unavailable,
         mkWorld (store w) (tokenCache w) t (faults w)
                 (console w ++ [KeyKeeperVerificationError])
                 (fetches w ++ [(tok, operation)]))
    end.
Proof.
  unfold verify_uncached, try_catch, bind, fetch, ret, log, after_fetch.
  destruct (fetch_verify tok operation (now w)) as [[data|] t]; [|done].
  by destruct (valid data).
Qed.

Lemma verifyToken_hit tok operation w result :
  tok ≠ [] -> fresh_entry tok w = Some result ->
  verifyToken tok operation w = (Ok result, w).
Proof.
  intros Htok Hfresh. unfold verifyToken, fresh_entry, Date_now in *.
  destruct tok as [|c cs]; [done|].
  destruct (tokenCache w !! (c :: cs)) as [[res e]|]; [|done].
  destruct (now w <? e); by simplify_eq.
Qed.

Lemma verifyToken_miss tok operation w :
  tok ≠ [] -> fresh_entry tok w = None ->
  verifyToken tok operation w = verify_uncached tok operation w.
Proof.
  intros Htok Hfresh. unfold verifyToken, fresh_entry, Date_now in *.
  destruct tok as [|c cs]; [done|].
  destruct (tokenCache w !! (c :: cs)) as [[res e]|]; [|done].
  by destruct (now w <? e).
Qed.

(** [verifyToken] returns a result in every case: it does not throw. *)
Lemma verifyToken_returns tok operation w :
  exists v w', verifyToken tok operation w = (Ok v, w').
Proof.
  destruct tok as [|c cs]; [by eexists _, _|].
  destruct (fresh_entry (c :: cs) w) as [res|] eqn:Hfresh.
  - rewrite (verifyToken_hit _ _ _ res) by done. by eexists _, _.
  - rewrite verifyToken_miss, verify_uncached_spec by done.
    destruct (fetch_verify _ _ _) as [[data|] t]; by eexists _, _.
Qed.

(** [verifyToken] leaves the store and the fault plan alone. *)
Lemma verifyToken_store tok operation w :
  store (verifyToken tok operation w).2 = store w /\
  faults (verifyToken tok operation w).2 = faults w.
Proof.
  destruct tok as [|c cs]; [done|].
  destruct (fresh_entry (c :: cs) w) as [res|] eqn:Hfresh.
  - by rewrite (verifyToken_hit _ _ _ res).
  - rewrite verifyToken_miss, verify_uncached_spec by done.
    destruct (fetch_verify _ _ _) as [[data|] t]; [|done].
    by destruct (valid data).
Qed.


(** Verifications of one token one after the other, the clock reading [t]
    at the start of each. *)
Fixpoint verify_each (tok operation : jsstring) (ts : list Z) (w : world) : world :=
  match ts with
  | [] => w
  | t :: r => verify_each tok operation r (verifyToken tok operation (set_now t w)).2
  end.

(** The authority does not accept the token for the operation, at any
    time: it rejects it or cannot be reached. *)
Definition rejected (tok operation : jsstring) : Prop :=
  forall t, match (fetch_verify tok operation t).1 with
            | Ok data => valid data = false
            | Throw => True
            end.

Lemma verifyToken_rejected tok operation w :
  tok ≠ [] -> fresh_entry tok w = None -> rejected tok operation ->
  tokenCache (verifyToken tok operation w).2 = tokenCache w /\
  fetches (verifyToken tok operation w).2 = fetches w ++ [(tok, operation)].
Proof.
  intros Htok Hfresh Hrej.
  rewrite verifyToken_miss, verify_uncached_spec by done.
  specialize (Hrej (now w)).
  destruct (fetch_verify _ _ _) as [[data|] t]; [|done].
  simpl in Hrej. by rewrite Hrej.
Qed.

Lemma verify_each_rejected tok operation ts w :
  tok ≠ [] -> rejected tok operation ->
  (forall t, t ∈ ts -> fresh_entry tok (set_now t w) = None) ->
  fetches (verify_each tok operation ts w) =
    fetches w ++ repeat (tok, operation) (length ts).
Proof.
  intros Htok Hrej. revert w.
  induction ts as [|t ts IH]; intros w Hstale; simpl.
  - by rewrite app_nil_r.
  - destruct (verifyToken_rejected tok operation (set_now t w))
      as [Hc Hf]; [done|apply Hstale; left|done|].
    rewrite IH.
    + rewrite Hf. simpl. by rewrite <- app_assoc.
    + intros t' Ht'. specialize (Hstale t' ltac:(by right)).
      unfold fresh_entry in *. simpl in *. by rewrite Hc.
Qed.

(** C6. A verification that goes to the authority and comes back with
    [valid = true] is cached: until 60 seconds have passed on the clock since
    then, verifying the token again, for any operation, returns that result
    and leaves the world as it is, so the authority is not called.  A result
    with [valid = false] leaves the cache as it was, and a token that the
    authority does not accept costs one call to the authority at each
    verification. *)
Theorem positive_results_cached_negative_never tok operation operation' w :
  tok ≠ [] ->
  fresh_entry tok w = None ->
  let w1 := (verifyToken tok operation w).2 in
  (forall v, (verifyToken tok operation w).1 = Ok v -> valid v = true ->
     fetches w1 = fetches w ++ [(tok, operation)] /\
     forall w2, tokenCache w2 !! tok = tokenCache w1 !! tok ->
                now w2 < now w1 + TOKEN_CACHE_TTL ->
                verifyToken tok operation' w2 = (Ok v, w2)) /\
  (forall v, (verifyToken tok operation w).1 = Ok v -> valid v = false ->
     tokenCache w1 = tokenCache w /\
     fetches w1 = fetches w ++ [(tok, operation)]) /\
  (rejected tok operation ->
   forall ts, (forall t, t ∈ ts -> fresh_entry tok (set_now t w) = None) ->
     fetches (verify_each tok operation ts w) =
       fetches w ++ repeat (tok, operation) (length ts)).
Proof.
  intros Htok Hfresh w1. subst w1.
  rewrite verifyToken_miss, verify_uncached_spec by done.
  destruct (fetch_verify tok operation (now w)) as [[data|] t] eqn:Hfetch.
  - split; [|split].
    + intros v [= <-] Hvalid. rewrite Hvalid. simpl. split; [done|].
      intros w2 Hcache Hnow. apply verifyToken_hit; [done|].
      unfold fresh_entry. rewrite Hcache, lookup_insert_eq.
      by rewrite (proj2 (Z.ltb_lt _ _) Hnow).
    + intros v [= <-] Hvalid. by rewrite Hvalid.
    + intros Hrej ts Hstale. by apply verify_each_rejected.
  - split; [|split].
    + by intros v [= <-] Hvalid.
    + by intros v [= <-] _.
    + intros Hrej ts Hstale. by apply verify_each_rejected.
Qed.


(** ** The authentication middleware *)

Lemma startsWith_app (p s : jsstring) : startsWith p (p ++ s) = true.
Proof. induction p as [|a p IH]; simpl; [done|]. by rewrite N.eqb_refl. Qed.

Lemma truthy_nonempty (s : jsstring) : s ≠ [] -> truthy (Some s) = true.
Proof. by destruct s. Qed.

(** The middleware on a request that carries [Authorization: Bearer tok]
    with a token that is not empty: the token is verified, and the answer of
    the verification decides. *)
Lemma authMiddleware_bearer r next w tok :
  req_header (js "Authorization") r = Some (js "Bearer " ++ tok) ->
  tok ≠ [] ->
  authMiddleware r next w =
    match verifyToken tok (js "webhook_access") w with
    | (Ok v, w') =>
        if valid v
        then next (mkAuth tok (user_id v) (email v) (default 0 (credits v))) w'
        else (Ok (c_json [(js "error",
                      JStr (default (js "Invalid token")
                              (or_else (error v) (Some (js "Invalid token")))))] 401), w')
    | (Throw, w') => (Throw, w')
    end.
Proof.
  intros Hhdr Htok. unfold authMiddleware. rewrite Hhdr.
  rewrite startsWith_app.
  change (drop 7 (js "Bearer " ++ tok)) with tok.
  rewrite (truthy_nonempty tok) by done.
  change (truthy (Some (js "Bearer " ++ tok))) with true. simpl.
  unfold bind. destruct (verifyToken tok (js "webhook_access") w) as [[v|] w']; [|done].
  by destruct (valid v).
Qed.

(** ** The hook registry *)

(** [delete] never answers 403, in any world. *)
Lemma delete_hook_never_forbidden auth hookId w :
  status_of (Hooks.delete_hook auth hookId) w ≠ Ok 403.
Proof.
  unfold status_of, Hooks.delete_hook, try_catch, bind, ret, log.
  destruct (run_cases (Db.deleteHook hookId (token auth)) w)
    as [(fs & _ & ->) | (_ & ->)]; [done|].
  destruct (Db.deleteHook _ _ _ _) as [[a|] d]; simpl; [destruct (a =? 0)|]; done.
Qed.

(** The handlers on a hook that belongs to someone else. *)
Lemma not_owner_get_delete auth hookId w hook :
  store_ok 1 w ->
  Db.hooks (store w) !! hookId = Some hook ->
  Db.api_key hook ≠ token auth ->
  status_of (Hooks.get_hook auth hookId) w = Ok 403 /\
  status_of (Hooks.delete_hook auth hookId) w = Ok 404 /\
  store (Hooks.delete_hook auth hookId w).2 = store w.
Proof.
  intros Hok Hhook Hne.
  unfold status_of, Hooks.get_hook, Hooks.delete_hook, try_catch, bind.
  rewrite !(run_ok _ 0) by done. simpl.
  unfold Db.deleteHook. rewrite Hhook, (eqb_false _ _ Hne). simpl.
  rewrite bool_decide_eq_false_2 by done. simpl.
  by destruct w.
Qed.

(** C3. For a hook that exists and an authenticated token that is not its
    owner's, [get] answers 403 and [delete] answers 404 and deletes nothing,
    in the handlers and in the routes behind the middleware; [get] on an id
    that does not exist answers 404; and [delete] answers 403 in no case at
    all.  (The engine is taken not to fail the one statement each handler
    runs; when it does, both answer 500.) *)
Theorem get_forbidden_delete_not_found auth hookId w :
  (forall hook,
     store_ok 1 w ->
     Db.hooks (store w) !! hookId = Some hook ->
     Db.api_key hook ≠ token auth ->
     status_of (Hooks.get_hook auth hookId) w = Ok 403 /\
     status_of (Hooks.delete_hook auth hookId) w = Ok 404 /\
     store (Hooks.delete_hook auth hookId w).2 = store w) /\
  (forall hook r tok v w',
     req_header (js "Authorization") r = Some (js "Bearer " ++ tok) ->
     tok ≠ [] ->
     verifyToken tok (js "webhook_access") w = (Ok v, w') ->
     valid v = true ->
     store_ok 1 w ->
     Db.hooks (store w) !! hookId = Some hook ->
     Db.api_key hook ≠ tok ->
     status_of (Hooks.GET_hook hookId r) w = Ok 403 /\
     status_of (Hooks.DELETE_hook hookId r) w = Ok 404) /\
  (store_ok 1 w ->
   Db.hooks (store w) !! hookId = None ->
   status_of (Hooks.get_hook auth hookId) w = Ok 404) /\
  status_of (Hooks.delete_hook auth hookId) w ≠ Ok 403.
Proof.
  split; [|split; [|split; [|apply delete_hook_never_forbidden]]].
  - intros hook. apply not_owner_get_delete.
  - intros hook r tok v w' Hhdr Htok Hver Hvalid Hok Hhook Hne.
    destruct (verifyToken_store tok (js "webhook_access") w) as [Hst Hfa].
    rewrite Hver in Hst, Hfa. simpl in Hst, Hfa.
    assert (Hok' : store_ok 1 w').
    { intros i Hi. rewrite Hfa. by apply Hok. }
    destruct (not_owner_get_delete
                (mkAuth tok (user_id v) (email v) (default 0 (credits v)))
                hookId w' hook Hok') as (Hget & Hdel & _);
      [by rewrite Hst|done|].
    unfold status_of, Hooks.GET_hook, Hooks.DELETE_hook.
    rewrite !(authMiddleware_bearer _ _ _ tok) by done.
    rewrite Hver, Hvalid. done.
  - intros Hok Hhook.
    unfold status_of, Hooks.get_hook, try_catch, bind.
    rewrite !(run_ok _ 0) by done. simpl. by rewrite Hhook.
Qed.


(** C7. [verifyToken] never throws.  When the authority cannot be reached
    (the call or the parsing of its answer throws) it returns the invalid
    result whose error is "Authentication service unavailable" and logs the
    failure, and the middleware answers 401 with that error, without running
    the route handler. *)
Theorem authority_failure_is_auth_failure tok operation w r next :
  (exists v w', verifyToken tok operation w = (Ok v, w')) /\
  (tok ≠ [] -> fresh_entry tok w = None ->
   (fetch_verify tok operation (now w)).1 = Throw ->
     (verifyToken tok operation w).1 = Ok service_unavailable /\
     valid service_unavailable = false /\
     error service_unavailable = Some (js "Authentication service unavailable") /\
     console (verifyToken tok operation w).2 = console w ++ [KeyKeeperVerificationError]) /\
  (req_header (js "Authorization") r = Some (js "Bearer " ++ tok) ->
   tok ≠ [] -> fresh_entry tok w = None ->
   (fetch_verify tok (js "webhook_access") (now w)).1 = Throw ->
     authMiddleware r next w =
       (Ok (c_json [(js "error", JStr (js "Authentication service unavailable"))] 401),
        (verifyToken tok (js "webhook_access") w).2)).
Proof.
  split; [apply verifyToken_returns|]. split.
  - intros Htok Hfresh Hthrow.
    rewrite verifyToken_miss, verify_uncached_spec by done.
    destruct (fetch_verify tok operation (now w)) as [[data|] t]; [done|].
    by repeat split.
  - intros Hhdr Htok Hfresh Hthrow.
    rewrite (authMiddleware_bearer _ _ _ tok) by done.
    rewrite verifyToken_miss, verify_uncached_spec by done.
    by destruct (fetch_verify tok (js "webhook_access") (now w)) as [[data|] t].
Qed.


(** ** The delivery dispatcher *)






(** ** Polling *)

Lemma sql_limit_take {A} (limit : option Z) (rows rows' : list A) :
  Db.sql_limit limit rows = Ok rows' -> exists n, rows' = take n rows.
Proof.
  unfold Db.sql_limit. destruct limit as [l|]; [|done].
  destruct (l <? - 2 ^ 63); [done|]. destruct (l <? 0); intros [= <-].
  - exists (length rows). by rewrite take_ge.
  - by eexists.
Qed.

(** The rows of a query come from the table, belong to the hook, and for
    the undelivered query have no delivery time; the store is not changed. *)
Lemma getEvents_rows hid limit t d rows d' :
  Db.getEvents hid limit t d = (Ok rows, d') ->
  d' = d /\
  forall id e, (id, e) ∈ rows -> Db.events d !! id = Some e /\ Db.hook_id e = hid.
Proof.
  unfold Db.getEvents. intros [= Hl <-]. split; [done|].
  apply sql_limit_take in Hl as [n ->]. intros id e Hin.
  apply subseteq_take in Hin. rewrite merge_sort_Permutation in Hin.
  apply list_elem_of_filter in Hin as [Hh Hin].
  by apply elem_of_map_to_list in Hin.
Qed.

Lemma getUndeliveredEvents_rows hid limit t d rows d' :
  Db.getUndeliveredEvents hid limit t d = (Ok rows, d') ->
  d' = d /\
  forall id e, (id, e) ∈ rows ->
    Db.events d !! id = Some e /\ Db.hook_id e = hid /\ Db.delivered_at e = None.
Proof.
  unfold Db.getUndeliveredEvents. intros [= Hl <-]. split; [done|].
  apply sql_limit_take in Hl as [n ->]. intros id e Hin.
  apply subseteq_take in Hin. rewrite merge_sort_Permutation in Hin.
  apply list_elem_of_filter in Hin as [[Hh Hd] Hin].
  by apply elem_of_map_to_list in Hin.
Qed.

(** The loop leaves alone every row that it does not mark. *)
Lemma mark_loop_other rows id w :
  (forall e', (id, e') ∈ rows -> Db.delivered_at e' ≠ None) ->
  Db.events (store (Hooks.mark_loop_of rows w).2) !! id = Db.events (store w) !! id.
Proof.
  revert w. induction rows as [|[id' e'] rows IH]; intros w Hrows; [done|].
  unfold Hooks.mark_loop_of in *. simpl. unfold bind.
  assert (Hrest : forall e'', (id, e'') ∈ rows -> Db.delivered_at e'' ≠ None).
  { intros e'' Hin. apply Hrows. by right. }
  destruct (Db.delivered_at e') as [t|] eqn:Hd; simpl.
  - by apply IH.
  - destruct (run_cases (Db.markEventsDelivered id') w)
      as [(fs & _ & ->) | (_ & ->)]; [done|].
    simpl. rewrite IH by done. simpl.
    apply lookup_alter_ne. intros ->.
    by apply (Hrows e'); [left|].
Qed.


(** C10. The poll route marks only returned events whose [delivered_at] is
    null: an event that already has a delivery time keeps its whole row,
    and so that time, through any poll, whatever the query parameters, the
    caller and the behaviour of the engine. *)
Theorem poll_keeps_delivery_time auth hookId r w id e t :
  Db.events (store w) !! id = Some e ->
  Db.delivered_at e = Some t ->
  Db.events (store (Hooks.get_events auth hookId r w).2) !! id = Some e /\
  delivered_of id (Hooks.get_events auth hookId r w).2 = Some (Some t).
Proof.
  intros He Ht.
  cut (Db.events (store (Hooks.get_events auth hookId r w).2) !! id = Some e).
  { intros Hk. split; [done|]. unfold delivered_of. by rewrite Hk, <- Ht. }
  set (Q := fun (_ : outcome response) (w' : world) =>
              Db.events (store w') !! id = Some e).
  change (wp (Hooks.get_events auth hookId r) Q w).
  assert (Hcatch : forall w1, Db.events (store w1) !! id = Some e ->
     wp (log FailedToGetEvents ;;
         ret (c_json [(js "error", JStr (js "Failed to get events"))] 500)) Q w1).
  { intros w1 H1. by apply wp_bind, wp_log, wp_ret. }
  unfold Hooks.get_events. apply wp_try_catch, wp_bind, wp_run; intros fs.
  { by apply Hcatch. }
  simpl. destruct (Db.hooks (store w) !! hookId) as [hook|]; [|by apply wp_ret].
  destruct (negb (eqb (Db.api_key hook) (token auth))); [by apply wp_ret|].
  apply wp_bind.
  set (w1 := set_faults fs (set_store (store w) w)).
  assert (Hrows : wp
    (if Hooks.undeliveredOnly_of r
     then run (Db.getUndeliveredEvents hookId (Hooks.limit_of r))
     else run (Db.getEvents hookId (Hooks.limit_of r)))
    (fun o w2 =>
       Db.events (store w2) !! id = Some e /\
       match o with
       | Ok rows => forall id' e', (id', e') ∈ rows ->
                      Db.events (store w2) !! id' = Some e'
       | Throw => True
       end) w1).
  { destruct (Hooks.undeliveredOnly_of r); apply wp_run; intros fs1;
      try (by split).
    - destruct (Db.getUndeliveredEvents _ _ _ _) as [[rows|] d'] eqn:Hq;
        simpl; [|by unfold Db.getUndeliveredEvents in Hq; simplify_eq].
      apply getUndeliveredEvents_rows in Hq as [-> Hq].
      split; [done|]. intros id' e' Hin. by apply Hq.
    - destruct (Db.getEvents _ _ _ _) as [[rows|] d'] eqn:Hq;
        simpl; [|by unfold Db.getEvents in Hq; simplify_eq].
      apply getEvents_rows in Hq as [-> Hq].
      split; [done|]. intros id' e' Hin. by apply Hq. }
  eapply wp_mono; [|exact Hrows].
  intros [rows|] w2 [H2 Hin]; [|by apply Hcatch].
  apply wp_bind.
  assert (Hloop : Db.events (store (Hooks.mark_loop_of rows w2).2) !! id = Some e).
  { rewrite mark_loop_other; [done|].
    intros e' Hin'. apply Hin in Hin'. rewrite H2 in Hin'.
    injection Hin' as <-. by rewrite Ht. }
  assert (Hmark : wp
    (if Hooks.markDelivered_of r && negb (bool_decide (rows = []))
     then Hooks.mark_loop_of rows else ret tt)
    (fun _ w3 => Db.events (store w3) !! id = Some e) w2).
  { by destruct (_ && _). }
  eapply wp_mono; [|exact Hmark].
  intros [[]|] w3 H3; [|by apply Hcatch].
  apply wp_bind, wp_lift.
  destruct (map_throw Hooks.event_json rows); [by apply wp_ret|by apply Hcatch].
Qed.


#[local] Instance older_total : Total Db.older.
Proof. intros a b. unfold Db.older. lia. Qed.
#[local] Instance older_trans : Transitive Db.older.
Proof. intros a b c. unfold Db.older. lia. Qed.
#[local] Instance newer_total : Total Db.newer.
Proof. intros a b. unfold Db.newer. lia. Qed.
#[local] Instance newer_trans : Transitive Db.newer.
Proof. intros a b c. unfold Db.newer. lia. Qed.

(** The rows the poll route reads. *)
Definition poll_query (undeliveredOnly : bool) (hid : jsstring) (limit : option Z)
    (t : Z) (d : Db.db) : outcome (list (jsstring * Db.Event)) * Db.db :=
  if undeliveredOnly then Db.getUndeliveredEvents hid limit t d
  else Db.getEvents hid limit t d.

(** The order the poll route reads them in. *)
Definition poll_order (undeliveredOnly : bool) : relation (jsstring * Db.Event) :=
  if undeliveredOnly then Db.older else Db.newer.

(** The limit is 50 when the request names none and never more than 100. *)
Lemma limit_of_default r :
  req_query_get (js "limit") r = None -> Hooks.limit_of r = Some 50.
Proof. unfold Hooks.limit_of. by intros ->. Qed.

Lemma limit_of_capped r l : Hooks.limit_of r = Some l -> l <= 100.
Proof.
  unfold Hooks.limit_of, Math_min. destruct (parseInt _); [|done].
  intros [= <-]. lia.
Qed.

Lemma StronglySorted_take {A} (R : relation A) n (l : list A) :
  StronglySorted R l -> StronglySorted R (take n l).
Proof.
  intros Hs. rewrite <- (take_drop n l) in Hs.
  by apply StronglySorted_app_1_l in Hs.
Qed.

(** With a limit that is not negative, the poll route reads what C4 says:
    rows of the hook only, undelivered ones only when asked, oldest first
    when undelivered and newest first otherwise, no more than the limit, and
    none is left out unless the limit is reached. *)
Lemma poll_query_within_limit undeliveredOnly hid l t d :
  0 <= l ->
  exists rows,
    poll_query undeliveredOnly hid (Some l) t d = (Ok rows, d) /\
    (forall id e, (id, e) ∈ rows ->
       Db.events d !! id = Some e /\ Db.hook_id e = hid /\
       (undeliveredOnly = true -> Db.delivered_at e = None)) /\
    StronglySorted (poll_order undeliveredOnly) rows /\
    Z.of_nat (length rows) <= l /\
    (Z.of_nat (length rows) < l ->
     forall id e, Db.events d !! id = Some e -> Db.hook_id e = hid ->
       (undeliveredOnly = true -> Db.delivered_at e = None) ->
       (id, e) ∈ rows).
Proof.
  intros Hl. unfold poll_query, Db.getUndeliveredEvents, Db.getEvents, Db.sql_limit.
  assert ((l <? - 2 ^ 63) = false) as -> by lia.
  assert ((l <? 0) = false) as -> by lia.
  destruct undeliveredOnly; eexists; (split; [reflexivity|]); simpl.
  - split; [|split; [|split]].
    + intros id e Hin. apply subseteq_take in Hin.
      rewrite merge_sort_Permutation in Hin.
      apply list_elem_of_filter in Hin as [[Hh Hd] Hin].
      by apply elem_of_map_to_list in Hin.
    + apply StronglySorted_take, StronglySorted_merge_sort; apply _.
    + rewrite length_take. lia.
    + intros Hlt id e He Hh Hd. rewrite take_ge.
      * rewrite merge_sort_Permutation. apply list_elem_of_filter.
        split; [by auto|]. by apply elem_of_map_to_list.
      * rewrite length_take in Hlt. lia.
  - split; [|split; [|split]].
    + intros id e Hin. apply subseteq_take in Hin.
      rewrite merge_sort_Permutation in Hin.
      apply list_elem_of_filter in Hin as [Hh Hin].
      by apply elem_of_map_to_list in Hin.
    + apply StronglySorted_take, StronglySorted_merge_sort; apply _.
    + rewrite length_take. lia.
    + intros Hlt id e He Hh Hd. rewrite take_ge.
      * rewrite merge_sort_Permutation. apply list_elem_of_filter.
        split; [by auto|]. by apply elem_of_map_to_list.
      * rewrite length_take in Hlt. lia.
Qed.


(** The events table after the marking loop has run, at second [t], on the
    rows read, the engine failing nothing. *)
Definition marked (t : Z) (rows : list (jsstring * Db.Event))
    (m : gmap jsstring Db.Event) : gmap jsstring Db.Event :=
  foldl (fun m row =>
           match Db.delivered_at (snd row) with
           | None => alter (Db.set_delivered_at (Some t)) (fst row) m
           | Some _ => m
           end) m rows.

Lemma world_eta w :
  mkWorld (store w) (tokenCache w) (now w) (faults w) (console w) (fetches w) = w.
Proof. by destruct w. Qed.

Lemma db_eta d : Db.mkDb (Db.hooks d) (Db.events d) = d.
Proof. by destruct d. Qed.

Lemma run_no_faults {A} (sem : Z -> Db.db -> outcome A * Db.db) w :
  faults w = [] ->
  run sem w = ((sem (datetime_now w) (store w)).1,
               set_store (sem (datetime_now w) (store w)).2 w).
Proof.
  intros Hf. unfold run. rewrite Hf. destruct (sem _ _) as [o d]. simpl.
  unfold set_faults, set_store. simpl. by rewrite <- Hf.
Qed.

Lemma mark_loop_no_faults rows w :
  faults w = [] ->
  Hooks.mark_loop_of rows w =
    (Ok tt, set_store (Db.mkDb (Db.hooks (store w))
                               (marked (datetime_now w) rows (Db.events (store w)))) w).
Proof.
  revert w. induction rows as [|[id e] rows IH]; intros w Hf.
  - unfold Hooks.mark_loop_of, set_store. simpl. unfold ret.
    by rewrite db_eta, world_eta.
  - unfold Hooks.mark_loop_of in *. simpl. unfold bind.
    destruct (Db.delivered_at e) as [t|]; simpl.
    + by rewrite IH.
    + rewrite run_no_faults by done. simpl. by rewrite IH.
Qed.

Lemma set_delivered_at_idemp t e :
  Db.set_delivered_at (Some t) (Db.set_delivered_at (Some t) e) =
  Db.set_delivered_at (Some t) e.
Proof. done. Qed.

(** The ids the loop marks: those of the rows read with no delivery time. *)
Definition to_mark (rows : list (jsstring * Db.Event)) : list jsstring :=
  (filter (fun row => Db.delivered_at (snd row) = None) rows).*1.

Lemma elem_of_to_mark id rows :
  id ∈ to_mark rows <-> exists e, (id, e) ∈ rows /\ Db.delivered_at e = None.
Proof.
  unfold to_mark. rewrite list_elem_of_fmap. split.
  - intros ([id' e] & -> & Hin). apply list_elem_of_filter in Hin as [Hd Hin].
    by exists e.
  - intros (e & Hin & Hd). exists (id, e). split; [done|].
    by apply list_elem_of_filter.
Qed.

(** A row after the loop: marked when it was read with no delivery time,
    untouched otherwise. *)
Lemma marked_lookup t rows m id :
  marked t rows m !! id =
    if bool_decide (id ∈ to_mark rows)
    then Db.set_delivered_at (Some t) <$> m !! id
    else m !! id.
Proof.
  revert m. induction rows as [|[id' e'] rows IH]; intros m; simpl; [done|].
  rewrite IH. clear IH. unfold to_mark. rewrite filter_cons. simpl.
  destruct (Db.delivered_at e') as [t'|] eqn:Hd'.
  - rewrite decide_False by done. done.
  - rewrite decide_True by done. simpl.
    destruct (decide (id' = id)) as [->|Hne].
    + rewrite lookup_alter_eq.
      rewrite (bool_decide_eq_true_2 (id ∈ id :: _)) by left.
      case_bool_decide; [|done].
      destruct (m !! id); simpl; [|done]. by rewrite set_delivered_at_idemp.
    + rewrite lookup_alter_ne by done.
      rewrite (bool_decide_ext (id ∈ id' :: _) (id ∈ to_mark rows)); [done|].
      unfold to_mark. rewrite elem_of_cons.
      split; [by intros [->|?]|by right].
Qed.


Lemma set_store_id w : set_store (store w) w = w.
Proof. by destruct w. Qed.

(** The poll route when the engine fails nothing, the caller owns the hook
    and every row read can be rendered: the answer lists the rows as they
    were read, and the store is the one the marking loop leaves. *)
Lemma get_events_no_faults auth hookId r w hook rows items :
  faults w = [] ->
  Db.hooks (store w) !! hookId = Some hook ->
  Db.api_key hook = token auth ->
  poll_query (Hooks.undeliveredOnly_of r) hookId (Hooks.limit_of r)
             (datetime_now w) (store w) = (Ok rows, store w) ->
  map_throw Hooks.event_json rows = Ok items ->
  Hooks.get_events auth hookId r w =
    (Ok (c_json [(js "events", JArr items);
                 (js "count", JNum (Z.of_nat (length rows)));
                 (js "has_more", JBool (Hooks.length_is (length rows) (Hooks.limit_of r)))]
                200),
     if Hooks.markDelivered_of r
     then set_store (Db.mkDb (Db.hooks (store w))
                             (marked (datetime_now w) rows (Db.events (store w)))) w
     else w).
Proof.
  intros Hf Hhook Hown Hq Hitems.
  unfold Hooks.get_events, try_catch, bind.
  rewrite run_no_faults by done. simpl. rewrite Hhook, set_store_id.
  rewrite Hown, eqb_refl. simpl.
  assert (Hrun : (if Hooks.undeliveredOnly_of r
                  then run (Db.getUndeliveredEvents hookId (Hooks.limit_of r))
                  else run (Db.getEvents hookId (Hooks.limit_of r))) w = (Ok rows, w)).
  { unfold poll_query in Hq.
    destruct (Hooks.undeliveredOnly_of r); rewrite run_no_faults by done;
      rewrite Hq; simpl; by rewrite set_store_id. }
  rewrite Hrun.
  destruct (Hooks.markDelivered_of r) eqn:Hm; cbn [andb].
  - destruct (decide (rows = [])) as [->|Hne].
    + simpl in *. injection Hitems as <-. unfold ret, lift. simpl.
      by rewrite db_eta, set_store_id.
    + rewrite bool_decide_eq_false_2 by done. cbn [negb].
      rewrite mark_loop_no_faults by done. unfold lift. by rewrite Hitems.
  - unfold ret, lift. by rewrite Hitems.
Qed.


(** ** Decimal text *)

Lemma digit_val_decimal (d : N) : (d < 10)%N -> digit_val 10 (48 + d) = Some d.
Proof.
  intros Hd. unfold digit_val.
  assert (((48 <=? 48 + d) && (48 + d <=? 57))%N = true) as ->.
  { apply andb_true_iff. split; apply N.leb_le; lia. }
  replace (48 + d - 48)%N with d by lia.
  by rewrite (proj2 (N.ltb_lt _ _) Hd).
Qed.

Lemma digits_go_reads_back fuel n acc :
  (n < 10 ^ N.of_nat (S fuel))%N ->
  parse_digits 10 (digits_go fuel n acc) None = parse_digits 10 acc (Some n).
Proof.
  revert n acc. induction fuel as [|fuel IH]; intros n acc Hn.
  - change (10 ^ N.of_nat 1)%N with 10%N in Hn. simpl.
    rewrite N.mod_small by done. by rewrite digit_val_decimal.
  - simpl digits_go. destruct (n <? 10)%N eqn:Hlt.
    + apply N.ltb_lt in Hlt. simpl.
      rewrite N.mod_small by done. by rewrite digit_val_decimal.
    + rewrite IH.
      * simpl. rewrite digit_val_decimal by (apply N.mod_lt; lia). simpl.
        do 2 f_equal. pose proof (N.div_mod n 10 ltac:(lia)). lia.
      * rewrite Nat2N.inj_succ, N.pow_succ_r' in Hn.
        apply N.Div0.div_lt_upper_bound. lia.
Qed.

(** The decimal text of a number reads back as the number: the fuel of
    [digits] is enough. *)
Lemma digits_reads_back n : parse_digits 10 (digits n) None = Some n.
Proof.
  unfold digits. rewrite digits_go_reads_back; [done|].
  rewrite Nat2N.inj_succ, N2Nat.id.
  destruct (decide (n = 0%N)) as [->|Hn]; [done|].
  destruct (N.log2_spec n ltac:(lia)) as [_ Hhi].
  eapply N.lt_le_trans; [exact Hhi|].
  apply N.pow_le_mono_l. lia.
Qed.


(** ** Truncation of long bodies *)

Lemma digits_go_length fuel n acc :
  (length (digits_go fuel n acc) <= length acc + fuel + 1)%nat.
Proof.
  revert n acc. induction fuel as [|fuel IH]; intros n acc; simpl; [lia|].
  destruct (n <? 10)%N; simpl; [lia|].
  etransitivity; [apply IH|]. simpl. lia.
Qed.

Lemma digits_length n : (Z.of_nat (length (digits n)) <= Z.of_N (N.log2 n) + 1)%Z.
Proof.
  unfold digits. pose proof (digits_go_length (N.to_nat (N.log2 n)) n []) as Hl.
  simpl in Hl. lia.
Qed.

Lemma pow2_linear (j : N) : (j + 13 + 6054 <= 2 ^ (j + 13))%N.
Proof.
  induction j as [|j IH] using N.peano_ind; [by vm_compute|].
  rewrite N.add_succ_l, N.pow_succ_r'. lia.
Qed.

(** The decimal text of a length over the ceiling is much shorter than the
    length itself. *)
Lemma digits_short (n : N) :
  (102400 < n)%N -> Z.of_nat (length (digits n)) + 6052 < Z.of_N n.
Proof.
  intros Hn. pose proof (digits_length n) as Hd.
  destruct (N.log2_spec n ltac:(lia)) as [Hlo _].
  destruct (decide (N.log2 n < 13)%N) as [Hk|Hk]; [lia|].
  pose proof (pow2_linear (N.log2 n - 13)) as Hp.
  replace (N.log2 n - 13 + 13)%N with (N.log2 n) in Hp by lia. lia.
Qed.

Lemma quote_unit_length c : (length (quote_unit c) <= 6)%nat.
Proof. unfold quote_unit. repeat case_match; simpl; lia. Qed.

Lemma quote_units_length s : (length (quote_units s) <= 6 * length s)%nat.
Proof.
  remember (length s) as n eqn:Hn. revert s Hn.
  induction n as [n IH] using lt_wf_ind. intros s ->.
  destruct s as [|c [|d r]]; simpl; [lia| |].
  - pose proof (quote_unit_length c). lia.
  - destruct (is_high_surrogate c && is_low_surrogate d); simpl.
    + specialize (IH (length r) ltac:(simpl; lia) r eq_refl). lia.
    + rewrite length_app.
      specialize (IH (length (d :: r)) ltac:(simpl; lia) (d :: r) eq_refl).
      pose proof (quote_unit_length c). simpl in *. lia.
Qed.

(** The text of the marker. *)
Lemma truncation_marker_text rawBody :
  JSON_stringify (truncation_marker rawBody) =
    js "{" ++ quote (js "_truncated") ++ js ":" ++ js "true" ++ js "," ++
    quote (js "_original_size") ++ js ":" ++ of_Z (str_length rawBody) ++ js "," ++
    quote (js "_preview") ++ js ":" ++ quote (substring0 1000 rawBody) ++ js "}".
Proof.
  unfold truncation_marker. cbn [JSON_stringify].
  rewrite <- !app_assoc.
  reflexivity.
Qed.

(** The marker is shorter than any body it stands for. *)
Lemma truncation_marker_shorter rawBody :
  MAX_BODY_SIZE < str_length rawBody ->
  str_length (JSON_stringify (truncation_marker rawBody)) < str_length rawBody.
Proof.
  intros Hlong. rewrite truncation_marker_text.
  unfold MAX_BODY_SIZE, str_length, of_Z, quote, substring0 in *.
  assert ((Z.of_nat (length rawBody) <? 0) = false) as -> by lia.
  rewrite !length_app. simpl. rewrite !length_app. simpl.
  pose proof (quote_units_length (take (Z.to_nat 1000) rawBody)) as Hq.
  rewrite length_take in Hq.
  pose proof (digits_short (Z.to_N (Z.of_nat (length rawBody))) ltac:(lia)) as Hd.
  lia.
Qed.


(** A body of ASCII bytes reads as the same code units, one for each byte. *)
Lemma decode_ascii (bs : list N) :
  Forall (fun b => (b <= 127)%N) bs -> Utf8.decode None bs = bs.
Proof.
  induction 1 as [|b bs Hb _ IH]; [done|].
  simpl. unfold Utf8.lead. rewrite (proj2 (N.leb_le _ _) Hb). simpl. by rewrite IH.
Qed.

Lemma text_ascii (bytes : list byte) :
  Forall (fun b => (Byte.to_N b <= 127)%N) bytes ->
  Utf8.text bytes = map Byte.to_N bytes.
Proof.
  intros Hb. unfold Utf8.text.
  assert (Hn : Forall (fun b => (b <= 127)%N) (map Byte.to_N bytes)).
  { by apply Forall_fmap. }
  assert (Hbom : Utf8.skip_bom (map Byte.to_N bytes) = map Byte.to_N bytes).
  { destruct Hn as [|b bs Hle _]; [done|]. unfold Utf8.skip_bom.
    repeat case_match; simplify_eq; try done; lia. }
  rewrite Hbom. by apply decode_ascii.
Qed.

(** What is stored for a body that could be read. *)
Lemma stored_body_read r bytes :
  req_method r ∈ [js "POST"; js "PUT"; js "PATCH"] ->
  req_body r = Ok bytes ->
  stored_body r =
    if str_length (Utf8.text bytes) <=? MAX_BODY_SIZE then Some (Utf8.text bytes)
    else Some (JSON_stringify (truncation_marker (Utf8.text bytes))).
Proof. intros Hm Hb. unfold stored_body. by rewrite bool_decide_eq_true_2, Hb. Qed.

(** The fields of the marker. *)
Lemma truncation_marker_fields rawBody :
  field (js "_truncated") (truncation_marker rawBody) = Some (JBool true) /\
  field (js "_original_size") (truncation_marker rawBody) =
    Some (JNum (str_length rawBody)) /\
  field (js "_preview") (truncation_marker rawBody) = Some (JStr (take 1000 rawBody)).
Proof. done. Qed.

(** What [stored_body] gives is what the receiver writes in the row of the
    event. *)
Lemma webhook_all_body eventId hookId r w :
  is_Some (Db.hooks (store w) !! hookId) ->
  Db.events (store w) !! eventId = None ->
  store_ok 3 w ->
  Db.body <$> Db.events (store (webhook_all eventId hookId r w).2) !! eventId
    = Some (stored_body r).
Proof.
  intros [hook Hhook] Hfresh Hok.
  destruct (webhook_all_stored eventId hookId r w hook Hhook Hfresh Hok)
    as (w' & -> & _ & _ & Hev). simpl.
  destruct Hev as [-> | [_ ->]]; by rewrite lookup_insert_eq.
Qed.

(** X26. The ceiling is measured on the text of the body in UTF-16 code
    units ([rawBody.length]).  For a POST, PUT or PATCH body
    whose text is longer than 102400 code units, the stored body is the text
    of the truncation marker: [_truncated] is true, [_original_size] is the
    length of the text in code units and [_preview] is its first 1000 code
    units; what is stored is shorter than the text, so it is never the text
    itself.  A body whose text has at most 102400 code units is stored as
    that text.  For a body of ASCII bytes the length of the text is the
    number of bytes.  What [stored_body] gives is what the receiver writes in
    the row of the event. *)
Theorem long_body_is_truncated r bytes :
  req_method r ∈ [js "POST"; js "PUT"; js "PATCH"] ->
  req_body r = Ok bytes ->
  let rawBody := Utf8.text bytes in
  (MAX_BODY_SIZE < str_length rawBody ->
     stored_body r = Some (JSON_stringify (truncation_marker rawBody)) /\
     field (js "_truncated") (truncation_marker rawBody) = Some (JBool true) /\
     field (js "_original_size") (truncation_marker rawBody) =
       Some (JNum (str_length rawBody)) /\
     field (js "_preview") (truncation_marker rawBody) =
       Some (JStr (take 1000 rawBody)) /\
     length (take 1000 rawBody) = 1000%nat /\
     str_length (JSON_stringify (truncation_marker rawBody)) < str_length rawBody /\
     stored_body r ≠ Some rawBody) /\
  (str_length rawBody <= MAX_BODY_SIZE -> stored_body r = Some rawBody) /\
  (Forall (fun b => (Byte.to_N b <= 127)%N) bytes ->
     str_length rawBody = Z.of_nat (length bytes)) /\
  (forall eventId hookId w,
     is_Some (Db.hooks (store w) !! hookId) ->
     Db.events (store w) !! eventId = None ->
     store_ok 3 w ->
     Db.body <$> Db.events (store (webhook_all eventId hookId r w).2) !! eventId
       = Some (stored_body r)).
Proof.
  intros Hm Hb rawBody.
  pose proof (stored_body_read r bytes Hm Hb) as Hstored. fold rawBody in Hstored.
  split; [|split; [|split]].
  - intros Hlong. pose proof (truncation_marker_shorter rawBody Hlong) as Hshort.
    assert ((str_length rawBody <=? MAX_BODY_SIZE) = false) as Hle by lia.
    rewrite Hstored, Hle. do 4 (split; [done|]).
    split; [|split; [done|]].
    + rewrite length_take. unfold MAX_BODY_SIZE, str_length in Hlong. lia.
    + intros Heq.
      assert (JSON_stringify (truncation_marker rawBody) = rawBody) as Heq'
        by congruence.
      rewrite Heq' in Hshort. lia.
  - intros Hle. rewrite Hstored. by rewrite (proj2 (Z.leb_le _ _) Hle).
  - intros Hascii. subst rawBody. rewrite text_ascii by done.
    unfold str_length. by rewrite length_map.
  - intros eventId hookId w [hook Hhook] Hfresh Hok.
    destruct (webhook_all_stored eventId hookId r w hook Hhook Hfresh Hok)
      as (w' & -> & _ & _ & Hev). simpl.
    destruct Hev as [-> | [_ ->]]; by rewrite lookup_insert_eq.
Qed.


(** ** The round trip *)

(** The events of a hook, in the order of the table. *)
Definition hook_events (hid : jsstring) (d : Db.db) : list (jsstring * Db.Event) :=
  filter (fun r => Db.hook_id (snd r) = hid) (map_to_list (Db.events d)).

Lemma elem_of_hook_events hid d id e :
  (id, e) ∈ hook_events hid d <-> Db.events d !! id = Some e /\ Db.hook_id e = hid.
Proof.
  unfold hook_events. rewrite list_elem_of_filter, elem_of_map_to_list. simpl.
  by split; intros [? ?].
Qed.

Lemma hook_events_insert hid hs evs id ev :
  evs !! id = None -> Db.hook_id ev = hid ->
  hook_events hid (Db.mkDb hs (<[id := ev]> evs)) ≡ₚ
    (id, ev) :: hook_events hid (Db.mkDb hs evs).
Proof.
  intros Hfresh Hh. unfold hook_events. simpl.
  rewrite map_to_list_insert by done. by rewrite filter_cons_True.
Qed.

(** With a limit that covers them, the listing holds all the events of the
    hook. *)
Lemma getEvents_all hid l t d :
  Z.of_nat (length (hook_events hid d)) <= l ->
  exists rows,
    Db.getEvents hid (Some l) t d = (Ok rows, d) /\
    rows ≡ₚ hook_events hid d.
Proof.
  intros Hlen. unfold Db.getEvents, Db.sql_limit.
  assert ((l <? - 2 ^ 63) = false) as -> by lia.
  assert ((l <? 0) = false) as -> by lia.
  eexists. split; [reflexivity|].
  fold (hook_events hid d).
  rewrite take_ge; [apply merge_sort_Permutation|].
  rewrite merge_sort_Permutation. lia.
Qed.

(** A row that [JSON.parse] accepts where the poll route parses it. *)
Definition renderable (e : Db.Event) : Prop :=
  is_Some (JSON_parse (Db.headers e)) /\
  match Db.query_params e with
  | Some (c :: cs) => is_Some (JSON_parse (c :: cs))
  | _ => True
  end.

Lemma event_json_renderable id e :
  renderable e ->
  exists hs qp,
    Hooks.event_json (id, e) =
      Ok (JObj [(js "id", JStr id);
                (js "method", JStr (Db.method e));
                (js "headers", hs);
                (js "body", match Db.body e with
                            | Some (c :: cs) => Hooks.tryParseJson (c :: cs)
                            | _ => JNull
                            end);
                (js "query_params", qp);
                (js "source_ip", opt_json (Db.source_ip e));
                (js "received_at", JNum (Db.received_at e));
                (js "delivered_at", opt_time (Db.delivered_at e))]).
Proof.
  intros [[hs Hhs] Hqp]. unfold Hooks.event_json, Hooks.parse_or_throw.
  rewrite Hhs. destruct (Db.query_params e) as [[|c cs]|]; try by eexists _, _.
  destruct Hqp as [qp Hqp]. rewrite Hqp. by eexists _, _.
Qed.

Lemma map_throw_ok {A B} (f : A -> outcome B) (l : list A) :
  (forall x, x ∈ l -> exists y, f x = Ok y) ->
  exists ys, map_throw f l = Ok ys /\
             forall x y, x ∈ l -> f x = Ok y -> y ∈ ys.
Proof.
  induction l as [|x l IH]; intros Hall; simpl.
  - exists []. split; [done|]. intros x y Hin. by apply elem_of_nil in Hin.
  - destruct (Hall x ltac:(left)) as [y Hy]. rewrite Hy.
    destruct IH as (ys & -> & Hys); [intros x' Hin; apply Hall; by right|].
    exists (y :: ys). split; [done|].
    intros x' y' Hin Hy'. apply elem_of_cons in Hin as [->|Hin].
    + rewrite Hy in Hy'. injection Hy' as <-. left.
    + right. by apply (Hys x').
Qed.


(** After a marking loop over a listing that holds all the events of a
    hook, none of them is left without a delivery time. *)
Lemma marked_all_delivered t hid d rows id e :
  rows ≡ₚ hook_events hid d ->
  marked t rows (Db.events d) !! id = Some e ->
  Db.hook_id e = hid ->
  Db.delivered_at e ≠ None.
Proof.
  intros Hrows Hlook Hh. rewrite marked_lookup in Hlook.
  case_bool_decide as Hmark.
  - destruct (Db.events d !! id) as [e0|]; [|done].
    simpl in Hlook. by injection Hlook as <-.
  - intros Hd. apply Hmark, elem_of_to_mark. exists e. split; [|done].
    rewrite Hrows. by apply elem_of_hook_events.
Qed.

(** C9, as the code has it.  A JSON body under the size ceiling is POSTed to
    the webhook URL of a hook that holds fewer than 50 events, and the engine
    fails nothing.  The answer is [{received: true, event_id}] with the id
    drawn for the event.  A poll of the owner with default parameters then
    lists that event with [body] equal to the posted JSON; the
    [delivered_at] it shows is the one read before the poll marks the event,
    so it is null for a hook whose delivery method is poll.  In the store the
    event has a delivery time once that poll has run, and a further poll with
    [undelivered=true] lists no event. *)
Theorem post_then_poll_round_trip
    auth eventId hookId hook r bytes v poll poll_u w t1 t2 :
  faults w = [] ->
  Db.hooks (store w) !! hookId = Some hook ->
  Db.api_key hook = token auth ->
  Db.events (store w) !! eventId = None ->
  (length (hook_events hookId (store w)) < 50)%nat ->
  (forall id e, Db.events (store w) !! id = Some e ->
                Db.hook_id e = hookId -> renderable e) ->
  req_method r = js "POST" ->
  req_body r = Ok bytes ->
  str_length (Utf8.text bytes) <= MAX_BODY_SIZE ->
  Utf8.text bytes ≠ [] ->
  JSON_parse (Utf8.text bytes) = Some v ->
  renderable (new_event hookId r (datetime_now w)) ->
  req_query poll = [] ->
  req_query poll_u = [(js "undelivered", js "true")] ->
  let res1 := webhook_all eventId hookId r w in
  let res2 := Hooks.get_events auth hookId poll (set_now t1 res1.2) in
  let res3 := Hooks.get_events auth hookId poll_u (set_now t2 res2.2) in
  res1.1 = Ok (c_json [(js "received", JBool true); (js "event_id", JStr eventId)] 200) /\
  (exists resp items item,
     res2.1 = Ok resp /\ status resp = 200 /\
     field (js "events") (payload resp) = Some (JArr items) /\
     item ∈ items /\
     field (js "id") item = Some (JStr eventId) /\
     field (js "body") item = Some v /\
     Some (field (js "delivered_at") item) =
       (fun d => Some (opt_time d)) <$> delivered_of eventId res1.2) /\
  (dispatched hook = false -> delivered_of eventId res1.2 = Some None) /\
  (exists t, delivered_of eventId res2.2 = Some (Some t)) /\
  res3.1 = Ok (c_json [(js "events", JArr []);
                       (js "count", JNum 0);
                       (js "has_more", JBool false)] 200).
Proof.
  intros Hf Hhook Hown Hfresh Hfew Hrender Hpost Hbody Hsize Hne Hparse Hnew Hq Hqu.
  intros res1 res2 res3. subst res1 res2 res3.
  (* the POST *)
  destruct (webhook_all_stored eventId hookId r w hook Hhook Hfresh
              (store_ok_nil 3 w Hf)) as (w1 & -> & Hfr1 & Hh1 & He1). simpl.
  split; [done|].
  set (t0 := datetime_now w) in *.
  assert (Hev : exists ev,
            Db.events (store w1) = <[eventId := ev]> (Db.events (store w)) /\
            Db.hook_id ev = hookId /\ Db.body ev = Some (Utf8.text bytes) /\
            renderable ev /\
            (dispatched hook = false -> Db.delivered_at ev = None)).
  { assert (Hsb : stored_body r = Some (Utf8.text bytes)).
    { unfold stored_body. rewrite Hpost, Hbody.
      rewrite bool_decide_eq_true_2 by left.
      by rewrite (proj2 (Z.leb_le _ _) Hsize). }
    destruct He1 as [He1 | [Hd He1]]; eexists; (split; [exact He1|]).
    - split; [done|]. split; [exact Hsb|]. split; [exact Hnew|done].
    - split; [done|]. split; [exact Hsb|]. split; [exact Hnew|].
      intros Hd'. by rewrite Hd in Hd'. }
  destruct Hev as (ev & Hevs & Hhid & Hbev & Hrev & Hdev). clear He1.
  assert (Hlook1 : Db.events (store w1) !! eventId = Some ev).
  { by rewrite Hevs, lookup_insert_eq. }
  assert (Hdel1 : delivered_of eventId w1 = Some (Db.delivered_at ev)).
  { unfold delivered_of. by rewrite Hlook1. }
  (* the poll with default parameters *)
  set (w1' := set_now t1 w1).
  assert (Hf1 : faults w1' = []) by (apply Hfr1, Hf).
  assert (Hhook1 : Db.hooks (store w1') !! hookId = Some (Db.trigger t0 hook)).
  { simpl. by rewrite Hh1, lookup_alter_eq, Hhook. }
  assert (Hall1 : hook_events hookId (store w1') ≡ₚ
                  (eventId, ev) :: hook_events hookId (store w)).
  { simpl. rewrite <- (db_eta (store w1)), Hevs.
    rewrite hook_events_insert by done.
    by rewrite <- (db_eta (store w)) at 2. }
  assert (Hlim : Hooks.limit_of poll = Some 50).
  { apply limit_of_default. unfold req_query_get. by rewrite Hq. }
  assert (Hund : Hooks.undeliveredOnly_of poll = false).
  { unfold Hooks.undeliveredOnly_of, req_query_get. by rewrite Hq. }
  assert (Hmk : Hooks.markDelivered_of poll = true).
  { unfold Hooks.markDelivered_of, req_query_get. by rewrite Hq. }
  destruct (getEvents_all hookId 50 (datetime_now w1') (store w1'))
    as (rows & Hrows & Hperm).
  { rewrite Hall1. simpl. lia. }
  assert (Hrend : forall x, x ∈ rows -> exists y, Hooks.event_json x = Ok y).
  { intros [id e] Hin. rewrite Hperm, Hall1 in Hin.
    destruct (event_json_renderable id e) as (hs & qp & Hj); [|by eexists].
    apply elem_of_cons in Hin as [[= -> ->]|Hin]; [done|].
    apply elem_of_hook_events in Hin as [Hl Hh]. by apply (Hrender id). }
  destruct (map_throw_ok Hooks.event_json rows Hrend) as (items & Hitems & Hin_items).
  rewrite (get_events_no_faults auth hookId poll w1' (Db.trigger t0 hook) rows items);
    try done.
  2:{ unfold poll_query. by rewrite Hund, Hlim. }
  rewrite Hmk. simpl.
  split.
  { destruct (event_json_renderable eventId ev Hrev) as (hs & qp & Hj).
    eexists _, items, _. split; [reflexivity|]. split; [done|]. split; [done|].
    split.
    { apply (Hin_items (eventId, ev)); [|exact Hj].
      rewrite Hperm, Hall1. left. }
    split; [done|]. split.
    - rewrite Hbev. destruct (Utf8.text bytes) as [|c cs] eqn:Htext; [done|].
      simpl. unfold Hooks.tryParseJson. by rewrite Hparse.
    - by rewrite Hdel1. }
  split; [intros Hd; by rewrite Hdel1, (Hdev Hd)|].
  set (evs2 := marked (datetime_now w1') rows (Db.events (store w1))).
  assert (Hdelivered : forall id e, evs2 !! id = Some e ->
            Db.hook_id e = hookId -> Db.delivered_at e ≠ None).
  { intros id e Hl Hh. eapply (marked_all_delivered _ hookId (store w1')); done. }
  split.
  { unfold delivered_of. simpl. fold evs2.
    assert (Hsome : is_Some (evs2 !! eventId)).
    { unfold evs2. rewrite marked_lookup, Hlook1. case_bool_decide; by eexists. }
    destruct Hsome as [e2 He2]. rewrite He2. simpl.
    assert (Hh2 : Db.hook_id e2 = hookId).
    { unfold evs2 in He2. rewrite marked_lookup, Hlook1 in He2.
      case_bool_decide; simpl in He2; by injection He2 as <-. }
    pose proof (Hdelivered eventId e2 He2 Hh2) as Hd2.
    destruct (Db.delivered_at e2) as [t|]; [by exists t|done]. }
  (* the poll with undelivered=true *)
  set (w2' := set_now t2 _).
  assert (Hlimu : Hooks.limit_of poll_u = Some 50).
  { apply limit_of_default. unfold req_query_get. by rewrite Hqu. }
  assert (Hundu : Hooks.undeliveredOnly_of poll_u = true).
  { unfold Hooks.undeliveredOnly_of, req_query_get. by rewrite Hqu. }
  destruct (poll_query_within_limit true hookId 50 (datetime_now w2') (store w2')
              ltac:(lia)) as (rows3 & Hq3 & Hin3 & _).
  assert (Hnil : rows3 = []).
  { destruct rows3 as [|[id e] rows3]; [done|].
    destruct (Hin3 id e ltac:(left)) as (Hl & Hh & Hd).
    by destruct (Hdelivered id e Hl Hh (Hd eq_refl)). }
  subst rows3.
  rewrite (get_events_no_faults auth hookId poll_u w2' (Db.trigger t0 hook) [] []);
    try done.
  - simpl. by rewrite Hlimu.
  - by rewrite Hundu, Hlimu.
Qed.


End Properties.

(** * Further properties *)

Section Extras.
Context `{Platform}.

Import Webhook Auth.

(** ** What the receiver keeps of a request *)

(** The value a dictionary holds for a key. *)
Definition assoc (k : jsstring) (o : list (jsstring * jsstring)) : option jsstring :=
  snd <$> find (fun kv => eqb (fst kv) k) o.

(** The last value a list of pairs gives to a key. *)
Definition last_value (k : jsstring) (l : list (jsstring * jsstring)) : option jsstring :=
  assoc k (rev l).

Lemma eqb_eq (a b : jsstring) : eqb a b = true <-> a = b.
Proof. unfold eqb. apply bool_decide_eq_true. Qed.

Lemma eqb_neq (a b : jsstring) : eqb a b = false <-> a ≠ b.
Proof. unfold eqb. apply bool_decide_eq_false. Qed.

Lemma eqb_sym (a b : jsstring) : eqb a b = eqb b a.
Proof. unfold eqb. apply bool_decide_ext. by split. Qed.

Lemma has_own_elem_of k o : has_own k o = true <-> k ∈ o.*1.
Proof.
  unfold has_own. induction o as [|[k0 v0] o IH]; simpl.
  - split; [done|]. by intros ?%elem_of_nil.
  - rewrite orb_true_iff, IH, elem_of_cons, eqb_eq. split; intros [?|?]; auto.
Qed.

Lemma assoc_update k k' v o :
  has_own k' o = true ->
  assoc k (update k' v o) = if eqb k' k then Some v else assoc k o.
Proof.
  unfold assoc, has_own. induction o as [|[k0 v0] o IH]; simpl; [done|].
  destruct (eqb k0 k') eqn:E0; simpl.
  - intros _. apply eqb_eq in E0 as ->. by destruct (eqb k' k).
  - intros Hown. destruct (eqb k0 k) eqn:E1; simpl; [|by apply IH].
    apply eqb_eq in E1 as ->. by rewrite eqb_sym, E0.
Qed.

Lemma assoc_define k k' v o :
  has_own k' o = false ->
  assoc k (define k' v o) = if eqb k' k then Some v else assoc k o.
Proof.
  unfold assoc, has_own. induction o as [|[k0 v0] o IH]; simpl.
  - intros _. by destruct (eqb k' k).
  - intros [E0 Hown]%orb_false_iff.
    destruct (listed_before k' k0); simpl; [by destruct (eqb k' k)|].
    destruct (eqb k0 k) eqn:E1; simpl; [|by apply IH].
    apply eqb_eq in E1 as ->. by rewrite eqb_sym, E0.
Qed.

(** What an assignment changes: the value of its key, unless the key is
    [__proto__]. *)
Lemma assoc_assign k k' v o :
  assoc k (assign k' v o) =
    if negb (eqb k' (js "__proto__")) && eqb k' k then Some v else assoc k o.
Proof.
  unfold assign. destruct (eqb k' (js "__proto__")); simpl; [done|].
  destruct (has_own k' o) eqn:Hown.
  - by apply assoc_update.
  - by apply assoc_define.
Qed.

(** An assignment keeps the keys of the object distinct. *)
Lemma assign_NoDup k v o : NoDup o.*1 -> NoDup (assign k v o).*1.
Proof.
  intros Hnd. unfold assign. destruct (eqb k (js "__proto__")); [done|].
  destruct (has_own k o) eqn:Hown.
  - assert (Hkeys : (update k v o).*1 = o.*1); [|by rewrite Hkeys].
    clear. induction o as [|[k0 v0] o IH]; simpl; [done|].
    destruct (eqb k0 k); simpl; [done|]. by f_equal.
  - assert (Hk : k ∉ o.*1).
    { intros Hin%has_own_elem_of. congruence. }
    clear Hown. induction o as [|[k0 v0] o IH]; simpl.
    + apply NoDup_singleton.
    + destruct (listed_before k k0); simpl.
      * by apply NoDup_cons.
      * apply not_elem_of_cons in Hk as [Hk0 Hk].
        apply NoDup_cons in Hnd as [Hn0 Hnd].
        apply NoDup_cons. split; [|by apply IH].
        clear IH Hnd. intros Hin. apply Hn0. clear Hn0.
        induction o as [|[k1 v1] o IH]; simpl in *.
        -- apply list_elem_of_singleton in Hin. congruence.
        -- apply not_elem_of_cons in Hk as [Hk1 Hk].
           destruct (listed_before k k1); simpl in Hin.
           ++ apply elem_of_cons in Hin as [?|Hin]; [congruence|done].
           ++ apply elem_of_cons in Hin as [->|Hin]; [left|right; by apply IH].
Qed.

Lemma assoc_app k (o1 o2 : list (jsstring * jsstring)) :
  assoc k (o1 ++ o2) = match assoc k o1 with Some v => Some v | None => assoc k o2 end.
Proof.
  unfold assoc. induction o1 as [|[k0 v0] o1 IH]; simpl; [done|].
  by destruct (eqb k0 k).
Qed.

Lemma assoc_of_record k o :
  field k (of_record o) = JStr <$> assoc k o.
Proof.
  unfold field, of_record, assoc. induction o as [|[k0 v0] o IH]; simpl; [done|].
  by destruct (eqb k0 k).
Qed.

Lemma assoc_None k o : (forall kv, kv ∈ o -> fst kv ≠ k) -> assoc k o = None.
Proof.
  unfold assoc. induction o as [|[k0 v0] o IH]; simpl; [done|]. intros Hall.
  destruct (eqb k0 k) eqn:E.
  - apply eqb_eq in E. destruct (Hall (k0, v0)); [left|done].
  - apply IH. intros kv Hin. apply Hall. by right.
Qed.

Lemma assoc_is_Some kv o : kv ∈ o -> is_Some (assoc (fst kv) o).
Proof.
  unfold assoc. induction o as [|[k0 v0] o IH]; simpl.
  - by intros ?%elem_of_nil.
  - intros [->|Hin]%elem_of_cons; simpl.
    + unfold eqb. by rewrite bool_decide_eq_true_2.
    + destruct (eqb k0 (fst kv)); simpl; [done|]. by apply IH.
Qed.

(** Folding assignments over a list of pairs: of the pairs that are
    stored, the last one of a key gives the key its value, and a key that
    none of them names keeps what the object had. *)
Lemma assoc_fold_left (step : list (jsstring * jsstring) -> jsstring * jsstring ->
                              list (jsstring * jsstring))
    (stored : jsstring -> bool) k l acc :
  (forall acc kv k,
     assoc k (step acc kv) =
       if stored (fst kv) && eqb (fst kv) k then Some (snd kv) else assoc k acc) ->
  assoc k (fold_left step l acc) =
    match last_value k (filter (fun kv => stored (fst kv) = true) l) with
    | Some v => Some v
    | None => assoc k acc
    end.
Proof.
  intros Hstep. revert acc. induction l as [|[k0 v0] l IH]; intros acc; simpl; [done|].
  rewrite IH, Hstep. unfold last_value. rewrite filter_cons. simpl.
  destruct (stored k0) eqn:Hk.
  - rewrite decide_True by done. simpl. rewrite assoc_app.
    destruct (assoc k (rev _)); [done|].
    unfold assoc. simpl. by destruct (eqb k0 k).
  - by rewrite decide_False.
Qed.

(** Filtering on keys does not change the last value of a key that
    passes, and leaves none to a key that does not. *)
Lemma last_value_filter (keep : jsstring -> bool) k l :
  last_value k (filter (fun kv => keep (fst kv) = true) l) =
    if keep k then last_value k l else None.
Proof.
  unfold last_value. induction l as [|[k0 v0] l IH]; simpl.
  - by destruct (keep k).
  - rewrite filter_cons. simpl. destruct (keep k0) eqn:Hk0.
    + rewrite decide_True by done. simpl. rewrite !assoc_app, IH.
      destruct (keep k) eqn:Hk; [done|].
      unfold assoc. simpl. destruct (eqb k0 k) eqn:E; [|done].
      apply eqb_eq in E as ->. congruence.
    + rewrite decide_False by done. rewrite IH, assoc_app.
      destruct (keep k) eqn:Hk; [|done].
      destruct (assoc k (rev l)); [done|].
      unfold assoc. simpl. destruct (eqb k0 k) eqn:E; [|done].
      apply eqb_eq in E as ->. congruence.
Qed.

Lemma last_value_app k l1 l2 :
  last_value k (l1 ++ l2) =
    match last_value k l2 with Some v => Some v | None => last_value k l1 end.
Proof. unfold last_value. by rewrite rev_app_distr, assoc_app. Qed.

Lemma elem_of_rev {A} (x : A) l : x ∈ rev l <-> x ∈ l.
Proof. rewrite !list_elem_of_In. symmetry. apply in_rev. Qed.

(** Pairs whose key is [__proto__] leave the object as it is. *)
Lemma fold_assign_proto l acc :
  Forall (fun kv => fst kv = js "__proto__") l ->
  fold_left (fun acc kv => assign (fst kv) (snd kv) acc) l acc = acc.
Proof.
  intros Hall. revert acc.
  induction Hall as [|[k0 v0] l Hk _ IH]; intros acc; simpl; [done|].
  simpl in Hk. subst k0. rewrite IH. unfold assign, eqb.
  by rewrite bool_decide_eq_true_2.
Qed.

Lemma fold_assign_NoDup l acc :
  NoDup acc.*1 ->
  NoDup (fold_left (fun acc kv => assign (fst kv) (snd kv) acc) l acc).*1.
Proof.
  revert acc. induction l as [|kv l IH]; intros acc Hnd; simpl; [done|].
  by apply IH, assign_NoDup.
Qed.

(** *** What iterating the headers visits *)

Lemma lower_unit_idemp c : lower_unit (lower_unit c) = lower_unit c.
Proof.
  unfold lower_unit.
  destruct ((65 <=? c) && (c <=? 90))%N eqn:E; [|by rewrite E].
  apply andb_true_iff in E as [E1%N.leb_le E2%N.leb_le].
  assert ((c + 32 <=? 90)%N = false) as -> by (apply N.leb_gt; lia).
  by rewrite andb_false_r.
Qed.

Lemma toLowerCase_idemp s : toLowerCase (toLowerCase s) = toLowerCase s.
Proof.
  unfold toLowerCase. rewrite map_map. apply map_ext. intros c.
  apply lower_unit_idemp.
Qed.

Lemma elem_of_add_name x nm l : x ∈ Headers.add_name nm l <-> x = nm \/ x ∈ l.
Proof.
  induction l as [|x0 l IH]; simpl.
  - rewrite list_elem_of_singleton. split; [by left|]. intros [?|?%elem_of_nil]; done.
  - destruct (eqb x0 nm) eqn:E.
    + apply eqb_eq in E as ->. split; [by right|]. intros [->|?]; [left|done].
    + destruct (Headers.code_unit_less nm x0).
      * by rewrite elem_of_cons.
      * rewrite !elem_of_cons, IH. split; intros [?|[?|?]]; auto.
Qed.

Lemma elem_of_names x l :
  x ∈ Headers.names l <-> exists kv, kv ∈ l /\ toLowerCase (fst kv) = x.
Proof.
  unfold Headers.names. induction l as [|kv0 l IH]; simpl.
  - split; [by intros ?%elem_of_nil|]. by intros (kv & ?%elem_of_nil & _).
  - rewrite elem_of_add_name, IH. split.
    + intros [->|(kv & Hin & <-)].
      * exists kv0. split; [left|done].
      * exists kv. split; [by right|done].
    + intros (kv & [->|Hin]%elem_of_cons & <-); [by left|].
      right. by exists kv.
Qed.

Lemma values_nil nm l :
  (forall kv, kv ∈ l -> toLowerCase (fst kv) ≠ toLowerCase nm) ->
  Headers.values nm l = [].
Proof.
  induction l as [|[k0 v0] l IH]; simpl; [done|]. intros Hall.
  destruct (eqb (toLowerCase k0) (toLowerCase nm)) eqn:E.
  - apply eqb_eq in E. destruct (Hall (k0, v0)); [left|done].
  - apply IH. intros kv Hin. apply Hall. by right.
Qed.

Lemma last_value_same_key k vs :
  last_value k (map (fun v => (k, v)) vs) = last vs.
Proof.
  induction vs as [|v vs IH] using rev_ind; [done|].
  rewrite map_app, last_value_app, last_snoc. simpl. unfold last_value, assoc. simpl.
  unfold eqb. by rewrite bool_decide_eq_true_2.
Qed.

(** The pairs visited for a key. *)
Definition visits (l : list (jsstring * jsstring)) (nm : jsstring) :
    list (jsstring * jsstring) :=
  if eqb nm (js "set-cookie") then map (fun v => (nm, v)) (Headers.values nm l)
  else match Headers.get nm l with
       | Some v => [(nm, v)]
       | None => []
       end.

Lemma visits_key l nm kv : kv ∈ visits l nm -> fst kv = nm.
Proof.
  unfold visits. destruct (eqb nm (js "set-cookie")).
  - by intros (v & -> & _)%list_elem_of_fmap.
  - destruct (Headers.get nm l); [|by intros ?%elem_of_nil].
    by intros ->%list_elem_of_singleton.
Qed.

Lemma last_value_visits l k :
  last_value k (visits l k) =
    if eqb k (js "set-cookie") then last (Headers.values k l) else Headers.get k l.
Proof.
  unfold visits. destruct (eqb k (js "set-cookie")).
  - apply last_value_same_key.
  - destruct (Headers.get k l); [|done].
    unfold last_value, assoc. simpl. unfold eqb. by rewrite bool_decide_eq_true_2.
Qed.

Lemma last_value_flat_map l names k :
  last_value k (flat_map (visits l) names) =
    if bool_decide (k ∈ names) then last_value k (visits l k) else None.
Proof.
  induction names as [|x names IH]; simpl; [done|].
  rewrite last_value_app, IH.
  destruct (decide (x = k)) as [->|Hx].
  - rewrite (bool_decide_eq_true_2 (k ∈ k :: names)) by left.
    destruct (bool_decide (k ∈ names)); [|done].
    by destruct (last_value k (visits l k)).
  - assert (Hnone : last_value k (visits l x) = None).
    { apply assoc_None. intros kv Hin%elem_of_rev%visits_key. congruence. }
    rewrite Hnone.
    assert (Hiff : bool_decide (k ∈ x :: names) = bool_decide (k ∈ names)).
    { apply bool_decide_ext. rewrite elem_of_cons. split; [|by right].
      intros [?|?]; [congruence|done]. }
    rewrite Hiff. destruct (bool_decide (k ∈ names)); [|done].
    by destruct (last_value k (visits l k)).
Qed.

(** The last pair iteration visits for a key: the combined value of a
    lower-case name that has a header, the last value for [set-cookie]. *)
Lemma last_value_entries l k :
  last_value k (Headers.entries l) =
    if eqb (toLowerCase k) k
    then if eqb k (js "set-cookie") then last (Headers.values k l)
         else Headers.get k l
    else None.
Proof.
  change (Headers.entries l) with (flat_map (visits l) (Headers.names l)).
  rewrite last_value_flat_map, last_value_visits.
  destruct (bool_decide (k ∈ Headers.names l)) eqn:Hin.
  - apply bool_decide_eq_true in Hin. apply elem_of_names in Hin as (kv & _ & <-).
    by rewrite toLowerCase_idemp, eqb_refl.
  - apply bool_decide_eq_false in Hin.
    destruct (eqb (toLowerCase k) k) eqn:Hlow; [|done].
    apply eqb_eq in Hlow.
    assert (Hvals : Headers.values k l = []).
    { apply values_nil. intros kv Hkv Heq. apply Hin, elem_of_names.
      exists kv. split; [done|]. congruence. }
    unfold Headers.get. rewrite Hvals. by destruct (eqb k (js "set-cookie")).
Qed.

(** X1. The [headers] object the receiver stores has lower-case keys only:
    a key holds the values of all the request's headers of that name, in any
    case, joined by a comma and a space (for [set-cookie], the last value
    alone), and a name on the denylist or the name [__proto__] is never in
    it. *)
Theorem stored_headers_drop_denylist r k :
  field k (of_record (collect_headers r)) =
    if bool_decide (k ∈ EXCLUDED_HEADERS) || eqb k (js "__proto__")
       || negb (eqb (toLowerCase k) k)
    then None
    else if eqb k (js "set-cookie")
         then JStr <$> last (Headers.values k (req_headers r))
         else JStr <$> Headers.get k (req_headers r).
Proof.
  rewrite assoc_of_record. unfold collect_headers.
  set (stored := fun k0 : jsstring =>
                   negb (bool_decide (toLowerCase k0 ∈ EXCLUDED_HEADERS))
                   && negb (eqb k0 (js "__proto__"))).
  rewrite (assoc_fold_left _ stored).
  2:{ intros acc kv k1. unfold stored.
      destruct (bool_decide (toLowerCase (fst kv) ∈ EXCLUDED_HEADERS)); [done|].
      by rewrite assoc_assign. }
  rewrite (last_value_filter stored), last_value_entries. unfold stored.
  destruct (eqb (toLowerCase k) k) eqn:Hlow.
  - apply eqb_eq in Hlow. rewrite Hlow.
    destruct (bool_decide (k ∈ EXCLUDED_HEADERS)); simpl; [done|].
    destruct (eqb k (js "__proto__")); simpl; [done|].
    destruct (eqb k (js "set-cookie")).
    + by destruct (last _).
    + by destruct (Headers.get _ _).
  - rewrite !orb_true_r.
    by destruct (negb _ && negb _).
Qed.

(** X2. The [queryParams] object holds, for every key but [__proto__], the
    last value the query string gives to it, each key once; the stored
    [query_params] is null exactly when the query string names no key other
    than [__proto__], and is the JSON text of the object otherwise. *)
Theorem stored_query_last_value_wins r k :
  field k (of_record (collect_query r)) =
    (if eqb k (js "__proto__") then None
     else JStr <$> last_value k (req_query r)) /\
  NoDup (collect_query r).*1 /\
  (forall hookId t,
     Db.query_params (new_event hookId r t) = None <->
     Forall (fun kv => fst kv = js "__proto__") (req_query r)) /\
  (forall hookId t kv,
     kv ∈ req_query r -> fst kv ≠ js "__proto__" ->
     Db.query_params (new_event hookId r t) =
       Some (JSON_stringify (of_record (collect_query r)))).
Proof.
  set (stored := fun k0 : jsstring => negb (eqb k0 (js "__proto__"))).
  assert (Hassoc : forall k, assoc k (collect_query r) =
                     if stored k then last_value k (req_query r) else None).
  { intros k1. unfold collect_query.
    rewrite (assoc_fold_left _ stored).
    2:{ intros acc kv k2. by rewrite assoc_assign. }
    rewrite (last_value_filter stored).
    by destruct (stored k1); [destruct (last_value _ _)|]. }
  assert (Hsome : forall kv, kv ∈ req_query r -> fst kv ≠ js "__proto__" ->
                    collect_query r ≠ []).
  { intros kv Hin Hne Hnil.
    pose proof (Hassoc (fst kv)) as Hk. rewrite Hnil in Hk. unfold stored in Hk.
    apply eqb_neq in Hne. rewrite Hne in Hk. simpl in Hk.
    apply elem_of_rev in Hin. apply assoc_is_Some in Hin as [v Hv].
    unfold last_value in Hk. by rewrite Hv in Hk. }
  split; [|split; [|split]].
  - rewrite assoc_of_record, Hassoc. unfold stored.
    by destruct (eqb k (js "__proto__")).
  - unfold collect_query. apply fold_assign_NoDup, NoDup_nil_2.
  - intros hookId t. simpl. split.
    + intros Hnone. apply Forall_forall. intros kv Hin.
      destruct (decide (fst kv = js "__proto__")) as [|Hne]; [done|].
      destruct (collect_query r) eqn:E; [|done]. by destruct (Hsome kv).
    + intros Hall. unfold collect_query. by rewrite fold_assign_proto.
  - intros hookId t kv Hin Hne. simpl.
    destruct (collect_query r) eqn:E; [|done]. by destruct (Hsome kv).
Qed.

(** X3. A request whose method is not POST, PUT or PATCH, or whose body
    cannot be read, is stored all the same, with a null body: for a known
    hook, a fresh event id and a store phase the engine does not fail, the
    answer is 200 with the event id and the row of the event has no body. *)
Theorem unread_body_is_stored_as_null eventId hookId r w :
  (req_method r ∉ [js "POST"; js "PUT"; js "PATCH"] \/ req_body r = Throw) ->
  is_Some (Db.hooks (store w) !! hookId) ->
  Db.events (store w) !! eventId = None ->
  store_ok 3 w ->
  (webhook_all eventId hookId r w).1 =
    Ok (c_json [(js "received", JBool true); (js "event_id", JStr eventId)] 200) /\
  Db.body <$> Db.events (store (webhook_all eventId hookId r w).2) !! eventId =
    Some None.
Proof.
  intros Hbody [hook Hhook] Hfresh Hok.
  assert (Hnone : stored_body r = None).
  { unfold stored_body. destruct Hbody as [Hm | Hb].
    - by rewrite bool_decide_eq_false_2.
    - rewrite Hb. by destruct (bool_decide _). }
  destruct (webhook_all_stored eventId hookId r w hook Hhook Hfresh Hok)
    as (w' & -> & _ & _ & Hev). simpl. split; [done|].
  destruct Hev as [-> | [_ ->]]; rewrite lookup_insert_eq; simpl; by rewrite Hnone.
Qed.


(** ** What the receiver does to the store *)

(** X4. A stored event is counted on its hook: after an ingestion whose
    store phase succeeds, the hook has [event_count] one higher and
    [last_triggered_at] at the current second, keeps its owner and its
    delivery settings, and every other hook is as it was. *)
Theorem ingest_counts_the_event eventId hookId r w hook :
  Db.hooks (store w) !! hookId = Some hook ->
  Db.events (store w) !! eventId = None ->
  store_ok 3 w ->
  let hooks' := Db.hooks (store (webhook_all eventId hookId r w).2) in
  (exists hook',
     hooks' !! hookId = Some hook' /\
     Db.event_count hook' = Db.event_count hook + 1 /\
     Db.last_triggered_at hook' = Some (datetime_now w) /\
     Db.api_key hook' = Db.api_key hook /\
     Db.delivery_method hook' = Db.delivery_method hook /\
     Db.delivery_config hook' = Db.delivery_config hook /\
     Db.created_at hook' = Db.created_at hook) /\
  (forall id, id ≠ hookId -> hooks' !! id = Db.hooks (store w) !! id).
Proof.
  intros Hhook Hfresh Hok hooks'. subst hooks'.
  destruct (webhook_all_stored eventId hookId r w hook Hhook Hfresh Hok)
    as (w' & Hrun & _ & Hh & _). rewrite Hrun. simpl. rewrite Hh. split.
  - exists (Db.trigger (datetime_now w) hook).
    by rewrite lookup_alter_eq, Hhook.
  - intros id Hne. by rewrite lookup_alter_ne.
Qed.

Definition bare_acknowledgement : response :=
  c_json [(js "received", JBool true)] 200.

(** X5. When the id drawn for the event is already taken, the insert is
    refused: the answer is the bare acknowledgement with no event id, the
    store is as it was (the hook is not counted as triggered), and the error
    is logged. *)
Theorem ingest_refused_on_taken_id eventId hookId r w hook e :
  Db.hooks (store w) !! hookId = Some hook ->
  Db.events (store w) !! eventId = Some e ->
  store_ok 2 w ->
  (webhook_all eventId hookId r w).1 = Ok bare_acknowledgement /\
  store (webhook_all eventId hookId r w).2 = store w /\
  console (webhook_all eventId hookId r w).2 = console w ++ [WebhookProcessingError].
Proof.
  intros Hhook Htaken Hok.
  unfold webhook_all, try_catch, bind.
  rewrite (run_ok _ 1) by done. simpl. rewrite Hhook.
  rewrite (run_ok _ 0) by (by apply (store_ok_tail 1)).
  unfold Db.createEvent. simpl. rewrite Htaken. simpl. done.
Qed.

(** X6. When the engine fails the update of the trigger statistics after the
    insert has succeeded, the event is in the store but the answer is the bare
    acknowledgement: the caller is not told the event id, and the hook is not
    counted as triggered. *)
Theorem ingest_stored_but_not_named eventId hookId r w hook fs :
  Db.hooks (store w) !! hookId = Some hook ->
  Db.events (store w) !! eventId = None ->
  faults w = false :: false :: true :: fs ->
  let res := webhook_all eventId hookId r w in
  res.1 = Ok bare_acknowledgement /\
  Db.events (store res.2) =
    <[eventId := new_event hookId r (datetime_now w)]> (Db.events (store w)) /\
  Db.hooks (store res.2) = Db.hooks (store w) /\
  console res.2 = console w ++ [WebhookProcessingError].
Proof.
  intros Hhook Hfresh Hf res. subst res.
  unfold webhook_all, try_catch, bind, run, Db.createEvent, Db.getHook.
  rewrite Hf. simpl. rewrite Hhook. simpl. rewrite Hfresh, Hhook. simpl. done.
Qed.

(** X7. The receiver is outside the credential layer: whatever the request
    and whatever the engine does, it makes no call to the authority and
    leaves the token cache and the clock as they are. *)
Theorem ingest_never_authenticates eventId hookId r w :
  let w' := (webhook_all eventId hookId r w).2 in
  fetches w' = fetches w /\ tokenCache w' = tokenCache w /\ now w' = now w.
Proof.
  intros w'. subst w'.
  set (Q := fun (_ : outcome response) (w' : world) =>
              fetches w' = fetches w /\ tokenCache w' = tokenCache w /\ now w' = now w).
  change (wp (webhook_all eventId hookId r) Q w).
  assert (Hcatch : forall w1, Q Throw w1 ->
     wp (log WebhookProcessingError ;;
         ret (c_json [(js "received", JBool true)] 200)) Q w1).
  { intros w1 H1. by apply wp_bind, wp_log, wp_ret. }
  assert (Hstep : forall {A} (sem : Z -> Db.db -> outcome A * Db.db) w1
                         (Q' : outcome A -> world -> Prop),
     Q Throw w1 ->
     (forall o w2, Q Throw w2 -> Q' o w2) -> wp (run sem) Q' w1).
  { intros A sem w1 Q' H1 HQ'. apply wp_run; intros fs'; apply HQ'; apply H1. }
  unfold webhook_all. apply wp_try_catch, wp_bind.
  apply Hstep; [by repeat split|]. intros [hook|] w1 H1; [|by apply Hcatch].
  destruct hook as [hook|]; [|by apply wp_ret].
  apply wp_bind, Hstep; [done|]. intros [[]|] w2 H2; [|by apply Hcatch].
  apply wp_bind, Hstep; [done|]. intros [[]|] w3 H3; [|by apply Hcatch].
  apply wp_bind.
  assert (Hd : wp (if negb (eqb (Db.delivery_method hook) (js "poll"))
                      && truthy (Db.delivery_config hook)
                   then deliverEvent hook eventId else ret tt)
                  (fun _ w4 => Q Throw w4) w3).
  { destruct (_ && _); [|done].
    destruct (deliverEvent_spec hook eventId w3) as (w4 & Hrun & (Hn & Hc & Hf & _) & _).
    unfold wp. rewrite Hrun. simpl. destruct H3 as (? & ? & ?).
    repeat split; congruence. }
  eapply wp_mono; [|exact Hd].
  intros [[]|] w4 H4; [by apply wp_ret|by apply Hcatch].
Qed.

(** X8. The receiver only adds: whatever the request and whatever the engine
    does, every event that was in the store is still there, unchanged, and no
    hook is created or removed. *)
Theorem ingest_is_append_only eventId hookId r w :
  let w' := (webhook_all eventId hookId r w).2 in
  (forall id e, Db.events (store w) !! id = Some e ->
                Db.events (store w') !! id = Some e) /\
  (forall id, is_Some (Db.hooks (store w') !! id) <->
              is_Some (Db.hooks (store w) !! id)).
Proof.
  intros w'. subst w'.
  set (P := fun (w' : world) =>
    (forall id e, Db.events (store w) !! id = Some e ->
                  Db.events (store w') !! id = Some e) /\
    (forall id, is_Some (Db.hooks (store w') !! id) <->
                is_Some (Db.hooks (store w) !! id))).
  change (wp (webhook_all eventId hookId r) (fun _ => P) w).
  assert (Hcatch : forall w1, P w1 ->
     wp (log WebhookProcessingError ;;
         ret (c_json [(js "received", JBool true)] 200)) (fun _ => P) w1).
  { intros w1 H1. by apply wp_bind, wp_log, wp_ret. }
  assert (HP0 : P w) by (by split).
  unfold webhook_all. apply wp_try_catch, wp_bind, wp_run; intros fs.
  { by apply Hcatch. }
  simpl. destruct (Db.hooks (store w) !! hookId) as [hook|] eqn:Hhook;
    [|by apply wp_ret].
  apply wp_bind, wp_run; intros fs1; [by apply Hcatch|].
  unfold Db.createEvent. simpl. rewrite Hhook.
  destruct (Db.events (store w) !! eventId) as [e0|] eqn:Hfresh; simpl;
    [by apply Hcatch|].
  assert (HP1 : forall w2 : world,
            Db.hooks (store w2) = alter (Db.trigger (datetime_now w)) hookId (Db.hooks (store w)) \/
            Db.hooks (store w2) = Db.hooks (store w) ->
            Db.events (store w2) = <[eventId := new_event hookId r (datetime_now w)]> (Db.events (store w)) \/
            Db.events (store w2) =
              alter (Db.set_delivered_at (Some (datetime_now w))) eventId
                (<[eventId := new_event hookId r (datetime_now w)]> (Db.events (store w))) ->
            P w2).
  { intros w2 Hh He. split.
    - intros id e Hl. assert (id ≠ eventId) by congruence.
      destruct He as [-> | ->]; [|rewrite lookup_alter_ne by done];
        by rewrite lookup_insert_ne.
    - intros id. destruct Hh as [-> | ->]; [|done].
      destruct (decide (hookId = id)) as [->|Hne].
      + rewrite lookup_alter_eq. by rewrite fmap_is_Some.
      + by rewrite lookup_alter_ne. }
  apply wp_bind, wp_run; intros fs2.
  { apply Hcatch, HP1; simpl; auto. }
  simpl. apply wp_bind.
  match goal with |- wp ?m _ ?w3 =>
    assert (Hd : wp m (fun _ w4 => P w4) w3) end.
  { destruct (_ && _).
    - match goal with |- wp _ _ ?w3 =>
        destruct (deliverEvent_spec hook eventId w3) as (w4 & Hrun & _ & Hh4 & He4) end.
      unfold wp. rewrite Hrun. simpl. apply HP1.
      + left. by rewrite Hh4.
      + destruct He4 as [-> | ->]; simpl; auto.
    - apply wp_ret, HP1; simpl; auto. }
  eapply wp_mono; [|exact Hd].
  intros [[]|] w4 H4; [by apply wp_ret|by apply Hcatch].
Qed.


(** ** The registry routes *)

(** X9. The owner deletes a hook: the answer is 200 with the success flag,
    the hook is gone and its events with it, every other hook and every event
    of another hook is as it was; asked again, [delete] and [get] both answer
    404. *)
Theorem owner_delete_cascades auth hookId w hook :
  store_ok 1 w ->
  Db.hooks (store w) !! hookId = Some hook ->
  Db.api_key hook = token auth ->
  let res := Hooks.delete_hook auth hookId w in
  res.1 = Ok (c_json [(js "success", JBool true);
                      (js "message", JStr (js "Webhook deleted"))] 200) /\
  Db.hooks (store res.2) !! hookId = None /\
  (forall id, id ≠ hookId ->
     Db.hooks (store res.2) !! id = Db.hooks (store w) !! id) /\
  (forall id e,
     Db.events (store res.2) !! id = Some e <->
     Db.events (store w) !! id = Some e /\ Db.hook_id e ≠ hookId) /\
  (store_ok 2 w ->
     status_of (Hooks.delete_hook auth hookId) res.2 = Ok 404 /\
     status_of (Hooks.get_hook auth hookId) res.2 = Ok 404).
Proof.
  intros Hok Hhook Hown res.
  assert (Hres : res =
    (Ok (c_json [(js "success", JBool true);
                 (js "message", JStr (js "Webhook deleted"))] 200),
     set_faults (tail (faults w))
       (set_store (Db.mkDb (delete hookId (Db.hooks (store w)))
                     (filter (fun r => Db.hook_id (snd r) ≠ hookId)
                             (Db.events (store w)))) w))).
  { subst res. unfold Hooks.delete_hook, try_catch, bind.
    rewrite (run_ok _ 0) by done. unfold Db.deleteHook.
    rewrite Hhook, bool_decide_eq_true_2 by done. done. }
  rewrite Hres. simpl. split; [done|].
  split; [by rewrite lookup_delete_eq|].
  split; [intros id Hne; by rewrite lookup_delete_ne|].
  split; [intros id e; by rewrite map_lookup_filter_Some|].
  intros Hok2.
  unfold status_of, Hooks.delete_hook, Hooks.get_hook, try_catch, bind.
  rewrite !(run_ok _ 0) by (by apply (store_ok_tail 1)).
  unfold Db.deleteHook. simpl. by rewrite lookup_delete_eq.
Qed.

(** The answer of [get] for the owner, given the parsed configuration. *)
Definition hook_detail (hookId : jsstring) (hook : Db.Hook) (config : json) : response :=
  c_json [(js "id", JStr hookId);
          (js "webhook_url", JStr (Hooks.publicUrl ++ js "/webhook/" ++ hookId));
          (js "name", opt_json (Db.name hook));
          (js "description", opt_json (Db.description hook));
          (js "delivery_method", JStr (Db.delivery_method hook));
          (js "delivery_config", config);
          (js "created_at", JNum (Db.created_at hook));
          (js "last_triggered_at", opt_time (Db.last_triggered_at hook));
          (js "event_count", JNum (Db.event_count hook))]
         200.

Lemma get_hook_owner auth hookId w hook :
  store_ok 1 w ->
  Db.hooks (store w) !! hookId = Some hook ->
  Db.api_key hook = token auth ->
  (Hooks.get_hook auth hookId w).1 =
    match Db.delivery_config hook with
    | Some (c :: cs) =>
        match JSON_parse (c :: cs) with
        | Some config => Ok (hook_detail hookId hook config)
        | None => Ok (c_json [(js "error", JStr (js "Failed to get webhook"))] 500)
        end
    | _ => Ok (hook_detail hookId hook JNull)
    end.
Proof.
  intros Hok Hhook Hown.
  unfold Hooks.get_hook, try_catch, bind, lift, Hooks.parse_or_throw.
  rewrite (run_ok _ 0) by done. simpl. rewrite Hhook, Hown, eqb_refl. simpl.
  destruct (Db.delivery_config hook) as [[|c cs]|]; try done.
  by destruct (JSON_parse (c :: cs)).
Qed.

(** X10. The hook detail never shows the owner's token: whatever the caller,
    the hook and the engine, the answer of [get] has no [api_key] field; and
    a stored [delivery_config] that [JSON.parse] refuses makes the owner's
    [get] answer 500 instead of the detail. *)
Theorem get_hook_hides_owner_token auth hookId w :
  (forall resp, (Hooks.get_hook auth hookId w).1 = Ok resp ->
     field (js "api_key") (payload resp) = None) /\
  (forall hook cfg,
     store_ok 1 w ->
     Db.hooks (store w) !! hookId = Some hook ->
     Db.api_key hook = token auth ->
     Db.delivery_config hook = Some cfg -> cfg ≠ [] ->
     JSON_parse cfg = None ->
     status_of (Hooks.get_hook auth hookId) w = Ok 500).
Proof.
  split.
  - intros resp.
    unfold Hooks.get_hook, try_catch, bind, lift, Hooks.parse_or_throw, ret, log.
    destruct (run_cases (Db.getHook hookId) w) as [(fs & _ & ->) | (_ & ->)].
    { by intros [= <-]. }
    simpl. destruct (Db.hooks (store w) !! hookId) as [hook|]; [|by intros [= <-]].
    destruct (negb _); [by intros [= <-]|].
    destruct (Db.delivery_config hook) as [[|c cs]|]; try by intros [= <-].
    destruct (JSON_parse (c :: cs)); by intros [= <-].
  - intros hook cfg Hok Hhook Hown Hcfg Hne Hparse. unfold status_of.
    rewrite (get_hook_owner auth hookId w hook) by done.
    rewrite Hcfg. destruct cfg as [|c cs]; [done|]. by rewrite Hparse.
Qed.

(** X11. Polling a hook one does not own answers 403, polling an unknown
    hook answers 404, and in both cases, whatever the engine does, the store
    is left as it was: nothing is marked delivered. *)
Theorem poll_refused_marks_nothing auth hookId r w :
  (Db.hooks (store w) !! hookId = None \/
   exists hook, Db.hooks (store w) !! hookId = Some hook /\
                Db.api_key hook ≠ token auth) ->
  store (Hooks.get_events auth hookId r w).2 = store w /\
  (store_ok 1 w ->
   status_of (Hooks.get_events auth hookId r) w =
     Ok (match Db.hooks (store w) !! hookId with Some _ => 403 | None => 404 end)).
Proof.
  intros Hcase. unfold status_of, Hooks.get_events, try_catch, bind, ret, log.
  split.
  - destruct (run_cases (Db.getHook hookId) w) as [(fs & _ & ->) | (_ & ->)];
      [done|]. simpl.
    destruct Hcase as [-> | (hook & -> & Hne)]; [by destruct w|].
    rewrite (eqb_false _ _ Hne). by destruct w.
  - intros Hok. rewrite (run_ok _ 0) by done. simpl.
    destruct Hcase as [-> | (hook & -> & Hne)]; [done|].
    by rewrite (eqb_false _ _ Hne).
Qed.


(** ** Creating and listing hooks *)

Import Registry.

(** The hook that [create_hook] inserts for a body. *)
Definition created_hook (auth : AuthContext) (body : CreateBody) (t : Z) : Db.Hook :=
  Db.mkHook (token auth) (or_null (body_name body)) (or_null (body_description body))
    (default (js "poll") (or_else (body_delivery_method body) (Some (js "poll"))))
    (match body_delivery_config body with
     | Some fields => Some (JSON_stringify (JObj fields))
     | None => None
     end)
    t None 0.

Lemma create_hook_fresh auth hookId body w :
  store_ok 1 w ->
  Db.hooks (store w) !! hookId = None ->
  exists resp w',
    create_hook auth hookId (Ok body) w = (Ok (resp, []), w') /\
    status resp = 201 /\
    field (js "id") (payload resp) = Some (JStr hookId) /\
    field (js "webhook_url") (payload resp) =
      Some (JStr (Hooks.publicUrl ++ js "/webhook/" ++ hookId)) /\
    field (js "delivery_method") (payload resp) =
      Some (JStr (Db.delivery_method (created_hook auth body (datetime_now w)))) /\
    Db.hooks (store w') =
      <[hookId := created_hook auth body (datetime_now w)]> (Db.hooks (store w)) /\
    Db.events (store w') = Db.events (store w) /\
    faults w' = tail (faults w).
Proof.
  intros Hok Hfresh. unfold create_hook, try_catch, bind.
  rewrite (run_ok _ 0) by done. unfold Db.createHook. rewrite Hfresh. simpl.
  eexists _, _. split; [reflexivity|]. by repeat split.
Qed.

(** The text of an object starts with a brace. *)
Lemma stringify_object_head fields :
  exists text, JSON_stringify (JObj fields) = 123%N :: text.
Proof. by eexists. Qed.

(** X12. A hook is created and read back: with a fresh id and an engine that
    fails nothing, [POST /hooks] answers 201 with the id and the webhook URL
    [{base}/webhook/{id}]; the owner's [get] then answers 200 with the same
    id and URL, the name, description and delivery method of the body
    (the method is [poll] when the body names none), the configuration as
    given (when [JSON.parse] reads back what [JSON.stringify] wrote), no
    trigger time and an event count of 0, while any other token gets 403. *)
Theorem create_then_get auth other hookId body w :
  faults w = [] ->
  Db.hooks (store w) !! hookId = None ->
  (forall fields, body_delivery_config body = Some fields ->
     JSON_parse (JSON_stringify (JObj fields)) = Some (JObj fields)) ->
  token other ≠ token auth ->
  exists resp w',
    create_hook auth hookId (Ok body) w = (Ok (resp, []), w') /\
    status resp = 201 /\
    field (js "id") (payload resp) = Some (JStr hookId) /\
    field (js "webhook_url") (payload resp) =
      Some (JStr (Hooks.publicUrl ++ js "/webhook/" ++ hookId)) /\
    (Hooks.get_hook auth hookId w').1 =
      Ok (hook_detail hookId (created_hook auth body (datetime_now w))
            (match body_delivery_config body with
             | Some fields => JObj fields
             | None => JNull
             end)) /\
    Db.delivery_method (created_hook auth body (datetime_now w)) =
      match body_delivery_method body with
      | Some (c :: m) => c :: m
      | _ => js "poll"
      end /\
    status_of (Hooks.get_hook other hookId) w' = Ok 403.
Proof.
  intros Hf Hfresh Hparse Hother.
  destruct (create_hook_fresh auth hookId body w (store_ok_nil 1 w Hf) Hfresh)
    as (resp & w' & Hrun & Hst & Hid & Hurl & _ & Hh & _ & Hf').
  exists resp, w'. do 4 (split; [done|]).
  assert (Hok' : store_ok 1 w').
  { apply store_ok_nil. by rewrite Hf', Hf. }
  assert (Hlook : Db.hooks (store w') !! hookId =
                  Some (created_hook auth body (datetime_now w))).
  { by rewrite Hh, lookup_insert_eq. }
  split; [|split].
  - rewrite (get_hook_owner auth hookId w' _ Hok' Hlook) by done.
    assert (Hdc : Db.delivery_config (created_hook auth body (datetime_now w)) =
                  match body_delivery_config body with
                  | Some fields => Some (JSON_stringify (JObj fields))
                  | None => None
                  end) by done.
    rewrite Hdc. destruct (body_delivery_config body) as [fields|] eqn:Hc; [|done].
    specialize (Hparse fields eq_refl).
    destruct (stringify_object_head fields) as [text Htext].
    rewrite Htext in *. by rewrite Hparse.
  - simpl. by destruct (body_delivery_method body) as [[|c m]|].
  - unfold status_of, Hooks.get_hook, try_catch, bind.
    rewrite (run_ok _ 0) by done. simpl. rewrite Hlook. simpl.
    by rewrite (eqb_false _ _ (not_eq_sym Hother)).
Qed.

(** X13. When the id drawn for a new hook is already taken, [POST /hooks]
    answers 500, logs the failure and leaves the store as it was: the
    existing hook keeps its owner and its settings.  A body that cannot be
    read is the empty body: the hook is created with the defaults. *)
Theorem create_hook_on_taken_id auth hookId parsed w hook :
  store_ok 1 w ->
  Db.hooks (store w) !! hookId = Some hook ->
  (create_hook auth hookId parsed w).1 =
    Ok (c_json [(js "error", JStr (js "Failed to create webhook endpoint"))] 500,
        [FailedToCreateHook]) /\
  store (create_hook auth hookId parsed w).2 = store w /\
  create_hook auth hookId Throw = create_hook auth hookId (Ok empty_body).
Proof.
  intros Hok Htaken. split; [|split; [|reflexivity]].
  - unfold create_hook, try_catch, bind.
    rewrite (run_ok _ 0) by done. unfold Db.createHook. by rewrite Htaken.
  - unfold create_hook, try_catch, bind.
    rewrite (run_ok _ 0) by done. unfold Db.createHook. by rewrite Htaken.
Qed.

#[local] Instance hook_newer_total : Total Db.hook_newer.
Proof. intros a b. unfold Db.hook_newer. lia. Qed.
#[local] Instance hook_newer_trans : Transitive Db.hook_newer.
Proof. intros a b c. unfold Db.hook_newer. lia. Qed.

(** X14. The list of hooks holds the hooks of the caller and no other: with
    an engine that does not fail the query, the answer is 200 with one entry
    for each hook whose owner is the caller's token, newest first, and no
    entry has an [api_key] or a [delivery_config] field; the store is not
    changed. *)
Theorem list_hooks_only_own auth w :
  store_ok 1 w ->
  exists rows,
    (list_hooks auth w).1 =
      Ok (c_json [(js "hooks", JArr (map hook_json rows))] 200, []) /\
    (forall id hook, (id, hook) ∈ rows <->
       Db.hooks (store w) !! id = Some hook /\ Db.api_key hook = token auth) /\
    NoDup rows.*1 /\
    StronglySorted Db.hook_newer rows /\
    (forall row, row ∈ rows ->
       field (js "api_key") (hook_json row) = None /\
       field (js "delivery_config") (hook_json row) = None /\
       field (js "id") (hook_json row) = Some (JStr (fst row))) /\
    store (list_hooks auth w).2 = store w.
Proof.
  intros Hok. unfold list_hooks, try_catch, bind.
  rewrite (run_ok _ 0) by done. simpl.
  eexists. split; [reflexivity|]. split; [|split; [|split; [|split]]].
  - intros id hook. rewrite merge_sort_Permutation, list_elem_of_filter.
    rewrite elem_of_map_to_list. simpl. by split; intros [? ?].
  - rewrite merge_sort_Permutation.
    eapply sublist_NoDup; [apply (NoDup_fst_map_to_list (Db.hooks (store w)))|].
    apply fmap_sublist, sublist_filter.
  - apply StronglySorted_merge_sort; apply _.
  - by intros [id hook] _.
  - by destruct w.
Qed.


(** ** The middleware and the cache *)

Definition unauthorized (message : jsstring) : response :=
  c_json [(js "error", JStr message)] 401.

(** X15. Without a bearer token there is no verification: a request with no
    [Authorization] header, or one that does not start with [Bearer ], is
    answered 401 "Missing or invalid Authorization header", and one that is
    [Bearer ] followed by nothing is answered 401 "API token required"; in
    each case the world is left as it is, so the authority is not called,
    and the route handler does not run. *)
Theorem middleware_needs_bearer_token r next w :
  (req_header (js "Authorization") r = None ->
     authMiddleware r next w =
       (Ok (unauthorized (js "Missing or invalid Authorization header")), w)) /\
  (forall v, req_header (js "Authorization") r = Some v ->
     startsWith (js "Bearer ") v = false ->
     authMiddleware r next w =
       (Ok (unauthorized (js "Missing or invalid Authorization header")), w)) /\
  (req_header (js "Authorization") r = Some (js "Bearer ") ->
     authMiddleware r next w = (Ok (unauthorized (js "API token required")), w)).
Proof.
  unfold authMiddleware. split; [|split].
  - by intros ->.
  - intros v -> Hs. rewrite Hs. by rewrite andb_false_r.
  - by intros ->.
Qed.

(** X16. A token the authority rejects is answered 401 with the authority's
    own error message, or "Invalid token" when it gives none or an empty one;
    the route handler does not run, and nothing is cached. *)
Theorem rejected_token_is_unauthorized r next w tok data t :
  req_header (js "Authorization") r = Some (js "Bearer " ++ tok) ->
  tok ≠ [] ->
  fresh_entry tok w = None ->
  fetch_verify tok (js "webhook_access") (now w) = (Ok data, t) ->
  valid data = false ->
  authMiddleware r next w =
    (Ok (unauthorized (match error data with
                       | Some (c :: msg) => c :: msg
                       | _ => js "Invalid token"
                       end)),
     after_fetch tok (js "webhook_access") t w) /\
  tokenCache (authMiddleware r next w).2 = tokenCache w.
Proof.
  intros Hhdr Htok Hfresh Hfetch Hinvalid.
  rewrite (authMiddleware_bearer _ _ _ tok) by done.
  rewrite verifyToken_miss, verify_uncached_spec, Hfetch, Hinvalid by done.
  split; [|done]. by destruct (error data) as [[|c msg]|].
Qed.

(** X17. A cached result is served only while the clock is below its expiry:
    at the expiry or after it, the token is verified with the authority
    again, one call; a valid answer replaces the entry and is good for 60
    seconds from the time it arrives, an invalid answer is returned and the
    stale entry stays as it was. *)
Theorem expired_entry_is_verified_again tok operation w result expires :
  tok ≠ [] ->
  tokenCache w !! tok = Some (result, expires) ->
  expires <= now w ->
  let res := verifyToken tok operation w in
  fetches res.2 = fetches w ++ [(tok, operation)] /\
  (forall data t,
     fetch_verify tok operation (now w) = (Ok data, t) ->
     res.1 = Ok data /\
     (valid data = true ->
        tokenCache res.2 !! tok = Some (data, t + TOKEN_CACHE_TTL)) /\
     (valid data = false ->
        tokenCache res.2 !! tok = Some (result, expires))).
Proof.
  intros Htok Hentry Hexp res. subst res.
  assert (Hfresh : fresh_entry tok w = None).
  { unfold fresh_entry. rewrite Hentry.
    by rewrite (proj2 (Z.ltb_ge _ _) Hexp). }
  rewrite verifyToken_miss, verify_uncached_spec by done.
  destruct (fetch_verify tok operation (now w)) as [[data'|] t'] eqn:Hfetch.
  - split; [by destruct (valid data')|].
    intros data t [= <- <-]. split; [done|].
    split; intros Hv; rewrite Hv; simpl; [by rewrite lookup_insert_eq|done].
  - split; [done|]. by intros data t.
Qed.

(** X18. Verifying a token touches nothing but the entry of that token: the
    entry of every other token is as it was, and so are the store and the
    plan of the engine. *)
Theorem verifyToken_touches_own_entry_only tok tok' operation w :
  tok' ≠ tok ->
  tokenCache (verifyToken tok operation w).2 !! tok' = tokenCache w !! tok' /\
  store (verifyToken tok operation w).2 = store w /\
  faults (verifyToken tok operation w).2 = faults w.
Proof.
  intros Hne. split; [|apply verifyToken_store].
  destruct tok as [|c cs]; [done|].
  destruct (fresh_entry (c :: cs) w) as [res|] eqn:Hfresh.
  - by rewrite (verifyToken_hit _ _ _ res).
  - rewrite verifyToken_miss, verify_uncached_spec by done.
    destruct (fetch_verify _ _ _) as [[data|] t]; [|done].
    destruct (valid data); simpl; [|done].
    by rewrite lookup_insert_ne.
Qed.


(** ** More on polling *)

(** X19. A poll with [mark_delivered=false] only reads: whatever the other
    parameters, the caller and the engine, the store is left as it was. *)
Theorem poll_without_marking_is_read_only auth hookId r w :
  req_query_get (js "mark_delivered") r = Some (js "false") ->
  store (Hooks.get_events auth hookId r w).2 = store w.
Proof.
  intros Hq.
  assert (Hm : Hooks.markDelivered_of r = false).
  { unfold Hooks.markDelivered_of. by rewrite Hq. }
  set (Q := fun (_ : outcome response) (w' : world) => store w' = store w).
  change (wp (Hooks.get_events auth hookId r) Q w).
  assert (Hcatch : forall w1, store w1 = store w ->
     wp (log FailedToGetEvents ;;
         ret (c_json [(js "error", JStr (js "Failed to get events"))] 500)) Q w1).
  { intros w1 H1. by apply wp_bind, wp_log, wp_ret. }
  unfold Hooks.get_events. rewrite Hm.
  apply wp_try_catch, wp_bind, wp_run; intros fs; [by apply Hcatch|].
  simpl. destruct (Db.hooks (store w) !! hookId) as [hook|]; [|by apply wp_ret].
  destruct (negb _); [by apply wp_ret|].
  apply wp_bind.
  assert (Hrows : wp
    (if Hooks.undeliveredOnly_of r
     then run (Db.getUndeliveredEvents hookId (Hooks.limit_of r))
     else run (Db.getEvents hookId (Hooks.limit_of r)))
    (fun _ w2 => store w2 = store w)
    (set_faults fs (set_store (store w) w))).
  { destruct (Hooks.undeliveredOnly_of r); by apply wp_run. }
  eapply wp_mono; [|exact Hrows].
  intros [rows|] w2 H2; [|by apply Hcatch].
  apply wp_bind, wp_ret, wp_bind, wp_lift.
  destruct (map_throw Hooks.event_json rows); [by apply wp_ret|by apply Hcatch].
Qed.

(** The rows a poll reads from the store. *)
Definition poll_rows (hookId : jsstring) (r : request) (w : world)
    : list (jsstring * Db.Event) :=
  match (poll_query (Hooks.undeliveredOnly_of r) hookId (Hooks.limit_of r)
                    (datetime_now w) (store w)).1 with
  | Ok rows => rows
  | Throw => []
  end.

Lemma map_throw_length {A B} (f : A -> outcome B) l ys :
  map_throw f l = Ok ys -> length ys = length l.
Proof.
  revert ys. induction l as [|x l IH]; intros ys; simpl; [by intros [= <-]|].
  destruct (f x); [|done]. destruct (map_throw f l) as [ys'|]; [|done].
  intros [= <-]. simpl. by rewrite (IH ys').
Qed.

Lemma poll_rows_within_limit hookId r w l :
  Hooks.limit_of r = Some l -> 0 <= l ->
  poll_query (Hooks.undeliveredOnly_of r) hookId (Hooks.limit_of r)
             (datetime_now w) (store w) = (Ok (poll_rows hookId r w), store w).
Proof.
  intros Hl Hpos. unfold poll_rows. rewrite Hl.
  destruct (poll_query_within_limit (Hooks.undeliveredOnly_of r) hookId l
              (datetime_now w) (store w) Hpos) as (rows & -> & _).
  done.
Qed.

(** X20. A poll with a limit that is not negative lists what it should: the
    owner is answered 200; [count] is the number of events listed, it is at
    most the limit, and the limit is at most 100; [has_more] is true exactly
    when [count] equals the limit; the events are those of the hook, only
    undelivered ones when [undelivered=true], oldest first then and newest
    first otherwise; and none is left out unless the limit is reached. *)
Theorem poll_lists_within_limit auth hookId r w hook l :
  faults w = [] ->
  Db.hooks (store w) !! hookId = Some hook ->
  Db.api_key hook = token auth ->
  Hooks.limit_of r = Some l ->
  0 <= l ->
  (forall id e, Db.events (store w) !! id = Some e ->
                Db.hook_id e = hookId -> renderable e) ->
  let rows := poll_rows hookId r w in
  exists items,
    (Hooks.get_events auth hookId r w).1 =
      Ok (c_json [(js "events", JArr items);
                  (js "count", JNum (Z.of_nat (length rows)));
                  (js "has_more", JBool (Z.of_nat (length rows) =? l))] 200) /\
    map_throw Hooks.event_json rows = Ok items /\
    length items = length rows /\
    Z.of_nat (length rows) <= l /\ l <= 100 /\
    StronglySorted (poll_order (Hooks.undeliveredOnly_of r)) rows /\
    (forall id e, (id, e) ∈ rows ->
       Db.events (store w) !! id = Some e /\ Db.hook_id e = hookId /\
       (Hooks.undeliveredOnly_of r = true -> Db.delivered_at e = None)) /\
    (Z.of_nat (length rows) < l ->
     forall id e, Db.events (store w) !! id = Some e -> Db.hook_id e = hookId ->
       (Hooks.undeliveredOnly_of r = true -> Db.delivered_at e = None) ->
       (id, e) ∈ rows).
Proof.
  intros Hf Hhook Hown Hl Hpos Hrender rows.
  pose proof (poll_rows_within_limit hookId r w l Hl Hpos) as Hq. fold rows in Hq.
  destruct (poll_query_within_limit (Hooks.undeliveredOnly_of r) hookId l
              (datetime_now w) (store w) Hpos) as (rows' & Hq' & Hin & Hsort & Hlen & Hall).
  rewrite Hl in Hq. rewrite Hq in Hq'. injection Hq' as <-.
  destruct (map_throw_ok Hooks.event_json rows) as (items & Hitems & _).
  { intros [id e] Hie. destruct (Hin id e Hie) as (Hlk & Hh & _).
    destruct (event_json_renderable id e (Hrender id e Hlk Hh)) as (hs & qp & Hj).
    by eexists. }
  exists items.
  rewrite (get_events_no_faults auth hookId r w hook rows items);
    [|done|done|done|by rewrite Hl|done].
  rewrite Hl. simpl.
  split; [done|]. split; [done|].
  split; [by apply map_throw_length in Hitems|].
  split; [done|]. split; [by apply (limit_of_capped r)|]. done.
Qed.

(** The store a poll leaves when the engine fails nothing and the caller
    owns the hook, whether or not the rows can be rendered. *)
Lemma get_events_store auth hookId r w hook rows :
  faults w = [] ->
  Db.hooks (store w) !! hookId = Some hook ->
  Db.api_key hook = token auth ->
  poll_query (Hooks.undeliveredOnly_of r) hookId (Hooks.limit_of r)
             (datetime_now w) (store w) = (Ok rows, store w) ->
  store (Hooks.get_events auth hookId r w).2 =
    if Hooks.markDelivered_of r
    then Db.mkDb (Db.hooks (store w))
                 (marked (datetime_now w) rows (Db.events (store w)))
    else store w.
Proof.
  intros Hf Hhook Hown Hq.
  unfold Hooks.get_events, try_catch, bind.
  rewrite run_no_faults by done. simpl. rewrite Hhook, set_store_id.
  rewrite Hown, eqb_refl. simpl.
  assert (Hrun : (if Hooks.undeliveredOnly_of r
                  then run (Db.getUndeliveredEvents hookId (Hooks.limit_of r))
                  else run (Db.getEvents hookId (Hooks.limit_of r))) w = (Ok rows, w)).
  { unfold poll_query in Hq.
    destruct (Hooks.undeliveredOnly_of r); rewrite run_no_faults by done;
      rewrite Hq; simpl; by rewrite set_store_id. }
  rewrite Hrun.
  destruct (Hooks.markDelivered_of r) eqn:Hm; cbn [andb].
  - destruct (decide (rows = [])) as [->|Hne].
    + simpl. rewrite db_eta. by destruct w.
    + rewrite bool_decide_eq_false_2 by done. cbn [negb].
      rewrite mark_loop_no_faults by done. unfold lift.
      by destruct (map_throw Hooks.event_json rows).
  - unfold ret, lift. by destruct (map_throw Hooks.event_json rows).
Qed.


(** After a poll that marks, every row it read has a delivery time. *)
Lemma poll_marks_rows auth hookId r w hook l :
  faults w = [] ->
  Db.hooks (store w) !! hookId = Some hook ->
  Db.api_key hook = token auth ->
  Hooks.limit_of r = Some l ->
  0 <= l ->
  Hooks.markDelivered_of r = true ->
  forall id e, (id, e) ∈ poll_rows hookId r w ->
    exists e1, Db.events (store (Hooks.get_events auth hookId r w).2) !! id = Some e1 /\
               Db.delivered_at e1 ≠ None.
Proof.
  intros Hf Hhook Hown Hl Hpos Hm id e Hie.
  pose proof (poll_rows_within_limit hookId r w l Hl Hpos) as Hq.
  rewrite (get_events_store auth hookId r w hook (poll_rows hookId r w)) by done.
  rewrite Hm. simpl.
  destruct (poll_query_within_limit (Hooks.undeliveredOnly_of r) hookId l
              (datetime_now w) (store w) Hpos) as (rows' & Hq' & Hin & _).
  rewrite Hl in Hq. rewrite Hq in Hq'. injection Hq' as <-.
  destruct (Hin id e Hie) as (Hlook & _).
  rewrite marked_lookup, Hlook. case_bool_decide as Hmark; simpl.
  - by eexists.
  - exists e. split; [done|]. intros Hd. apply Hmark, elem_of_to_mark. eauto.
Qed.


(** X21. A poll that marks changes [delivered_at] and nothing else: with the
    engine failing nothing and a limit that is not negative, every event the
    poll read with no delivery time has, afterwards, the second of the poll
    as its delivery time and its other columns as before; every other event
    is unchanged; no event is added or removed, and the hooks are as they
    were. *)
Theorem poll_marks_exactly_what_it_read auth hookId r w hook l :
  faults w = [] ->
  Db.hooks (store w) !! hookId = Some hook ->
  Db.api_key hook = token auth ->
  Hooks.limit_of r = Some l ->
  0 <= l ->
  Hooks.markDelivered_of r = true ->
  let rows := poll_rows hookId r w in
  let w' := (Hooks.get_events auth hookId r w).2 in
  (forall id e, (id, e) ∈ rows -> Db.delivered_at e = None ->
     Db.events (store w') !! id =
       Some (Db.set_delivered_at (Some (datetime_now w)) e)) /\
  (forall id, (forall e, (id, e) ∈ rows -> Db.delivered_at e ≠ None) ->
     Db.events (store w') !! id = Db.events (store w) !! id) /\
  (forall id, is_Some (Db.events (store w') !! id) <->
              is_Some (Db.events (store w) !! id)) /\
  Db.hooks (store w') = Db.hooks (store w).
Proof.
  intros Hf Hhook Hown Hl Hpos Hm rows w'. subst w'.
  pose proof (poll_rows_within_limit hookId r w l Hl Hpos) as Hq. fold rows in Hq.
  rewrite (get_events_store auth hookId r w hook rows) by done.
  rewrite Hm. simpl.
  destruct (poll_query_within_limit (Hooks.undeliveredOnly_of r) hookId l
              (datetime_now w) (store w) Hpos) as (rows' & Hq' & Hin & _).
  rewrite Hl in Hq. rewrite Hq in Hq'. injection Hq' as <-.
  split; [|split; [|split; [|done]]].
  - intros id e Hie Hd. rewrite marked_lookup.
    rewrite bool_decide_eq_true_2 by (apply elem_of_to_mark; eauto).
    destruct (Hin id e Hie) as (-> & _). done.
  - intros id Hnone. rewrite marked_lookup.
    rewrite bool_decide_eq_false_2; [done|].
    intros (e & Hie & Hd)%elem_of_to_mark. by apply (Hnone e).
  - intros id. rewrite marked_lookup. case_bool_decide; [|done].
    by rewrite fmap_is_Some.
Qed.

(** X22. Events are handed out once to a consumer that polls for undelivered
    events: an event read by a poll that marks is not read again by any
    later poll with [undelivered=true], whatever that later poll's limit and
    whenever it runs. *)
Theorem undelivered_polls_do_not_repeat auth hookId r r' w hook l t :
  faults w = [] ->
  Db.hooks (store w) !! hookId = Some hook ->
  Db.api_key hook = token auth ->
  Hooks.limit_of r = Some l ->
  0 <= l ->
  Hooks.markDelivered_of r = true ->
  Hooks.undeliveredOnly_of r' = true ->
  let w' := set_now t (Hooks.get_events auth hookId r w).2 in
  forall id e e', (id, e) ∈ poll_rows hookId r w ->
                  (id, e') ∉ poll_rows hookId r' w'.
Proof.
  intros Hf Hhook Hown Hl Hpos Hm Hund w' id e e' Hie Hie'.
  destruct (poll_marks_rows auth hookId r w hook l Hf Hhook Hown Hl Hpos Hm id e Hie)
    as (e1 & Hlook & Hd1).
  unfold poll_rows, poll_query in Hie'. rewrite Hund in Hie'.
  destruct (Db.getUndeliveredEvents hookId (Hooks.limit_of r') (datetime_now w') (store w'))
    as [[rows'|] d'] eqn:Hq'; simpl in Hie'; [|by apply elem_of_nil in Hie'].
  apply getUndeliveredEvents_rows in Hq' as [_ Hrows'].
  destruct (Hrows' id e' Hie') as (Hlook' & _ & Hd').
  subst w'. simpl in Hlook'. rewrite Hlook in Hlook'. by injection Hlook' as <-.
Qed.


(** ** The retention sweep *)

Import Reaper.

(** Seven days, in seconds. *)
Definition retention : Z := 7 * 86400.

Lemma sweep_run w :
  store_ok 1 w ->
  sweep w =
    (Ok (if (Db.deleteOldEvents (datetime_now w) (store w)).1 is Ok n
         then (if n >? 0 then [CleanedUp n] else []) else []),
     set_faults (tail (faults w))
       (set_store (Db.deleteOldEvents (datetime_now w) (store w)).2 w)).
Proof.
  intros Hok. unfold sweep, cleanupOldEvents, bind. by rewrite (run_ok _ 0).
Qed.

(** X23. A sweep removes the events received more than seven days before the
    current second and no other, whether they were delivered or not; the
    events it keeps are unchanged, and so are the hooks, whose event counts
    are not lowered.  It writes the number removed to the console when that
    number is not zero. *)
Theorem sweep_removes_old_events w :
  store_ok 1 w ->
  let res := sweep w in
  let removed := Z.of_nat (size (Db.events (store w)))
                 - Z.of_nat (size (Db.events (store res.2))) in
  (forall id e,
     Db.events (store res.2) !! id = Some e <->
     Db.events (store w) !! id = Some e /\
     datetime_now w - retention <= Db.received_at e) /\
  Db.hooks (store res.2) = Db.hooks (store w) /\
  0 <= removed /\
  res.1 = Ok (if removed >? 0 then [CleanedUp removed] else []).
Proof.
  intros Hok res removed. subst removed res. rewrite sweep_run by done. simpl.
  split; [|split; [done|split; [|done]]].
  - intros id e. rewrite map_lookup_filter_Some. simpl. unfold retention.
    split; intros [? ?]; (split; [done|lia]).
  - pose proof (map_size_filter
      (fun r : jsstring * Db.Event =>
         ¬ Db.received_at (snd r) < datetime_now w - 7 * 86400)
      (Db.events (store w))). lia.
Qed.

(** X24. A second sweep at the same clock finds nothing to remove: the store
    is left as the first sweep left it and nothing is written. *)
Theorem sweep_again_removes_nothing w :
  store_ok 2 w ->
  let w1 := (sweep w).2 in
  (sweep (set_now (now w) w1)).1 = Ok [] /\
  store (sweep (set_now (now w) w1)).2 = store w1.
Proof.
  intros Hok w1. subst w1.
  rewrite (sweep_run w) by (intros i Hi; apply Hok; lia). simpl.
  rewrite sweep_run by (by apply (store_ok_tail 1)). simpl.
  assert (Hidem :
    filter (fun r : jsstring * Db.Event =>
              ¬ Db.received_at (snd r) < datetime_now w - 7 * 86400)
      (filter (fun r : jsstring * Db.Event =>
                 ¬ Db.received_at (snd r) < datetime_now w - 7 * 86400)
         (Db.events (store w))) =
    filter (fun r : jsstring * Db.Event =>
              ¬ Db.received_at (snd r) < datetime_now w - 7 * 86400)
      (Db.events (store w))).
  { apply map_eq. intros id. apply option_eq. intros e.
    rewrite !map_lookup_filter_Some. tauto. }
  match goal with |- context [datetime_now (set_now (now w) ?x)] =>
    change (datetime_now (set_now (now w) x)) with (datetime_now w) end.
  rewrite Hidem. split; [|done].
  by rewrite Z.sub_diag.
Qed.


(** ** The limit of a poll *)

Definition is_digit (c : N) : Prop := (48 <= c <= 57)%N.

Lemma is_digit_cases c :
  is_digit c ->
  c ∈ [48; 49; 50; 51; 52; 53; 54; 55; 56; 57]%N.
Proof.
  unfold is_digit. intros Hc. rewrite !elem_of_cons.
  assert (c = 48 \/ c = 49 \/ c = 50 \/ c = 51 \/ c = 52 \/ c = 53 \/ c = 54 \/
          c = 55 \/ c = 56 \/ c = 57)%N by lia.
  tauto.
Qed.

Lemma is_digit_mod n : is_digit (48 + n mod 10).
Proof.
  unfold is_digit. pose proof (N.mod_upper_bound n 10 ltac:(lia)) as Hb.
  revert Hb. generalize (n mod 10)%N. intros x Hx. lia.
Qed.

Lemma digits_go_all_digits fuel n acc :
  Forall is_digit acc ->
  Forall is_digit (digits_go fuel n acc) /\ digits_go fuel n acc ≠ [].
Proof.
  revert n acc. induction fuel as [|fuel IH]; intros n acc Hacc.
  - simpl. split; [|done]. constructor; [apply is_digit_mod|done].
  - simpl. assert (Hacc' : Forall is_digit ((48 + n mod 10)%N :: acc)).
    { constructor; [apply is_digit_mod|done]. }
    destruct (n <? 10)%N; [by split|]. by apply IH.
Qed.

(** [parseInt] on a text made of decimal digits reads the digits. *)
Lemma parseInt_of_digits s :
  s ≠ [] -> Forall is_digit s ->
  parseInt s = Z.of_N <$> parse_digits 10 s None.
Proof.
  intros Hne Hall. destruct s as [|c r]; [done|].
  apply Forall_cons in Hall as [Hc Hr].
  assert (Hfinish : forall s', (let '(sign, s2) := (1, s') in
                       match parse_digits 10 s2 None with
                       | Some n => Some (sign * Z.of_N n)
                       | None => None
                       end) = Z.of_N <$> parse_digits 10 s' None).
  { intros s'. simpl. destruct (parse_digits 10 s' None) as [n|]; simpl; [|done].
    f_equal. lia. }
  apply is_digit_cases in Hc. rewrite !elem_of_cons in Hc.
  destruct Hc as [->|[->|[->|[->|[->|[->|[->|[->|[->|[->|Hc]]]]]]]]]];
    try (by apply elem_of_nil in Hc);
    try (unfold parseInt; simpl trimStart; cbv iota beta;
         destruct (parse_digits 10 _ None); simpl; [f_equal; lia|done]).
  destruct r as [|d r'].
  - reflexivity.
  - apply Forall_cons in Hr as [Hd _].
    apply is_digit_cases in Hd. rewrite !elem_of_cons in Hd.
    destruct Hd as [->|[->|[->|[->|[->|[->|[->|[->|[->|[->|Hd]]]]]]]]]];
      try (by apply elem_of_nil in Hd);
      unfold parseInt; simpl trimStart; cbv iota beta;
      destruct (parse_digits 10 _ None); simpl; (f_equal; lia) || done.
Qed.

(** X25. The limit of a poll: 50 when the request gives none or an empty
    one; for a limit written in decimal digits, the number written, or 100
    when that is more; and never more than 100, whatever is written. *)
Theorem limit_of_request r :
  (req_query_get (js "limit") r = None \/ req_query_get (js "limit") r = Some []
   -> Hooks.limit_of r = Some 50) /\
  (forall n, req_query_get (js "limit") r = Some (digits n) ->
     Hooks.limit_of r = Some (Z.min (Z.of_N n) 100)) /\
  (forall l, Hooks.limit_of r = Some l -> l <= 100).
Proof.
  split; [|split].
  - unfold Hooks.limit_of. by intros [-> | ->].
  - intros n Hq. unfold Hooks.limit_of. rewrite Hq.
    destruct (digits_go_all_digits (N.to_nat (N.log2 n)) n [] (Forall_nil_2 _))
      as [Hall Hne]. fold (digits n) in Hall, Hne.
    assert (Hor : or_else (Some (digits n)) (Some (js "50")) = Some (digits n)).
    { unfold or_else, truthy. by destruct (digits n). }
    rewrite Hor. simpl default.
    by rewrite parseInt_of_digits, digits_reads_back.
  - apply limit_of_capped.
Qed.


End Extras.


(** * Concrete runs *)

Module Demo.

Import Webhook.

(** A platform for the runs below: [JSON.parse] knows the empty object,
    [null] and anything that starts with a brace; the authority accepts the token
    [good], cannot be reached for the token [down] and rejects the rest. *)
#[local] Instance platform : Platform := {|
  JSON_parse := fun s =>
    if bool_decide (s = js "{}") then Some (JObj [])
    else if bool_decide (s = js "null") then Some JNull
    else if startsWith (js "{") s then Some (JStr s)
    else None;
  fetch_verify := fun tok op t =>
    if bool_decide (tok = js "good")
    then (Ok (mkValidation true (Some (js "u1")) None (Some 5) None), t + 20)
    else if bool_decide (tok = js "down") then (Throw, t + 1000)
    else (Ok (mkValidation false None None None (Some (js "Unknown token"))), t + 20);
  PUBLIC_URL := None
|}.

Definition hook1 : jsstring := js "hook00000001".
Definition event1 : jsstring := js "ev00000000000001".

(** A poll hook owned by the token [good]. *)
Definition poll_hook : Db.Hook :=
  Db.mkHook (js "good") None None (js "poll") None 10 None 0.

(** A store with that hook and no event, at clock 1000000 ms. *)
Definition w0 : world :=
  mkWorld (Db.mkDb {[ hook1 := poll_hook ]} ∅) ∅ 1000000 [] [] [].

(** [POST] of the JSON body [{}]. *)
Definition post_json : request :=
  mkRequest (js "POST") [(js "content-type", js "application/json")] []
            (Ok [x7b; x7d]).

(** The world after that [POST] on [hook1]. *)
Definition w1 : world := (webhook_all event1 hook1 post_json w0).2.

Lemma ingest_always_acknowledges_witness :
  exists resp w',
    webhook_all event1 hook1 post_json w0 = (Ok resp, w') /\
    field (js "event_id") (payload resp) = Some (JStr event1) /\
    exists e, Db.events (store w') !! event1 = Some e /\
              Db.hook_id e = hook1 /\ Db.body e = stored_body post_json.
Proof.
  destruct (ingest_always_acknowledges event1 hook1 post_json w0)
    as (resp & w' & Heq & _ & _ & _ & Hstored).
  exists resp, w'. split; [exact Heq|].
  apply Hstored.
  - vm_compute. eauto.
  - vm_compute. reflexivity.
  - apply store_ok_nil. reflexivity.
Defined.

Lemma markDelivered_sets_current_time_witness :
  delivered_of event1
    (run (Db.markEventsDelivered event1)
       (set_now 1005000 (run (Db.markEventsDelivered event1) w1).2)).2
  = Some (Some 1005).
Proof.
  refine (proj1 (proj2 (proj2 (proj2
    (markDelivered_sets_current_time event1
       (new_event hook1 post_json 1000) w1 1005000 _ _))))).
  - vm_compute. reflexivity.
  - vm_compute. reflexivity.
Defined.

(** C1 as stated fails: a second call five seconds later replaces the
    value set by the first call. *)
Lemma markDelivered_twice_counterexample :
  let wa := (run (Db.markEventsDelivered event1) w1).2 in
  let wb := (run (Db.markEventsDelivered event1) (set_now 1005000 wa)).2 in
  delivered_of event1 wa = Some (Some 1000) /\
  delivered_of event1 wb = Some (Some 1005) /\
  delivered_of event1 wb <> delivered_of event1 wa.
Proof. vm_compute. repeat split; congruence. Qed.

(** A body of [n] times the letter e with an acute accent, two bytes each
    in UTF-8. *)
Fixpoint e_acutes (n : nat) : list byte :=
  match n with
  | O => []
  | S k => xc3 :: xa9 :: e_acutes k
  end.

Lemma e_acutes_length n : length (e_acutes n) = (2 * n)%nat.
Proof. induction n as [|n IH]; simpl; lia. Qed.

Lemma text_e_acutes n : Utf8.text (e_acutes n) = replicate n 233%N.
Proof.
  unfold Utf8.text.
  assert (Hbom : Utf8.skip_bom (map Byte.to_N (e_acutes n)) = map Byte.to_N (e_acutes n)).
  { by destruct n. }
  rewrite Hbom. induction n as [|n IH]; [done|].
  change (map Byte.to_N (e_acutes (S n)))
    with (195%N :: 169%N :: map Byte.to_N (e_acutes n)).
  change (Utf8.decode None (195%N :: 169%N :: map Byte.to_N (e_acutes n)))
    with (233%N :: Utf8.decode None (map Byte.to_N (e_acutes n))).
  rewrite IH; [done|by destruct n].
Qed.

Lemma e_acutes_text_length n : str_length (Utf8.text (e_acutes n)) = Z.of_nat n.
Proof. rewrite text_e_acutes. unfold str_length. by rewrite length_replicate. Qed.

(** [POST] of 51201 accented letters, 102402 bytes, and of 102401 accented
    letters, 204802 bytes. *)
Definition post_mid : request :=
  mkRequest (js "POST") [] [] (Ok (e_acutes (Z.to_nat 51201))).
Definition post_big : request :=
  mkRequest (js "POST") [] [] (Ok (e_acutes (Z.to_nat 102401))).

Lemma long_body_is_truncated_witness :
  stored_body post_big =
    Some (JSON_stringify (truncation_marker (Utf8.text (e_acutes (Z.to_nat 102401))))) /\
  field (js "_original_size") (truncation_marker (Utf8.text (e_acutes (Z.to_nat 102401)))) =
    Some (JNum (str_length (Utf8.text (e_acutes (Z.to_nat 102401))))) /\
  stored_body post_big ≠ Some (Utf8.text (e_acutes (Z.to_nat 102401))) /\
  stored_body post_json = Some (js "{}").
Proof.
  destruct (long_body_is_truncated post_big (e_acutes (Z.to_nat 102401))) as (Hlong & _);
    [left|reflexivity|].
  destruct Hlong as (Hs & _ & Ho & _ & _ & _ & Hne).
  { rewrite e_acutes_text_length. unfold MAX_BODY_SIZE. lia. }
  split; [exact Hs|]. split; [exact Ho|]. split; [exact Hne|].
  refine (proj1 (proj2 (long_body_is_truncated post_json [x7b; x7d] _ _)) _).
  - left.
  - reflexivity.
  - vm_compute. discriminate.
Defined.

(** C5. The claim fails on the code for a body that is not ASCII: the
    ceiling, which the comment on [MAX_BODY_SIZE] gives as 100KB, is compared
    with [rawBody.length], the number of UTF-16 code units of the text.  A
    POST body of 51201 accented letters is 102402 bytes long, over 100 KB;
    its text has 51201 code units and the receiver stores it whole in the
    row of the event.  A POST body of 102401 accented letters is 204802
    bytes long; it is truncated, and [_original_size] is 102401, the number
    of code units, not the number of bytes. *)
Theorem original_size_counts_code_units :
  let big := e_acutes (Z.to_nat 102401) in
  let mid := e_acutes (Z.to_nat 51201) in
  Z.of_nat (length mid) = 102402 /\
  MAX_BODY_SIZE < Z.of_nat (length mid) /\
  stored_body post_mid = Some (Utf8.text mid) /\
  Db.body <$> Db.events (store (webhook_all event1 hook1 post_mid w0).2) !! event1 =
    Some (Some (Utf8.text mid)) /\
  Z.of_nat (length big) = 204802 /\
  stored_body post_big =
    Some (JSON_stringify (truncation_marker (Utf8.text big))) /\
  field (js "_original_size") (truncation_marker (Utf8.text big)) = Some (JNum 102401).
Proof.
  intros big mid.
  assert (Hbig : str_length (Utf8.text big) = 102401).
  { subst big. rewrite e_acutes_text_length. lia. }
  assert (Hmid : str_length (Utf8.text mid) = 51201).
  { subst mid. rewrite e_acutes_text_length. lia. }
  assert (Hpost : js "POST" ∈ [js "POST"; js "PUT"; js "PATCH"]) by left.
  pose proof (stored_body_read post_big big Hpost eq_refl) as Hsbig.
  pose proof (stored_body_read post_mid mid Hpost eq_refl) as Hsmid.
  rewrite Hbig in Hsbig. rewrite Hmid in Hsmid.
  destruct (truncation_marker_fields (Utf8.text big)) as (_ & Ho & _).
  rewrite Hbig in Ho.
  assert (Hlen : Z.of_nat (length mid) = 102402).
  { subst mid. rewrite e_acutes_length. lia. }
  split; [exact Hlen|]. split; [rewrite Hlen; unfold MAX_BODY_SIZE; lia|].
  split; [exact Hsmid|].
  split.
  { rewrite webhook_all_body.
    - by rewrite Hsmid.
    - vm_compute. eauto.
    - vm_compute. reflexivity.
    - apply store_ok_nil. reflexivity. }
  split; [subst big; rewrite e_acutes_length; lia|].
  split; [exact Hsbig|exact Ho].
Qed.



(** The owner of [hook1] and another authenticated caller. *)
Definition owner : AuthContext := mkAuth (js "good") (Some (js "u1")) None 5.
Definition stranger : AuthContext := mkAuth (js "other") (Some (js "u2")) None 5.

Lemma get_forbidden_delete_not_found_witness :
  status_of (Hooks.get_hook stranger hook1) w0 = Ok 403 /\
  status_of (Hooks.delete_hook stranger hook1) w0 = Ok 404 /\
  store (Hooks.delete_hook stranger hook1 w0).2 = store w0.
Proof.
  refine (proj1 (get_forbidden_delete_not_found stranger hook1 w0) poll_hook _ _ _).
  - apply store_ok_nil. reflexivity.
  - vm_compute. reflexivity.
  - vm_compute. discriminate.
Defined.

(** A verification of the token [good] at [w0] goes to the authority and is
    cached; 59.999 seconds after the answer, a second verification is served
    from the cache. *)
Lemma positive_results_cached_negative_never_witness :
  let wv := (Auth.verifyToken (js "good") (js "webhook_access") w0).2 in
  Auth.verifyToken (js "good") (js "webhook_access") (set_now (now wv + 59999) wv) =
    (Ok (mkValidation true (Some (js "u1")) None (Some 5) None),
     set_now (now wv + 59999) wv).
Proof.
  intros wv.
  assert (Hne : js "good" ≠ []) by discriminate.
  assert (Hfresh : fresh_entry (js "good") w0 = None) by reflexivity.
  destruct (positive_results_cached_negative_never
              (js "good") (js "webhook_access") (js "webhook_access") w0 Hne Hfresh)
    as (Hhit & _).
  destruct (Hhit (mkValidation true (Some (js "u1")) None (Some 5) None))
    as (_ & Hagain).
  - vm_compute. reflexivity.
  - reflexivity.
  - apply Hagain.
    + reflexivity.
    + vm_compute. reflexivity.
Defined.

(** A request that carries the token [down], for which the authority
    cannot be reached. *)
Definition get_down : request :=
  mkRequest (js "GET") [(js "Authorization", js "Bearer down")] [] (Ok []).

Lemma authority_failure_is_auth_failure_witness :
  (Hooks.GET_hook hook1 get_down w0).1 =
    Ok (c_json [(js "error", JStr (js "Authentication service unavailable"))] 401).
Proof.
  unfold Hooks.GET_hook.
  rewrite (proj2 (proj2 (authority_failure_is_auth_failure
             (js "down") (js "webhook_access") w0 get_down
             (fun auth => Hooks.get_hook auth hook1)))).
  - reflexivity.
  - reflexivity.
  - discriminate.
  - reflexivity.
  - reflexivity.
Defined.







(** A poll of the owner with default parameters, and one for undelivered
    events only. *)
Definition poll_default : request := mkRequest (js "GET") [] [] (Ok []).
Definition poll_undelivered : request :=
  mkRequest (js "GET") [] [(js "undelivered", js "true")] (Ok []).

(** The world after the owner has polled [hook1] five seconds after the
    POST: [event1] is delivered at second 1005. *)
Definition w2 : world :=
  (Hooks.get_events owner hook1 poll_default (set_now 1005000 w1)).2.

Lemma poll_keeps_delivery_time_witness :
  delivered_of event1
    (Hooks.get_events owner hook1 poll_default (set_now 1009000 w2)).2
  = Some (Some 1005).
Proof.
  refine (proj2 (poll_keeps_delivery_time owner hook1 poll_default
                   (set_now 1009000 w2) event1
                   (Db.set_delivered_at (Some 1005) (new_event hook1 post_json 1000))
                   1005 _ _)).
  - vm_compute. reflexivity.
  - reflexivity.
Defined.

Lemma post_then_poll_round_trip_witness :
  (Hooks.get_events owner hook1 poll_undelivered (set_now 1009000 w2)).1 =
    Ok (c_json [(js "events", JArr []); (js "count", JNum 0);
                (js "has_more", JBool false)] 200).
Proof.
  refine (proj2 (proj2 (proj2 (proj2
    (post_then_poll_round_trip owner event1 hook1 poll_hook post_json
       [x7b; x7d] (JObj []) poll_default poll_undelivered w0 1005000 1009000
       _ _ _ _ _ _ _ _ _ _ _ _ _ _))))).
  - reflexivity.
  - vm_compute. reflexivity.
  - reflexivity.
  - vm_compute. reflexivity.
  - vm_compute. lia.
  - intros id e Hl. vm_compute in Hl. discriminate.
  - reflexivity.
  - reflexivity.
  - vm_compute. discriminate.
  - discriminate.
  - reflexivity.
  - split; [vm_compute; eauto|exact I].
  - reflexivity.
  - reflexivity.
Defined.

(** The first event a poll lists, if any. *)
Definition first_item (res : outcome response * world) : option json :=
  match res.1 with
  | Ok resp =>
      match field (js "events") (payload resp) with
      | Some (JArr (item :: _)) => Some item
      | _ => None
      end
  | Throw => None
  end.

(** [GET /hooks/hook00000001/events] with the owner's token. *)
Definition get_events_request : request :=
  mkRequest (js "GET") [(js "authorization", js "Bearer good")] [] (Ok []).

(** C9 as stated fails: the poll with default parameters that follows the
    POST lists the event with [delivered_at] null, as it was read before
    the poll marked it; only the store has the delivery time. *)
Lemma poll_lists_delivered_at_null :
  let res := Hooks.GET_events hook1 get_events_request (set_now 1005000 w1) in
  (first_item res ≫= field (js "id")) = Some (JStr event1) /\
  (first_item res ≫= field (js "body")) = Some (JObj []) /\
  (first_item res ≫= field (js "delivered_at")) = Some JNull /\
  delivered_of event1 res.2 = Some (Some 1005).
Proof. vm_compute. repeat split. Qed.


(** A hook that holds 101 events, received one second apart. *)
Definition many_events (n : nat) : gmap jsstring Db.Event :=
  list_to_map
    ((fun i : nat =>
        (js "event-" ++ digits (N.of_nat i),
         Db.mkEvent hook1 (js "POST") (js "{}") (Some (js "{}")) None None
                    (Z.of_nat i) None)) <$> seq 0 n).

Definition w_crowded : world :=
  mkWorld (Db.mkDb {[ hook1 := poll_hook ]} (many_events 101)) ∅ 1000000 [] [] [].

(** [GET /hooks/hook00000001/events?limit=-1] with the owner's token. *)
Definition poll_minus_one : request :=
  mkRequest (js "GET") [(js "authorization", js "Bearer good")]
            [(js "limit", js "-1")] (Ok []).

(** What a poll answers: status, number of events listed, [count] and
    [has_more]. *)
Definition poll_summary (res : outcome response * world) :=
  match res.1 with
  | Ok resp =>
      Some (status resp,
            match field (js "events") (payload resp) with
            | Some (JArr l) => Some (length l)
            | _ => None
            end,
            field (js "count") (payload resp),
            field (js "has_more") (payload resp))
  | Throw => None
  end.

(** C4 fails on the code at a negative limit: the cap of 100 bounds the limit
    from above only, and the store reads a negative limit as no limit.  The
    owner of a hook with 101 events who asks for [limit=-1] is answered 200
    with all 101 events, more than the cap, and [has_more] is false. *)
Theorem poll_negative_limit_exceeds_cap :
  Hooks.limit_of poll_minus_one = Some (-1) /\
  poll_summary (Hooks.GET_events hook1 poll_minus_one w_crowded) =
    Some (200, Some 101%nat, Some (JNum 101), Some (JBool false)).
Proof.
  split; [reflexivity|].
  vm_compute. reflexivity.
Qed.



(** ** Runs for the further properties *)

Import Registry Reaper.

(** A request with two query parameters, and one with none of the body
    methods. *)
Definition get_with_query : request :=
  mkRequest (js "GET") [(js "x-real-ip", js "10.0.0.1")]
            [(js "a", js "1"); (js "a", js "2")] (Ok [x7b; x7d]).

(** A request whose headers repeat a name in two spellings and whose query
    string repeats a key, names [__proto__] and has keys that are array
    indices. *)
Definition get_mixed : request :=
  mkRequest (js "GET")
    [(js "X-Test", js "2"); (js "Authorization", js "Bearer good");
     (js "x-test", js "3"); (js "__proto__", js "p"); (js "Accept", js "*/*")]
    [(js "b", js "x"); (js "__proto__", js "p"); (js "10", js "t");
     (js "2", js "u"); (js "b", js "y")]
    (Ok []).

(** What the receiver keeps of it. *)
Lemma stored_objects_of_get_mixed :
  collect_headers get_mixed = [(js "accept", js "*/*"); (js "x-test", js "2, 3")] /\
  collect_query get_mixed = [(js "2", js "u"); (js "10", js "t"); (js "b", js "y")] /\
  collect_query (mkRequest (js "GET") [] [(js "__proto__", js "p")] (Ok [])) = [].
Proof. vm_compute. done. Qed.

Lemma stored_query_last_value_wins_witness :
  field (js "b") (of_record (collect_query get_mixed)) = Some (JStr (js "y")) /\
  Db.query_params (new_event hook1 get_mixed 1000) =
    Some (JSON_stringify (of_record (collect_query get_mixed))).
Proof.
  destruct (stored_query_last_value_wins get_mixed (js "b")) as (Hv & _ & _ & Hq).
  split; [exact Hv|].
  apply (Hq hook1 1000 (js "b", js "x")); [left|discriminate].
Defined.

Lemma unread_body_is_stored_as_null_witness :
  (webhook_all event1 hook1 get_with_query w0).1 =
    Ok (c_json [(js "received", JBool true); (js "event_id", JStr event1)] 200) /\
  Db.body <$> Db.events (store (webhook_all event1 hook1 get_with_query w0).2) !! event1 =
    Some None.
Proof.
  apply unread_body_is_stored_as_null.
  - left. vm_compute. intros Hin. repeat (apply elem_of_cons in Hin as [Hin|Hin]; [discriminate|]).
    by apply elem_of_nil in Hin.
  - vm_compute. eauto.
  - vm_compute. reflexivity.
  - apply store_ok_nil. reflexivity.
Defined.

Lemma ingest_counts_the_event_witness :
  Db.event_count <$> Db.hooks (store (webhook_all event1 hook1 post_json w0).2) !! hook1
    = Some 1.
Proof.
  destruct (ingest_counts_the_event event1 hook1 post_json w0 poll_hook)
    as ((hook' & Hl & Hc & _) & _).
  - vm_compute. reflexivity.
  - vm_compute. reflexivity.
  - apply store_ok_nil. reflexivity.
  - rewrite Hl. simpl. rewrite Hc. reflexivity.
Defined.

(** The same event id drawn a second time. *)
Lemma ingest_refused_on_taken_id_witness :
  (webhook_all event1 hook1 post_json w1).1 = Ok bare_acknowledgement /\
  store (webhook_all event1 hook1 post_json w1).2 = store w1 /\
  console (webhook_all event1 hook1 post_json w1).2 = console w1 ++ [WebhookProcessingError].
Proof.
  apply (ingest_refused_on_taken_id event1 hook1 post_json w1
           (Db.trigger 1000 poll_hook) (new_event hook1 post_json 1000)).
  - vm_compute. reflexivity.
  - vm_compute. reflexivity.
  - apply store_ok_nil. reflexivity.
Defined.

(** An engine that fails the third statement it is given. *)
Definition w_third_fails : world :=
  mkWorld (store w0) ∅ 1000000 [false; false; true] [] [].

Lemma ingest_stored_but_not_named_witness :
  (webhook_all event1 hook1 post_json w_third_fails).1 = Ok bare_acknowledgement /\
  Db.events (store (webhook_all event1 hook1 post_json w_third_fails).2) =
    <[event1 := new_event hook1 post_json 1000]> (Db.events (store w_third_fails)).
Proof.
  destruct (ingest_stored_but_not_named event1 hook1 post_json w_third_fails
              poll_hook []) as (Hr & He & _).
  - vm_compute. reflexivity.
  - vm_compute. reflexivity.
  - reflexivity.
  - split; [exact Hr|exact He].
Defined.

Lemma owner_delete_cascades_witness :
  Db.hooks (store (Hooks.delete_hook owner hook1 w1).2) !! hook1 = None /\
  Db.events (store (Hooks.delete_hook owner hook1 w1).2) !! event1 = None.
Proof.
  destruct (owner_delete_cascades owner hook1 w1 (Db.trigger 1000 poll_hook))
    as (_ & Hh & _ & He & _).
  - apply store_ok_nil. reflexivity.
  - vm_compute. reflexivity.
  - reflexivity.
  - split; [exact Hh|].
    destruct (Db.events (store (Hooks.delete_hook owner hook1 w1).2) !! event1)
      as [e|] eqn:Hl; [|reflexivity].
    apply He in Hl as [Hl Hne]. vm_compute in Hl. injection Hl as <-.
    destruct Hne. reflexivity.
Defined.

(** A hook whose stored configuration is not JSON. *)
Definition broken_hook : Db.Hook :=
  Db.mkHook (js "good") None None (js "email") (Some (js "oops")) 10 None 0.

Definition w_broken : world :=
  mkWorld (Db.mkDb {[ hook1 := broken_hook ]} ∅) ∅ 1000000 [] [] [].

Lemma get_hook_hides_owner_token_witness :
  status_of (Hooks.get_hook owner hook1) w_broken = Ok 500.
Proof.
  apply (proj2 (get_hook_hides_owner_token owner hook1 w_broken) broken_hook (js "oops")).
  - apply store_ok_nil. reflexivity.
  - vm_compute. reflexivity.
  - reflexivity.
  - reflexivity.
  - discriminate.
  - reflexivity.
Defined.

Lemma poll_refused_marks_nothing_witness :
  store (Hooks.get_events stranger hook1 poll_default w1).2 = store w1 /\
  status_of (Hooks.get_events stranger hook1 poll_default) w1 = Ok 403.
Proof.
  destruct (poll_refused_marks_nothing stranger hook1 poll_default w1) as (Hs & Hst).
  - right. exists (Db.trigger 1000 poll_hook). split.
    + vm_compute. reflexivity.
    + vm_compute. discriminate.
  - split; [exact Hs|]. rewrite Hst.
    + vm_compute. reflexivity.
    + apply store_ok_nil. reflexivity.
Defined.


Definition hook2 : jsstring := js "hook00000002".

(** A body that names the hook and asks for e-mail delivery with an empty
    configuration. *)
Definition create_body : CreateBody :=
  mkCreateBody (Some (js "github")) None (Some (js "email")) (Some []).

Lemma create_then_get_witness :
  exists resp w',
    create_hook owner hook2 (Ok create_body) w0 = (Ok (resp, []), w') /\
    status resp = 201 /\
    status_of (Hooks.get_hook owner hook2) w' = Ok 200 /\
    status_of (Hooks.get_hook stranger hook2) w' = Ok 403.
Proof.
  destruct (create_then_get owner stranger hook2 create_body w0)
    as (resp & w' & Hrun & Hst & _ & _ & Hget & _ & Hother).
  - reflexivity.
  - vm_compute. reflexivity.
  - intros fields [= <-]. vm_compute. reflexivity.
  - vm_compute. discriminate.
  - exists resp, w'. split; [exact Hrun|]. split; [exact Hst|].
    split; [|exact Hother]. unfold status_of. rewrite Hget. reflexivity.
Defined.

Lemma create_hook_on_taken_id_witness :
  (create_hook stranger hook1 (Ok create_body) w0).1 =
    Ok (c_json [(js "error", JStr (js "Failed to create webhook endpoint"))] 500,
        [FailedToCreateHook]) /\
  store (create_hook stranger hook1 (Ok create_body) w0).2 = store w0.
Proof.
  destruct (create_hook_on_taken_id stranger hook1 (Ok create_body) w0 poll_hook)
    as (Hr & Hs & _).
  - apply store_ok_nil. reflexivity.
  - vm_compute. reflexivity.
  - split; [exact Hr|exact Hs].
Defined.

Lemma list_hooks_only_own_witness :
  exists rows,
    (list_hooks stranger w0).1 =
      Ok (c_json [(js "hooks", JArr (map hook_json rows))] 200, []) /\
    (hook1, poll_hook) ∉ rows.
Proof.
  destruct (list_hooks_only_own stranger w0) as (rows & Hr & Hin & _).
  - apply store_ok_nil. reflexivity.
  - exists rows. split; [exact Hr|].
    intros Hrow. apply Hin in Hrow as [_ Hkey]. vm_compute in Hkey. discriminate.
Defined.

(** A request with no [Authorization] header. *)
Lemma middleware_needs_bearer_token_witness :
  Hooks.GET_hook hook1 poll_default w0 =
    (Ok (unauthorized (js "Missing or invalid Authorization header")), w0).
Proof.
  unfold Hooks.GET_hook.
  apply (proj1 (middleware_needs_bearer_token poll_default
                  (fun auth => Hooks.get_hook auth hook1) w0)).
  reflexivity.
Defined.

(** A request that carries a token the authority does not know. *)
Definition get_bad : request :=
  mkRequest (js "GET") [(js "Authorization", js "Bearer bad")] [] (Ok []).

Lemma rejected_token_is_unauthorized_witness :
  (Hooks.GET_hook hook1 get_bad w0).1 = Ok (unauthorized (js "Unknown token")).
Proof.
  unfold Hooks.GET_hook.
  rewrite (proj1 (rejected_token_is_unauthorized get_bad
             (fun auth => Hooks.get_hook auth hook1) w0 (js "bad")
             (mkValidation false None None None (Some (js "Unknown token")))
             1000020 eq_refl ltac:(discriminate) eq_refl eq_refl eq_refl)).
  reflexivity.
Defined.

(** The world after the token [good] has been verified at [w0], read when
    the cached entry expires. *)
Definition w_expired : world :=
  let wv := (Auth.verifyToken (js "good") (js "webhook_access") w0).2 in
  set_now (now wv + 60000) wv.

Lemma expired_entry_is_verified_again_witness :
  fetches (Auth.verifyToken (js "good") (js "webhook_access") w_expired).2 =
    fetches w_expired ++ [(js "good", js "webhook_access")].
Proof.
  refine (proj1 (expired_entry_is_verified_again (js "good") (js "webhook_access")
                   w_expired
                   (mkValidation true (Some (js "u1")) None (Some 5) None)
                   1060020 _ _ _)).
  - discriminate.
  - vm_compute. reflexivity.
  - vm_compute. discriminate.
Defined.

Lemma verifyToken_touches_own_entry_only_witness :
  tokenCache (Auth.verifyToken (js "other") (js "webhook_access") w_expired).2 !! js "good"
    = tokenCache w_expired !! js "good".
Proof.
  refine (proj1 (verifyToken_touches_own_entry_only (js "other") (js "good")
                   (js "webhook_access") w_expired _)).
  discriminate.
Defined.

(** A poll that asks not to mark. *)
Definition poll_peek : request :=
  mkRequest (js "GET") [] [(js "mark_delivered", js "false")] (Ok []).

Lemma poll_without_marking_is_read_only_witness :
  store (Hooks.get_events owner hook1 poll_peek (set_now 1005000 w1)).2 = store w1.
Proof.
  apply (poll_without_marking_is_read_only owner hook1 poll_peek (set_now 1005000 w1)).
  reflexivity.
Defined.


Lemma demo_renderable id e :
  Db.events (store (set_now 1005000 w1)) !! id = Some e ->
  Db.hook_id e = hook1 -> renderable e.
Proof.
  intros Hl _. destruct (decide (id = event1)) as [->|Hne].
  - vm_compute in Hl. injection Hl as <-. split; [vm_compute; eauto|exact I].
  - change (Db.events (store (set_now 1005000 w1)))
      with (<[event1 := new_event hook1 post_json 1000]> (∅ : gmap jsstring Db.Event)) in Hl.
    rewrite lookup_insert_ne, lookup_empty in Hl by done. discriminate.
Qed.

Lemma poll_lists_within_limit_witness :
  exists items,
    (Hooks.get_events owner hook1 poll_default (set_now 1005000 w1)).1 =
      Ok (c_json [(js "events", JArr items);
                  (js "count", JNum 1);
                  (js "has_more", JBool false)] 200) /\
    length items = 1%nat.
Proof.
  destruct (poll_lists_within_limit owner hook1 poll_default (set_now 1005000 w1)
              (Db.trigger 1000 poll_hook) 50)
    as (items & Hr & _ & Hlen & _).
  - reflexivity.
  - vm_compute. reflexivity.
  - reflexivity.
  - reflexivity.
  - lia.
  - apply demo_renderable.
  - exists items. split; [exact Hr|exact Hlen].
Defined.

Lemma poll_marks_exactly_what_it_read_witness :
  Db.events (store (Hooks.get_events owner hook1 poll_default (set_now 1005000 w1)).2)
    !! event1
  = Some (Db.set_delivered_at (Some 1005) (new_event hook1 post_json 1000)).
Proof.
  refine (proj1 (poll_marks_exactly_what_it_read owner hook1 poll_default
                   (set_now 1005000 w1) (Db.trigger 1000 poll_hook) 50
                   _ _ _ _ _ _) event1 (new_event hook1 post_json 1000) _ _).
  - reflexivity.
  - vm_compute. reflexivity.
  - reflexivity.
  - reflexivity.
  - lia.
  - reflexivity.
  - vm_compute. left.
  - reflexivity.
Defined.

Lemma undelivered_polls_do_not_repeat_witness :
  (event1, new_event hook1 post_json 1000) ∉
    poll_rows hook1 poll_undelivered
      (set_now 1009000
         (Hooks.get_events owner hook1 poll_default (set_now 1005000 w1)).2).
Proof.
  refine (undelivered_polls_do_not_repeat owner hook1 poll_default poll_undelivered
            (set_now 1005000 w1) (Db.trigger 1000 poll_hook) 50 1009000
            _ _ _ _ _ _ _ event1 (new_event hook1 post_json 1000)
            (new_event hook1 post_json 1000) _).
  - reflexivity.
  - vm_compute. reflexivity.
  - reflexivity.
  - reflexivity.
  - lia.
  - reflexivity.
  - reflexivity.
  - vm_compute. left.
Defined.

(** A store with an event received more than seven days ago, delivered, and
    one received two days ago, not delivered; the clock reads second
    1000000. *)
Definition old_event : Db.Event :=
  Db.mkEvent hook1 (js "POST") (js "{}") None None None 1000 (Some 2000).
Definition recent_event : Db.Event :=
  Db.mkEvent hook1 (js "POST") (js "{}") None None None 827200 None.

Definition w_aged : world :=
  mkWorld (Db.mkDb {[ hook1 := poll_hook ]}
                   {[ js "old" := old_event; js "recent" := recent_event ]})
          ∅ 1000000000 [] [] [].

Lemma sweep_removes_old_events_witness :
  (sweep w_aged).1 = Ok [CleanedUp 1] /\
  Db.events (store (sweep w_aged).2) !! js "recent" = Some recent_event.
Proof.
  destruct (sweep_removes_old_events w_aged) as (He & _ & _ & Hr).
  - apply store_ok_nil. reflexivity.
  - split.
    + rewrite Hr. vm_compute. reflexivity.
    + apply He. split; [vm_compute; reflexivity|vm_compute; discriminate].
Defined.

Lemma sweep_again_removes_nothing_witness :
  (sweep (set_now (now w_aged) (sweep w_aged).2)).1 = Ok [].
Proof.
  refine (proj1 (sweep_again_removes_nothing w_aged _)).
  apply store_ok_nil. reflexivity.
Defined.

(** A poll that asks for at most 7 events, and one that asks for 250. *)
Definition poll_seven : request :=
  mkRequest (js "GET") [] [(js "limit", js "7")] (Ok []).
Definition poll_many : request :=
  mkRequest (js "GET") [] [(js "limit", js "250")] (Ok []).

Lemma limit_of_request_witness :
  Hooks.limit_of poll_default = Some 50 /\
  Hooks.limit_of poll_seven = Some 7 /\
  Hooks.limit_of poll_many = Some 100.
Proof.
  split; [|split].
  - apply (proj1 (limit_of_request poll_default)). left. reflexivity.
  - apply (proj1 (proj2 (limit_of_request poll_seven)) 7%N). reflexivity.
  - apply (proj1 (proj2 (limit_of_request poll_many)) 250%N). reflexivity.
Defined.


End Demo.
